(** * Photo-Manager client data layer: windowed content cache, sequential
      pipeline, album ancestor invalidation and geotag serialisation.

    The TypeScript/JavaScript sources are embedded shallowly: JavaScript
    numbers that the code uses as ids, counts and page indices are [Z]
    (fractions and NaN are left out), arrays are lists, [null] array slots
    are [None], [Map] objects are [gmap]s, and [async] methods are
    state-passing functions that either return a value or throw. Every
    call that leaves the code (a remote load, a database write, a progress
    handler) is appended to a log in the state, so that "no remote call"
    reads "the log is unchanged". One run is one uninterrupted sequence:
    calls by other code between an [await] and its continuation are not
    modelled. *)

From Stdlib Require Import ZArith String List Lia.
From stdpp Require Import base option list gmap strings.

(** ** JavaScript primitives used by the models *)

Module Js.

(** Relative index resolution of [Array.prototype.slice]: a negative
    index counts from the end, and the result is clamped to [0, len]. *)
Definition relative_index (len i : Z) : Z :=
  if (i <? 0)%Z then Z.max (len + i) 0 else Z.min i len.

(** [arr.slice(start, end)]. *)
Definition slice {A} (arr : list A) (start end_ : Z) : list A :=
  let len := Z.of_nat (length arr) in
  let k := relative_index len start in
  let final := relative_index len end_ in
  take (Z.to_nat (final - k)) (drop (Z.to_nat k) arr).

(** [arr.slice(start)]: the end defaults to the length. *)
Definition slice_from {A} (arr : list A) (start : Z) : list A :=
  slice arr start (Z.of_nat (length arr)).

(** [arr.every(p)]. *)
Definition every {A} (p : A → bool) (arr : list A) : bool := forallb p arr.

(** [s || null] on an optional string: [undefined], [null] and the empty
    string are all falsy. *)
Definition or_null (s : option string) : option string :=
  match s with
  | Some EmptyString => None
  | Some s => Some s
  | None => None
  end.

(** Truthiness of an optional string, as in [s ? a : b]. *)
Definition truthy (s : option string) : bool :=
  match or_null s with Some _ => true | None => false end.

(** Largest array length plus one. *)
Definition array_length_limit : Z := 2 ^ 32.

End Js.

(** ** Values thrown or used as rejection reasons *)

Inductive error : Type :=
| Detail (detail : string)   (* an object [{ detail: ... }] *)
| RangeError                 (* [new Array(n)] with an invalid length, [push] on a full array *)
| NotFound (id : Z).         (* registry lookup of an unregistered id *)

Inductive outcome (A : Type) : Type :=
| Returned (value : A)
| Thrown (reason : error).
Arguments Returned {A} value.
Arguments Thrown {A} reason.

(** ** RootModel: roots and contents caches (RootModel.ts) *)

Module RootModel.

Local Open Scope Z_scope.

(** A model instance as far as the caches look at it: its id. *)
Record Model := { id : Z }.

(** [{ count, objectIds }] as stored in [this.contents]. *)
Record contentsEntry := { count : Z; objectIds : list (option Z) }.

(** [objectSetType] without the presentation fields [name] and [card]. *)
Record objectSetType := { set_count : option Z; set_objectIds : list (option Z) }.

(** [static rootModelMeta] without names and cards. *)
Record rootModelMeta := {
  hasRoots : bool;
  rootsFilterParam : option string;
  contentsFilterParam : string
}.

(** The class on which [loadFiltered] is called. *)
Inductive modelClass := ThisClass | ContentsClass.

(** One call [cls.loadFiltered({ [param]: value, search? }, page, pageSize)]. *)
Record request := {
  req_class : modelClass;
  req_param : option string;
  req_value : Z;
  req_search : option string;
  req_page : option Z;
  req_page_size : option Z
}.

(** What [loadFiltered] resolves with. *)
Record loaded := { data_count : Z; data_objects : list Model }.

(** The instance: [this.id], [this.roots], [this.contents]. *)
Record t := {
  this_id : Z;
  roots : gmap (option string) (list (option Z));
  contents : gmap (option string) contentsEntry
}.

(** The instance together with the log of remote calls issued so far. *)
Record store := { this : t; requests : list request }.

Definition M (A : Type) : Type := store → outcome A * store.

#[export] Instance M_ret : MRet M := λ A a st, (Returned a, st).
#[export] Instance M_bind : MBind M := λ A B f m st,
  match m st with
  | (Returned a, st') => f a st'
  | (Thrown e, st') => (Thrown e, st')
  end.

Definition throw {A} (e : error) : M A := λ st, (Thrown e, st).
Definition get_this : M t := λ st, (Returned (this st), st).
Definition set_roots (k : option string) (ids : list (option Z)) : M unit :=
  λ st, (Returned tt,
         {| this := {| this_id := this_id (this st);
                       roots := <[k := ids]> (roots (this st));
                       contents := contents (this st) |};
            requests := requests st |}).
Definition set_contents (k : option string) (e : contentsEntry) : M unit :=
  λ st, (Returned tt,
         {| this := {| this_id := this_id (this st);
                       roots := roots (this st);
                       contents := <[k := e]> (contents (this st)) |};
            requests := requests st |}).

(** [new Array(n).fill(null)]. *)
Definition new_Array_fill_null (n : Z) : M (list (option Z)) :=
  if (0 <=? n) && (n <? Js.array_length_limit)
  then mret (replicate (Z.to_nat n) None)
  else throw RangeError.

Definition is_known (slot : option Z) : bool :=
  match slot with Some _ => true | None => false end.

Section Methods.

Variable meta : rootModelMeta.

(** [Model.loadFiltered] lives outside this file's sources: the remote
    store is a parameter, answering each request with data or a
    rejection. *)
Variable loadFiltered : request → outcome loaded.

(** [await cls.loadFiltered(...)]: the call is logged, then answered. *)
Definition await_loadFiltered (r : request) : M loaded :=
  λ st, (loadFiltered r, {| this := this st; requests := requests st ++ [r] |}).

Definition search_field (searchQuery : option string) : option string :=
  if Js.truthy searchQuery then searchQuery else None.

Definition getRoots (searchQuery : option string) : M (option objectSetType) :=
  if negb (hasRoots meta) then mret None else
  let searchQuery := Js.or_null searchQuery in
  self ← get_this;
  let existingRootIds := roots self !! searchQuery in
  match existingRootIds with
  | Some existingRootIds =>
      mret (Some {| set_count := None; set_objectIds := existingRootIds |})
  | None =>
      rootsData ← await_loadFiltered
        {| req_class := ThisClass;
           req_param := rootsFilterParam meta;
           req_value := this_id self;
           req_search := search_field searchQuery;
           req_page := None; req_page_size := None |};
      let objectIds := (λ object, Some (id object)) <$> data_objects rootsData in
      set_roots searchQuery objectIds;;
      mret (Some {| set_count := None; set_objectIds := objectIds |})
  end.

Definition contents_request (self : t) (page pageSize : Z)
    (searchQuery : option string) : request :=
  {| req_class := ContentsClass;
     req_param := Some (contentsFilterParam meta);
     req_value := this_id self;
     req_search := search_field searchQuery;
     req_page := Some page; req_page_size := Some pageSize |}.

(** The part of [getContentObjects] after the cache lookup. *)
Definition load_contents (self : t) (existingContents : option contentsEntry)
    (page pageSize : Z) (searchQuery : option string) : M objectSetType :=
  contentsData ← await_loadFiltered (contents_request self page pageSize searchQuery);
  oldIds ← match existingContents with
           | Some existing => mret (objectIds existing)
           | None => new_Array_fill_null (data_count contentsData)
           end;
  let newIds := (λ object, Some (id object)) <$> data_objects contentsData in
  let allObjectIds :=
    Js.slice oldIds 0 ((page - 1) * pageSize)
      ++ (newIds ++ Js.slice_from oldIds (page * pageSize)) in
  set_contents searchQuery
    {| count := data_count contentsData; objectIds := allObjectIds |};;
  mret {| set_count := Some (data_count contentsData); set_objectIds := newIds |}.

Definition getContentObjects (page pageSize : Z) (searchQuery : option string)
    : M objectSetType :=
  let searchQuery := Js.or_null searchQuery in
  self ← get_this;
  let existingContents := contents self !! searchQuery in
  match existingContents with
  | Some existing =>
      if (0 <? count existing) && (count existing <=? (page - 1) * pageSize)
      then throw (Detail "Invalid page.")
      else
        let pageIds :=
          Js.slice (objectIds existing) ((page - 1) * pageSize) (page * pageSize) in
        if Js.every is_known pageIds
        then mret {| set_count := Some (count existing); set_objectIds := pageIds |}
        else load_contents self existingContents page pageSize searchQuery
  | None => load_contents self existingContents page pageSize searchQuery
  end.

End Methods.

(** The first slot and the slot after the last of page [page]. *)
Definition page_start (page pageSize : Z) : Z := (page - 1) * pageSize.
Definition page_end (page pageSize : Z) : Z := page * pageSize.

(** A successful answer of the remote store to a request for page [page]
    of size [pageSize]: the total count, which is a valid array length,
    and the rows of that page, fewer than [pageSize] only on the last
    page. The first page of an empty listing is the only empty page. *)
Definition paged (page pageSize : Z) (d : loaded) : Prop :=
  1 ≤ page ∧ 1 ≤ pageSize ∧
  0 ≤ data_count d < Js.array_length_limit ∧
  (page_start page pageSize < data_count d ∨ (data_count d = 0 ∧ page = 1)) ∧
  Z.of_nat (length (data_objects d))
    = Z.min pageSize (data_count d - page_start page pageSize).

(** The ids of loaded objects, as array slots. *)
Definition ids_of (objects : list Model) : list (option Z) :=
  (λ object, Some (id object)) <$> objects.

(** The store after [this.contents.set(k, e)] following one remote call. *)
Definition stored (st : store) (r : request) (k : option string) (e : contentsEntry)
    : store :=
  {| this := {| this_id := this_id (this st);
                roots := roots (this st);
                contents := <[k := e]> (contents (this st)) |};
     requests := requests st ++ [r] |}.

End RootModel.


(** ** utils.js: [promiseChain] and [Promise.prototype.progress] *)

Module Utils.

(** State of a promise. *)
Inductive promise (A R : Type) : Type :=
| Pending
| Fulfilled (value : A)
| Rejected (reason : R).
Arguments Pending {A R}.
Arguments Fulfilled {A R} value.
Arguments Rejected {A R} reason.

Section PromiseChain.

(** Items of the list, accumulator values, rejection reasons, and the
    part of the outside world the callback acts on. *)
Variables (item data reason world : Type).

(** The object passed to a progress handler. *)
Record progress := {
  ev_item : item;
  ev_result : data;
  doneCount : nat;
  totalCount : nat
}.

(** What the run lets an observer see, in the order it happens: a call of
    the handler registered with [progress(cb, true)], a call of the
    callback, a call of the handler registered with [progress(cb)]. *)
Inductive event : Type :=
| BeforeProgress (e : progress)
| Callback (it : item) (accumulator : data)
| AfterProgress (e : progress).

(** One use, by the callback, of the two functions it is handed. *)
Inductive settle : Type :=
| Resolve (d : data)
| Reject (r : reason).

(** A callback [callback(resolve, reject, item, accumulator)]: it acts on
    the world and calls [resolve] and [reject] any number of times, in
    some order. *)
Definition callback : Type := item → data → world → list settle * world.

(** Handlers stored on the returned promise by [progress]. *)
Record handlers := { onbeforeprogress : bool; onafterprogress : bool }.

(** [Promise.prototype.progress(callback, before)], as far as it decides
    which handler is set. *)
Definition progress_register (h : handlers) (before : bool) : handlers :=
  if before
  then {| onbeforeprogress := true; onafterprogress := onafterprogress h |}
  else {| onbeforeprogress := onbeforeprogress h; onafterprogress := true |}.

(** The closure variable [done], the observed events, and the world. *)
Record state := { done : nat; trace : list event; env : world }.

(** A promise of the chain: a computation that is run when its turn comes
    and leaves the promise settled or pending. *)
Definition task : Type := state → promise data reason * state.

(** [Promise.resolve(result)]. *)
Definition Promise_resolve (result : data) : task := λ st, (Fulfilled result, st).

(** [p.then(f)] with a fulfilment handler only: a rejected or pending [p]
    skips [f]; the promise [f] returns is adopted. *)
Definition then_ (p : task) (f : data → task) : task :=
  λ st, match p st with
        | (Fulfilled accumulator, st') => f accumulator st'
        | (other, st') => (other, st')
        end.

(** A promise settles once: later calls leave it as it is. *)
Definition settle_with (p : promise data reason) (q : promise data reason)
    : promise data reason :=
  match p with Pending => q | _ => p end.

(** One call of the wrapped [resolve] or of [reject] inside the executor. *)
Definition call (h : handlers) (total : nat) (it : item)
    (ps : promise data reason * state) (c : settle) : promise data reason * state :=
  let '(p, st) := ps in
  match c with
  | Resolve d =>
      let done' := S (done st) in
      let fired :=
        if onafterprogress h
        then [AfterProgress {| ev_item := it; ev_result := d;
                               doneCount := done'; totalCount := total |}]
        else [] in
      (settle_with p (Fulfilled d),
       {| done := done'; trace := trace st ++ fired; env := env st |})
  | Reject r => (settle_with p (Rejected r), st)
  end.

(** [new Promise(function (resolve, reject) { callback(..., reject, item,
    accumulator) })]. *)
Definition new_Promise (h : handlers) (total : nat) (cb : callback)
    (it : item) (accumulator : data) : task :=
  λ st,
    let '(calls, w) := cb it accumulator (env st) in
    let st1 := {| done := done st;
                  trace := trace st ++ [Callback it accumulator];
                  env := w |} in
    fold_left (call h total it) calls (Pending, st1).

(** The function given to [then] for one item. *)
Definition link (h : handlers) (total : nat) (cb : callback) (it : item)
    (accumulator : data) : task :=
  λ st,
    let fired :=
      if onbeforeprogress h
      then [BeforeProgress {| ev_item := it; ev_result := accumulator;
                              doneCount := done st; totalCount := total |}]
      else [] in
    new_Promise h total cb it accumulator
      {| done := done st; trace := trace st ++ fired; env := env st |}.

(** [list.reduce(function (promiseChain, item) { return
    promiseChain.then(...) }, first)] for a list whose [length] is [total]. *)
Definition chain (h : handlers) (total : nat) (cb : callback)
    (list : list item) (first : task) : task :=
  fold_left (λ promiseChain it, then_ promiseChain (link h total cb it)) list first.

(** [promiseChain(list, callback, result)]; [done] starts at 0. *)
Definition promiseChain (h : handlers) (list : list item) (cb : callback)
    (result : data) (w : world) : promise data reason * state :=
  chain h (length list) cb list (Promise_resolve result)
    {| done := 0; trace := []; env := w |}.

(** The calls of the callback, in order: the item and the accumulator. *)
Definition callback_calls (tr : list event) : list (item * data) :=
  omap (λ e, match e with Callback it acc => Some (it, acc) | _ => None end) tr.

Definition before_events (tr : list event) : list progress :=
  omap (λ e, match e with BeforeProgress p => Some p | _ => None end) tr.

Definition after_events (tr : list event) : list progress :=
  omap (λ e, match e with AfterProgress p => Some p | _ => None end) tr.

(** The state of the promise after the callback's calls. *)
Definition settled (calls : list settle) : promise data reason :=
  match calls with
  | [] => Pending
  | Resolve d :: _ => Fulfilled d
  | Reject r :: _ => Rejected r
  end.

(** A callback that behaves like a function returning a promise: each
    invocation calls at most one of [resolve] and [reject], at most once. *)
Definition promise_like (cb : callback) : Prop :=
  ∀ it accumulator w, (length (cb it accumulator w).1 ≤ 1)%nat.

(** The pipeline as the specification words it: for each item in order,
    fire "before", invoke the step on the item and the accumulator, and go
    on to the next item with the step's result only once the step has
    fulfilled; a step that rejects (or never settles) ends the run. *)
Fixpoint run (h : handlers) (total : nat) (cb : callback) (items : list item)
    (accumulator : data) : task :=
  λ st,
    match items with
    | [] => (Fulfilled accumulator, st)
    | it :: items =>
        match link h total cb it accumulator st with
        | (Fulfilled result, st') => run h total cb items result st'
        | (other, st') => (other, st')
        end
    end.

(** The events of a run with both handlers registered and a promise-like
    step, as the specification words them: "before" with the item, the
    accumulator and the number of steps done, then the step, then, if the
    step succeeded, "after" with the item, the result and the number of
    steps done, which has grown by one. *)
Fixpoint progress_events (total : nat) (cb : callback) (items : list item)
    (accumulator : data) (doneCount : nat) (w : world) : list event :=
  match items with
  | [] => []
  | it :: items =>
      BeforeProgress {| ev_item := it; ev_result := accumulator;
                        doneCount := doneCount; totalCount := total |}
      :: Callback it accumulator
      :: match settled (cb it accumulator w).1 with
         | Fulfilled result =>
             AfterProgress {| ev_item := it; ev_result := result;
                              doneCount := S doneCount; totalCount := total |}
             :: progress_events total cb items result (S doneCount)
                  (cb it accumulator w).2
         | _ => []
         end
  end.

(** Both handlers registered: [promiseChain(...).progress(f, true).progress(g)]. *)
Definition both_handlers : handlers :=
  progress_register
    (progress_register {| onbeforeprogress := false; onafterprogress := false |} true)
    false.

End PromiseChain.

Arguments Resolve {data reason} d.
Arguments Reject {data reason} r.
Arguments BeforeProgress {item data} e.
Arguments Callback {item data} it accumulator.
Arguments AfterProgress {item data} e.
Arguments Build_progress {item data}.
Arguments ev_item {item data}.
Arguments ev_result {item data}.
Arguments doneCount {item data}.
Arguments totalCount {item data}.
Arguments Build_state {item data world}.
Arguments done {item data world}.
Arguments trace {item data world}.
Arguments env {item data world}.
Arguments Promise_resolve {item data reason world}.
Arguments then_ {item data reason world}.
Arguments settle_with {data reason}.
Arguments call {item data reason world}.
Arguments new_Promise {item data reason world}.
Arguments link {item data reason world}.
Arguments chain {item data reason world}.
Arguments promiseChain {item data reason world}.
Arguments callback_calls {item data}.
Arguments run {item data reason world}.
Arguments progress_events {item data reason world}.
Arguments before_events {item data}.
Arguments after_events {item data}.
Arguments settled {data reason}.
Arguments promise_like {item data reason world}.

(** The step of the specification's example: it resolves with the
    accumulator extended by the item. *)
Definition append_step {item reason world : Type}
    : callback item (list item) reason world :=
  λ it accumulator w, ([Resolve (accumulator ++ [it])], w).

End Utils.


(** ** models/Album.ts: adding files and reloading the parent chain *)

Module Album.

(** An album instance. The registry [Album.meta.objects] holds the one
    live instance per id, so an instance is referred to by its id and the
    record holds the remaining fields; [roots] and [contents] are the
    caches inherited from RootModel. *)
Record t := {
  name : string;
  file_count : Z;
  parentID : option Z;
  roots : gmap (option string) (list (option Z));
  contents : gmap (option string) RootModel.contentsEntry
}.

(** Calls that leave the album code. *)
Inductive effect : Type :=
| DatabaseCreate (album file : Z)        (* [Database.create(DBTables.AlbumFile, { album, file })] *)
| ResetData (id : Z)                     (* [resetData()] on the album with this id *)
| LoadIds (ids : list Z) (refresh : bool). (* [Album.loadIds(ids, refresh)] *)

Section Methods.

(** The remote database: its state, and how it answers a request to
    create an album-file link. *)
Variable remote : Type.
Variable Database_create : Z → Z → remote → outcome unit * remote.

(** The registry, the remote database and the calls made so far. *)
Record app := { objects : gmap Z t; database : remote; effects : list effect }.

(** A method either returns or throws in a new state, or (on [None]) is
    still looping when the fuel runs out. *)
Definition M (A : Type) : Type := app → option (outcome A * app).

#[export] Instance M_ret : MRet M := λ A a st, Some (Returned a, st).
#[export] Instance M_bind : MBind M := λ A B f m st,
  match m st with
  | Some (Returned a, st') => f a st'
  | Some (Thrown e, st') => Some (Thrown e, st')
  | None => None
  end.

Definition throw {A} (e : error) : M A := λ st, Some (Thrown e, st).
Definition diverge {A} : M A := λ _, None.
Definition perform (e : effect) : M unit :=
  λ st, Some (Returned tt,
              {| objects := objects st; database := database st;
                 effects := effects st ++ [e] |}).

(** Modelled from the spec: [Album.getById] (Model.ts is not among the
    sources) returns the registered instance or fails with NotFound. *)
Definition getById (id : Z) : M t :=
  λ st, match objects st !! id with
        | Some a => Some (Returned a, st)
        | None => Some (Thrown (NotFound id), st)
        end.

(** Modelled from the spec: what [resetData] (Model.ts is not among the
    sources) leaves of an album: the caches are cleared, nothing else
    changes. *)
Definition cleared (a : t) : t :=
  {| name := name a; file_count := file_count a; parentID := parentID a;
     roots := ∅; contents := ∅ |}.

(** Modelled from the spec: [resetData] on the registered album [id]. *)
Definition resetData (id : Z) : M unit :=
  λ st, Some (Returned tt,
              {| objects := alter cleared id (objects st);
                 database := database st;
                 effects := effects st ++ [ResetData id] |}).

(** The registry after [resetData] on each of these albums in turn. *)
Definition reset_all (ids : list Z) (objs : gmap Z t) : gmap Z t :=
  fold_left (λ m id, alter cleared id m) ids objs.

(** [get parent()]: [null], or the registered album with id [parentID]. *)
Definition parent (id : Z) : M (option Z) :=
  this ← getById id;
  match parentID this with
  | None => mret None
  | Some p => _ ← getById p; mret (Some p)
  end.

(** The [while (current !== null)] loop of [updateParents]. The array
    [ids] is taken without a limit on its length here;
    [AlbumTree.updateParents_loop_within] writes the limit out. *)
Fixpoint updateParents_loop (fuel : nat) (current : option Z) (ids : list Z)
    : M (list Z) :=
  match current with
  | None => mret ids
  | Some cur =>
      match fuel with
      | O => diverge
      | S fuel =>
          let ids := ids ++ [cur] in
          resetData cur;;
          next ← parent cur;
          updateParents_loop fuel next ids
      end
  end.

Definition updateParents (fuel : nat) (this : Z) : M unit :=
  ids ← updateParents_loop fuel (Some this) [];
  perform (LoadIds ids true).

(** [await Database.create(DBTables.AlbumFile, ...)]. *)
Definition await_Database_create (album file : Z) : M unit :=
  λ st,
    let '(answer, db) := Database_create album file (database st) in
    Some (answer, {| objects := objects st; database := db;
                     effects := effects st ++ [DatabaseCreate album file] |}).

Definition addFile (fuel : nat) (this : Z) (fileId : Z) (multiple : bool) : M unit :=
  await_Database_create this fileId;;
  if negb multiple then updateParents fuel this else mret tt.

(** The callback of [addFiles]:
    [this.addFile(fileId, true).then(resolve).catch(reject)]. *)
Definition addFiles_callback (fuel : nat) (this : Z)
    : Utils.callback Z unit error app :=
  λ fileId _ st,
    match addFile fuel this fileId true st with
    | Some (Returned tt, st') => ([Utils.Resolve tt], st')
    | Some (Thrown e, st') => ([Utils.Reject e], st')
    | None => ([], st)
    end.

(** No handler is registered on the promise that [addFiles] awaits. *)
Definition no_handlers : Utils.handlers :=
  {| Utils.onbeforeprogress := false; Utils.onafterprogress := false |}.

(** [await promiseChain(files, callback)]. *)
Definition await_promiseChain (fuel : nat) (this : Z) (files : list Z) : M unit :=
  λ st,
    match Utils.promiseChain no_handlers files (addFiles_callback fuel this) tt st with
    | (Utils.Fulfilled _, s) => Some (Returned tt, Utils.env s)
    | (Utils.Rejected e, s) => Some (Thrown e, Utils.env s)
    | (Utils.Pending, _) => None
    end.

Definition addFiles (fuel : nat) (this : Z) (files : list Z) : M unit :=
  await_promiseChain fuel this files;;
  updateParents fuel this.

(** The parent chain of an album, from the album up to a root: every
    album on it is registered and the walk ends. *)
Inductive parent_chain (objs : gmap Z t) : Z → list Z → Prop :=
| chain_root id a :
    objs !! id = Some a → parentID a = None → parent_chain objs id [id]
| chain_step id a p ids :
    objs !! id = Some a → parentID a = Some p →
    parent_chain objs p ids → parent_chain objs id (id :: ids).

(** The database accepts the creation of each link, one after the other. *)
Fixpoint accepts (album : Z) (files : list Z) (db : remote) : Prop :=
  match files with
  | [] => True
  | file :: files =>
      ∃ db', Database_create album file db = (Returned tt, db') ∧ accepts album files db'
  end.

(** The database after these creations. *)
Fixpoint after_creates (album : Z) (files : list Z) (db : remote) : remote :=
  match files with
  | [] => db
  | file :: files => after_creates album files (Database_create album file db).2
  end.

End Methods.

End Album.


(** ** models/FileObject.ts and models/GeoTag.ts: the [geotag] special property *)

Module FileObject.

Section Geotag.

(** Latitudes and longitudes are only copied, never computed with. *)
Variable coord : Type.

(** A geotag area instance, as far as the geotag code reads it. *)
Record GeoTagArea := { area_id : Z; area_name : string }.

(** A geotag instance. *)
Record GeoTag := {
  id : Z;
  latitude : option coord;
  longitude : option coord;
  areaID : option Z;
  locationModified : bool;
  areaModified : bool
}.

(** A geotag on the wire. A field the object does not have is [None];
    [area] can also be present and [null]; an absent flag is falsy. *)
Record wire := {
  w_id : Z;
  w_latitude : option coord;
  w_longitude : option coord;
  w_area : option (option Z);
  w_locationModified : bool;
  w_areaModified : bool
}.

(** The file's stored geotag id and the registries the code goes through. *)
Record store := {
  geotagID : option Z;
  geotags : gmap Z GeoTag;
  areas : gmap Z GeoTagArea
}.

(** [get area()] of GeoTag: [null], or [GeoTagArea.getById(this.areaID)],
    which fails with NotFound for an unregistered id. *)
Definition GeoTag_area (st : store) (g : GeoTag) : outcome (option GeoTagArea) :=
  match areaID g with
  | None => Returned None
  | Some a =>
      match areas st !! a with
      | Some area => Returned (Some area)
      | None => Thrown (NotFound a)
      end
  end.

(** [specialProps.geotag.serialize(obj, prop)]: the value left in
    [obj.geotag]. *)
Definition serialize (st : store) (prop : option GeoTag) : outcome (option wire) :=
  match prop with
  | None => Returned None
  | Some prop =>
      let geotag :=
        {| w_id := id prop; w_latitude := None; w_longitude := None;
           w_area := None; w_locationModified := false; w_areaModified := false |} in
      let geotag :=
        if locationModified prop
        then {| w_id := w_id geotag;
                w_latitude := latitude prop; w_longitude := longitude prop;
                w_area := w_area geotag;
                w_locationModified := false; w_areaModified := false |}
        else geotag in
      if areaModified prop
      then match GeoTag_area st prop with
           | Returned area =>
               Returned (Some
                 {| w_id := w_id geotag;
                    w_latitude := w_latitude geotag; w_longitude := w_longitude geotag;
                    w_area := Some (area_id <$> area);
                    w_locationModified := false; w_areaModified := false |})
           | Thrown e => Thrown e
           end
      else Returned (Some geotag)
  end.

(** Modelled from the spec: [GeoTag.addObject] (Model.ts is not among the
    sources) creates the instance with the record's id or merges the
    record's fields into the registered instance with that id, and
    returns the instance. *)
Definition addObject (st : store) (record : wire) : GeoTag * store :=
  let merged :=
    match geotags st !! w_id record with
    | Some old =>
        {| id := w_id record;
           latitude := match w_latitude record with Some x => Some x | None => latitude old end;
           longitude := match w_longitude record with Some x => Some x | None => longitude old end;
           areaID := match w_area record with Some a => a | None => areaID old end;
           locationModified := locationModified old;
           areaModified := areaModified old |}
    | None =>
        {| id := w_id record;
           latitude := w_latitude record;
           longitude := w_longitude record;
           areaID := match w_area record with Some a => a | None => None end;
           locationModified := false;
           areaModified := false |}
    end in
  (merged, {| geotagID := geotagID st;
              geotags := <[w_id record := merged]> (geotags st);
              areas := areas st |}).

(** [file.geotag.<flag> = true] through the getter
    [GeoTag.getById(this.geotagID)]. *)
Definition set_flag (location : bool) (st : store) : outcome store :=
  match geotagID st with
  | None => Thrown (NotFound 0)
  | Some i =>
      match geotags st !! i with
      | None => Thrown (NotFound i)
      | Some g =>
          let g' :=
            if location
            then {| id := id g; latitude := latitude g; longitude := longitude g;
                    areaID := areaID g; locationModified := true;
                    areaModified := areaModified g |}
            else {| id := id g; latitude := latitude g; longitude := longitude g;
                    areaID := areaID g; locationModified := locationModified g;
                    areaModified := true |} in
          Returned {| geotagID := geotagID st;
                      geotags := <[i := g']> (geotags st);
                      areas := areas st |}
      end
  end.

(** [specialProps.geotag.deserialize(file, prop)]. *)
Definition deserialize (st : store) (prop : option wire) : outcome store :=
  match prop with
  | None =>
      Returned {| geotagID := None; geotags := geotags st; areas := areas st |}
  | Some prop =>
      let '(added, st) := addObject st prop in
      let st := {| geotagID := Some (id added); geotags := geotags st; areas := areas st |} in
      match (if w_locationModified prop then set_flag true st else Returned st) with
      | Returned st => if w_areaModified prop then set_flag false st else Returned st
      | Thrown e => Thrown e
      end
  end.

(** The area of a geotag can be looked up whenever serialisation reads it. *)
Definition area_loaded (st : store) (g : GeoTag) : Prop :=
  areaModified g = true → ∀ a, areaID g = Some a → is_Some (areas st !! a).

End Geotag.

Arguments id {coord}.
Arguments w_id {coord}.
Arguments geotagID {coord}.
Arguments serialize {coord}.
Arguments deserialize {coord}.
Arguments area_loaded {coord}.

End FileObject.


(** ** Concrete containers, remote stores and runs *)

Module Examples.

Local Open Scope Z_scope.

(** [Album.rootModelMeta]. *)
Definition album_meta : RootModel.rootModelMeta :=
  {| RootModel.hasRoots := false;
     RootModel.rootsFilterParam := None;
     RootModel.contentsFilterParam := "album" |}.

(** The metadata of a container type that has roots. *)
Definition folder_meta : RootModel.rootModelMeta :=
  {| RootModel.hasRoots := true;
     RootModel.rootsFilterParam := Some "parent"%string;
     RootModel.contentsFilterParam := "folder" |}.

(** A remote store that cannot be reached. *)
Definition offline : RootModel.request → outcome RootModel.loaded :=
  λ _, Thrown (Detail "Network Error").

(** A remote store holding the rows with these ids: a request with a page
    is answered with the count and that page, or rejected when the page
    is not the first one and starts beyond the rows; a request without a
    page is answered with all the rows. *)
Definition pages (rows : list Z) : RootModel.request → outcome RootModel.loaded :=
  λ r,
    let total := Z.of_nat (length rows) in
    match RootModel.req_page r, RootModel.req_page_size r with
    | Some page, Some pageSize =>
        if (1 <=? page) && (1 <=? pageSize)
           && (((page - 1) * pageSize <? total) || ((page =? 1) && (total =? 0)))
        then Returned
               {| RootModel.data_count := total;
                  RootModel.data_objects :=
                    RootModel.Build_Model
                      <$> Js.slice rows ((page - 1) * pageSize) (page * pageSize) |}
        else Thrown (Detail "Invalid page.")
    | _, _ =>
        Returned {| RootModel.data_count := total;
                    RootModel.data_objects := RootModel.Build_Model <$> rows |}
    end.

(** The ids [first], [first + 1], ... ([n] of them). *)
Definition ids_from (first : Z) (n : nat) : list Z :=
  (λ i, first + Z.of_nat i) <$> seq 0 n.

(** Container 7 with empty caches and no remote call made yet. *)
Definition fresh : RootModel.store :=
  {| RootModel.this := {| RootModel.this_id := 7;
                          RootModel.roots := ∅;
                          RootModel.contents := ∅ |};
     RootModel.requests := [] |}.

(** Container 7 with one cached contents entry, for "no search". *)
Definition cache_of (e : RootModel.contentsEntry) : RootModel.store :=
  {| RootModel.this := {| RootModel.this_id := 7;
                          RootModel.roots := ∅;
                          RootModel.contents := {[ None := e ]} |};
     RootModel.requests := [] |}.

(** 25 known ids under a count of 25. *)
Definition full25 : RootModel.contentsEntry :=
  {| RootModel.count := 25; RootModel.objectIds := Some <$> ids_from 100 25 |}.

(** The first page of a listing of 25 loaded, the rest unknown. *)
Definition first_page_of_25 : RootModel.contentsEntry :=
  {| RootModel.count := 25;
     RootModel.objectIds := (Some <$> ids_from 100 10) ++ replicate 15 None |}.

(** The cached entry of an empty listing. *)
Definition empty_listing : RootModel.contentsEntry :=
  {| RootModel.count := 0; RootModel.objectIds := [] |}.

(** A container that loaded pages 2 and 3 of a listing of 30 rows, and
    then page 1 after the remote listing had shrunk to 5 rows. *)
Definition after_shrink : RootModel.store :=
  let st1 := (RootModel.getContentObjects album_meta (pages (ids_from 100 30))
                2 10 None fresh).2 in
  let st2 := (RootModel.getContentObjects album_meta (pages (ids_from 100 30))
                3 10 None st1).2 in
  (RootModel.getContentObjects album_meta (pages (ids_from 200 5)) 1 10 None st2).2.

(** A step that appends its item, except for "b", on which it rejects. *)
Definition reject_b : Utils.callback string (list string) error unit :=
  λ it accumulator w,
    if String.eqb it "b"
    then ([Utils.Reject (Detail "b failed")], w)
    else ([Utils.Resolve (accumulator ++ [it])], w).

(** A step that calls [reject] and then [resolve] with the accumulator
    extended by its item. *)
Definition reject_then_resolve : Utils.callback string (list string) error unit :=
  λ it accumulator w,
    ([Utils.Reject (Detail "failed"); Utils.Resolve (accumulator ++ [it])], w).

(** A database that accepts every link and records it. *)
Definition accept_link : Z → Z → list (Z * Z) → outcome unit * list (Z * Z) :=
  λ album file links, (Returned tt, links ++ [(album, file)]).

Definition album_named (name : string) (parentID : option Z) (file_count : Z)
    : Album.t :=
  {| Album.name := name; Album.file_count := file_count;
     Album.parentID := parentID;
     Album.roots := ∅;
     Album.contents := {[ None := {| RootModel.count := file_count;
                                     RootModel.objectIds := [] |} ]} |}.

(** Albums 1 (a root), 2 and 4 (children of 1) and 3 (a child of 2). *)
Definition family : gmap Z Album.t :=
  list_to_map [(1, album_named "Holidays" None 9);
               (2, album_named "2019" (Some 1) 5);
               (3, album_named "Summer" (Some 2) 3);
               (4, album_named "2020" (Some 1) 4)].

Definition family_app : Album.app (list (Z * Z)) :=
  {| Album.objects := family; Album.database := []; Album.effects := [] |}.

(** A geotag with a modified location and a modified area, and a store
    in which that area is registered. Coordinates are in microdegrees. *)
Definition tagged : FileObject.GeoTag Z :=
  {| FileObject.id := 9;
     FileObject.latitude := Some 51500000;
     FileObject.longitude := Some (-120000);
     FileObject.areaID := Some 4;
     FileObject.locationModified := true;
     FileObject.areaModified := true |}.

Definition geo_store : FileObject.store Z :=
  {| FileObject.geotagID := None;
     FileObject.geotags := ∅;
     FileObject.areas := {[ 4 := {| FileObject.area_id := 4;
                                    FileObject.area_name := "London" |} ]} |}.

End Examples.


(** ** RootModel: the whole listing of a container, and the base roots *)

Module RootListing.

Import RootModel.

Local Open Scope Z_scope.

Section Methods.

Variable meta : rootModelMeta.
Variable loadFiltered : request → outcome loaded.

(** [getContents(page, pageSize, searchQuery)]: the roots, then the
    contents. The assignments of [name] and [card] to the two object sets
    set presentation fields that [objectSetType] leaves out here. *)
Definition getContents (page pageSize : Z) (searchQuery : option string)
    : M (option objectSetType * objectSetType) :=
  roots ← getRoots meta loadFiltered searchQuery;
  contents ← getContentObjects meta loadFiltered page pageSize searchQuery;
  mret (roots, contents).

(** [loadFiltered({ [rootsFilterParam]: null })] on the class: the base
    root objects. The answer of the remote store is a parameter. *)
Variable loadBaseRoots : option string → outcome loaded.

(** The static field [absoluteRoots] ([null] until loaded) and the
    remote calls made by the static method. *)
Record statics := { absoluteRoots : option (list (option Z)); base_requests : nat }.

(** [static getAbsoluteRoots()]: the roots object set, and an empty
    contents object set. *)
Definition getAbsoluteRoots (cls : statics)
    : outcome (objectSetType * objectSetType) * statics :=
  let contents := {| set_count := Some 0; set_objectIds := [] |} in
  match absoluteRoots cls with
  | None =>
      let called := {| absoluteRoots := None; base_requests := S (base_requests cls) |} in
      match loadBaseRoots (rootsFilterParam meta) with
      | Returned rootsData =>
          let roots :=
            {| set_count := Some (data_count rootsData);
               set_objectIds := (λ root, Some (id root)) <$> data_objects rootsData |} in
          (Returned (roots, contents),
           {| absoluteRoots := Some (set_objectIds roots);
              base_requests := base_requests called |})
      | Thrown e => (Thrown e, called)
      end
  | Some ids =>
      (Returned ({| set_count := Some (Z.of_nat (length ids)); set_objectIds := ids |},
                 contents), cls)
  end.

End Methods.

(** The cached entry agrees with the remote listing [rows]: same count,
    same length, and every known slot holds the id of its row. *)
Definition agrees (rows : list Z) (e : contentsEntry) : Prop :=
  count e = Z.of_nat (length rows)
  ∧ length (objectIds e) = length rows
  ∧ ∀ (i : nat) (x : Z), objectIds e !! i = Some (Some x) → rows !! i = Some x.

(** The remote store answers the request for page [page] of size
    [pageSize] of the listing [rows]: the page exists, and the answer is the
    number of rows and the rows of that page. *)
Definition serves (rows : list Z) (page pageSize : Z) (answer : outcome loaded) : Prop :=
  1 ≤ page ∧ 1 ≤ pageSize
  ∧ Z.of_nat (length rows) < Js.array_length_limit
  ∧ ((page - 1) * pageSize < Z.of_nat (length rows) ∨ (rows = [] ∧ page = 1))
  ∧ answer = Returned {| data_count := Z.of_nat (length rows);
                         data_objects :=
                           Build_Model
                             <$> Js.slice rows ((page - 1) * pageSize) (page * pageSize) |}.

End RootListing.


(** ** Callbacks derived from a callback *)

Module Callbacks.

(** The callback that makes only the first of the calls to [resolve] and
    [reject] that [cb] makes, with the same effect on the world. *)
Definition first_call_only {item data reason world : Type}
    (cb : Utils.callback item data reason world)
    : Utils.callback item data reason world :=
  λ it accumulator w, (take 1 (cb it accumulator w).1, (cb it accumulator w).2).

(** The counter and the "after" events go together: the counter is the
    number of "after" events, and they are numbered from 1. *)
Definition counted {item data world : Type} (total : nat)
    (st : Utils.state item data world) : Prop :=
  Utils.done st = length (Utils.after_events (Utils.trace st))
  ∧ ∀ k e, Utils.after_events (Utils.trace st) !! k = Some e →
           Utils.doneCount e = S k ∧ Utils.totalCount e = total.

End Callbacks.


(** ** JavaScript string and array methods used on URLs and paths *)

Module JsString.

Import Stdlib.Strings.Ascii.

Local Open Scope string_scope.

(** Strings are kept as sequences of bytes. The functions below look for
    one ASCII character and cut the string only next to an occurrence of
    it, where bytes of UTF-8 and units of UTF-16 agree. *)

(** [s.indexOf(c) != -1], for a string [c] of one character. *)
Fixpoint includes (c : ascii) (s : string) : bool :=
  match s with
  | EmptyString => false
  | String c' s' => Ascii.eqb c' c || includes c s'
  end.

(** [s.startsWith(c)]. *)
Definition startsWith (c : ascii) (s : string) : bool :=
  match s with
  | EmptyString => false
  | String c' _ => Ascii.eqb c' c
  end.

(** [s.endsWith(c)]. *)
Fixpoint endsWith (c : ascii) (s : string) : bool :=
  match s with
  | EmptyString => false
  | String c' s' =>
      match s' with
      | EmptyString => Ascii.eqb c' c
      | String _ _ => endsWith c s'
      end
  end.

(** [s.substr(1)]. *)
Definition substr_1 (s : string) : string :=
  match s with
  | EmptyString => EmptyString
  | String _ s' => s'
  end.

(** [s.substr(0, s.length - 1)]. *)
Fixpoint substr_0_last (s : string) : string :=
  match s with
  | EmptyString => EmptyString
  | String c s' =>
      match s' with
      | EmptyString => EmptyString
      | String _ _ => String c (substr_0_last s')
      end
  end.

(** [s.split(sep)], for a separator of one character: never empty. *)
Fixpoint split (sep : ascii) (s : string) : list string :=
  match s with
  | EmptyString => [EmptyString]
  | String c s' =>
      if Ascii.eqb c sep then EmptyString :: split sep s'
      else match split sep s' with
           | piece :: pieces => String c piece :: pieces
           | [] => [String c EmptyString]
           end
  end.

(** [pieces.join(sep)]. *)
Definition join (sep : string) (pieces : list string) : string :=
  String.concat sep pieces.

(** The string before and the string after the first [c] in [s]. *)
Fixpoint cut (c : ascii) (s : string) : option (string * string) :=
  match s with
  | EmptyString => None
  | String c' s' =>
      if Ascii.eqb c' c then Some (EmptyString, s')
      else match cut c s' with
           | Some (before, after) => Some (String c' before, after)
           | None => None
           end
  end.

(** The replacement text of [replace] for a string pattern: in the
    template, [$$] stands for a dollar sign, [$&] for the match, [$`] for
    the text before the match and [$'] for the text after it; there are
    no captures, so every other [$] stands for itself. *)
Fixpoint substitution (matched before after template : string) : string :=
  match template with
  | EmptyString => EmptyString
  | String c rest =>
      if Ascii.eqb c "$" then
        match rest with
        | String c2 rest2 =>
            if Ascii.eqb c2 "$" then String "$" (substitution matched before after rest2)
            else if Ascii.eqb c2 "&" then matched ++ substitution matched before after rest2
            else if Ascii.eqb c2 "`" then before ++ substitution matched before after rest2
            else if Ascii.eqb c2 "'" then after ++ substitution matched before after rest2
            else String c (substitution matched before after rest)
        | EmptyString => String c EmptyString
        end
      else String c (substitution matched before after rest)
  end.

(** [s.replace(c, replacement)], for a pattern string [c] of one
    character: the first occurrence is replaced. *)
Definition replace (c : ascii) (replacement : string) (s : string) : string :=
  match cut c s with
  | None => s
  | Some (before, after) =>
      before ++ substitution (String c EmptyString) before after replacement ++ after
  end.

End JsString.

(** ** utils.js: URLs *)

Module Urls.

Import Stdlib.Strings.Ascii JsString.

Local Open Scope string_scope.

(** [trimUrl(url)]; [None] is [undefined] or [null]. *)
Definition trimUrl (url : option string) : string :=
  let url := match url with Some s => s | None => "" end in
  let url := if startsWith "/" url then substr_1 url else url in
  if negb (includes "?" url)
  then (let url := if endsWith "/" url then substr_0_last url else url in
        url ++ "/")
  else url.

(** [addToUrl(oldUrl, appendix)]. *)
Definition addToUrl (oldUrl appendix : string) : string :=
  if negb (includes "?" oldUrl)
  then oldUrl ++ appendix
  else replace "?" (appendix ++ "?") oldUrl.

End Urls.

(** ** Platform: the paths of moved and downloaded files *)

Module Platform.

Import Stdlib.Strings.Ascii JsString.

Local Open Scope string_scope.

(** In [moveFiles]:
    [movement.to.split("/").reverse().slice(1).reverse().join("/")]. *)
Definition dirURL (to : string) : string :=
  join "/" (rev (Js.slice_from (rev (split "/" to)) 1)).

(** In [moveFiles]: [movement.to.split("/").reverse()[0]] ([None] is
    [undefined]). *)
Definition newName (to : string) : option string :=
  rev (split "/" to) !! 0%nat.

(** In [downloadFiles]: the address the file is downloaded from,
    [serverUrl + "api/images/" + file.split("/").reverse()[0].split(".")[0] + "/"]. *)
Definition download_source (serverUrl file : string) : option string :=
  base ← rev (split "/" file) !! 0%nat;
  id ← split "." base !! 0%nat;
  Some (serverUrl ++ "api/images/" ++ id ++ "/").

(** In [downloadFiles]: the local path, [localDir + file]. *)
Definition download_target (localDir file : string) : string := localDir ++ file.

End Platform.


(** ** models/Album.ts: the getters on the album tree *)

Module AlbumTree.

Import Album.

Local Open Scope string_scope.

(** What the getter [parent] can give: [undefined], [null], or the
    instance with this id. *)
Inductive reference : Type :=
| Undefined
| Null
| Instance (id : Z).

(** What a lookup does with an id that is not registered: it throws, or
    it gives [undefined] or [null]. *)
Inductive unregistered : Type :=
| Fails (e : error)
| Gives_undefined
| Gives_null.

Section Getters.

Variable remote : Type.

Local Abbreviation M := (Album.M remote).

(** [get path()]: [(this.parent ? this.parent.path + "/" : "") + this.name].
    The getter [parent] is read once here; reading it again gives the
    same album. *)
Fixpoint path (fuel : nat) (id : Z) : M string :=
  match fuel with
  | O => diverge remote
  | S fuel =>
      this ← getById remote id;
      up ← parent remote id;
      match up return M string with
      | None => mret ("" ++ name this)
      | Some p => above ← path fuel p; mret ((above ++ "/") ++ name this)
      end
  end.

(** [album.parent !== null && album.parent.id == this.id], for the album
    [id] of the list. *)
Definition is_child_of (this : Z) (id : Z) : M bool :=
  up ← parent remote id;
  mret match up with
       | None => false
       | Some p => Z.eqb p this
       end.


(** [albums.filter(test)], where the test can throw. *)
Fixpoint filter_albums (test : Z → M bool) (albums : list Z) : M (list Z) :=
  match albums return M (list Z) with
  | [] => mret []
  | id :: albums =>
      keep ← test id;
      kept ← filter_albums test albums;
      mret (if keep : bool then id :: kept else kept)
  end.

(** [Album.meta.objects]: the registered albums. The registry is a
    finite map here, which does not keep the order in which the albums
    were registered: the list has every registered album once, in an
    order that is not the order of the source's array. *)
Definition meta_objects (st : app remote) : list Z :=
  (map_to_list (objects remote st)).*1.

(** [get children()]. *)
Definition children (this : Z) : M (list Z) :=
  λ st, filter_albums (is_child_of this) (meta_objects st) st.

(** Modelled from the spec: [Album.getById] (Model.ts is not among the
    sources) returns the registered instance. For an id that is not
    registered the specification has the lookup fail with NotFound, while
    [getOpenItem] of the sources tests the result of a lookup for
    truthiness; here the answer to an unregistered id is the parameter
    [lookup_unregistered], of which [Fails (NotFound id)] is the
    specification's. *)
Variable lookup_unregistered : Z → unregistered.

Definition getById_reference (id : Z) : M reference :=
  λ st, match objects remote st !! id with
        | Some _ => Some (Returned (Instance id), st)
        | None =>
            match lookup_unregistered id with
            | Fails e => Some (Thrown e, st)
            | Gives_undefined => Some (Returned Undefined, st)
            | Gives_null => Some (Returned Null, st)
            end
        end.

(** [get parent()] on the instance [album]:
    [this.parentID === null ? null : Album.getById(this.parentID)]. *)
Definition parent_reference (album : t) : M reference :=
  match parentID album with
  | None => mret Null
  | Some p => getById_reference p
  end.

(** [album.parent === undefined]. *)
Definition has_undefined_parent (album : Z * t) : M bool :=
  up ← parent_reference album.2;
  mret match up with
       | Undefined => true
       | Null => false
       | Instance _ => false
       end.

(** [instances.filter(test)] on the instances themselves, where the test
    can throw. *)
Fixpoint filter_instances (test : Z * t → M bool) (albums : list (Z * t))
    : M (list (Z * t)) :=
  match albums return M (list (Z * t)) with
  | [] => mret []
  | album :: albums =>
      keep ← test album;
      kept ← filter_instances test albums;
      mret (if keep : bool then album :: kept else kept)
  end.

(** [static get rootAlbums()]: the ids of the albums it lists. *)
Definition rootAlbums : M (list Z) :=
  kept ← (λ st, filter_instances has_undefined_parent
                  (map_to_list (objects remote st)) st);
  mret kept.*1.

(** The loop of [updateParents] with the limit of the engine on the
    length of an array written out: [ids.push(current.id)] throws a
    RangeError when [ids] already holds [limit] ids. The limit depends on
    the engine and on the memory it has; it is at most 2^32 - 1. *)
Fixpoint updateParents_loop_within (limit fuel : nat) (current : option Z)
    (ids : list Z) : M (list Z) :=
  match current with
  | None => mret ids
  | Some cur =>
      match fuel with
      | O => diverge remote
      | S fuel =>
          if (limit <=? List.length ids)%nat then throw remote RangeError
          else
            let ids := (ids ++ [cur])%list in
            resetData remote cur;;
            next ← parent remote cur;
            updateParents_loop_within limit fuel next ids
      end
  end.

(** [updateParents()] with that limit. *)
Definition updateParents_within (limit fuel : nat) (this : Z) : M unit :=
  ids ← updateParents_loop_within limit fuel (Some this) [];
  perform remote (LoadIds ids true).

End Getters.

(** Whether the album [id] is registered with parent [this]. *)
Definition child_of (objs : gmap Z t) (this id : Z) : bool :=
  match objs !! id with
  | Some a => match parentID a with Some p => Z.eqb p this | None => false end
  | None => false
  end.

(** Whether [rootAlbums] lists the album [a]: its parent id is not
    [null], is not registered, and the lookup of it gives [undefined]. *)
Definition listed_as_root (lookup_unregistered : Z → unregistered)
    (objs : gmap Z t) (a : t) : bool :=
  match parentID a with
  | None => false
  | Some p =>
      match objs !! p with
      | Some _ => false
      | None =>
          match lookup_unregistered p with
          | Gives_undefined => true
          | _ => false
          end
      end
  end.

(** No lookup that the getter [parent] makes for a registered album
    throws. *)
Definition parents_looked_up (lookup_unregistered : Z → unregistered)
    (objs : gmap Z t) : Prop :=
  ∀ id a p e, objs !! id = Some a → parentID a = Some p → objs !! p = None →
              lookup_unregistered p ≠ Fails e.

(** Every registered album has a parent that is [null] or registered. *)
Definition parents_registered (objs : gmap Z t) : Prop :=
  ∀ id a p, objs !! id = Some a → parentID a = Some p → is_Some (objs !! p).

(** The albums in [inside] are registered and each has a parent in
    [inside]: following parents from one of them never ends. *)
Definition parents_never_end (objs : gmap Z t) (inside : Z → Prop) : Prop :=
  ∀ id, inside id → ∃ a p, objs !! id = Some a ∧ parentID a = Some p ∧ inside p.

(** The parent chain of an album up to an album whose parent [missing]
    is not registered. *)
Inductive broken_chain (objs : gmap Z t) (missing : Z) : Z → list Z → Prop :=
| broken_here id a :
    objs !! id = Some a → parentID a = Some missing → objs !! missing = None →
    broken_chain objs missing id [id]
| broken_above id a p ids :
    objs !! id = Some a → parentID a = Some p →
    broken_chain objs missing p ids → broken_chain objs missing id (id :: ids).

End AlbumTree.


(** ** models/FileObject.ts: the orientation after a rotation *)

Module Rotation.

Local Open Scope Z_scope.

(** [enum RotateDirection]. *)
Inductive RotateDirection : Type := Clockwise | Anticlockwise.

(** [const orientations = [1, 6, 3, 8]]. *)
Definition orientations : list Z := [1; 6; 3; 8].

(** [const directions = { clockwise: 1, anticlockwise: -1 }]. *)
Definition directions (direction : RotateDirection) : Z :=
  match direction with Clockwise => 1 | Anticlockwise => -1 end.

(** [arr.indexOf(x)], counting from [i]: the first index, or -1. *)
Fixpoint indexOf_from (x : Z) (arr : list Z) (i : Z) : Z :=
  match arr with
  | [] => -1
  | y :: arr => if Z.eqb y x then i else indexOf_from x arr (i + 1)
  end.

Definition indexOf (x : Z) (arr : list Z) : Z := indexOf_from x arr 0.

(** [arr[k]] for an integer [k] ([None] is [undefined]). *)
Definition at_index (arr : list Z) (k : Z) : option Z :=
  if k <? 0 then None else arr !! Z.to_nat k.

(** In [rotate(direction)]:
    [orientations[(orientations.indexOf(this.orientation) + directions[direction] + 4) % 4]];
    [%] is the remainder that takes the sign of the dividend. *)
Definition newOrientation (orientation : Z) (direction : RotateDirection) : option Z :=
  at_index orientations
    (Z.rem (indexOf orientation orientations + directions direction + 4) 4).

End Rotation.



(** ** Further concrete containers, callbacks, registries and databases *)

Module MoreExamples.

Import Examples.

Local Open Scope Z_scope.

(** Container 7 with the first row of a listing of three rows cached. *)
Definition three_rows : list Z := [100; 101; 102].

Definition first_of_three : RootModel.contentsEntry :=
  {| RootModel.count := 3; RootModel.objectIds := [Some 100; None; None] |}.

(** A remote store that answers the request for the base roots with
    these rows, and one that cannot be reached. *)
Definition base_roots_of (rows : list Z) : option string → outcome RootModel.loaded :=
  λ _, Returned {| RootModel.data_count := Z.of_nat (length rows);
                   RootModel.data_objects := RootModel.Build_Model <$> rows |}.

Definition base_offline : option string → outcome RootModel.loaded :=
  λ _, Thrown (Detail "Network Error").

(** The class before any call of [getAbsoluteRoots]. *)
Definition unloaded : RootListing.statics :=
  {| RootListing.absoluteRoots := None; RootListing.base_requests := 0 |}.

(** Only [progress(g)] was called on the returned promise. *)
Definition after_only : Utils.handlers :=
  Utils.progress_register
    {| Utils.onbeforeprogress := false; Utils.onafterprogress := false |} false.

(** A step that calls [resolve] twice. *)
Definition resolve_twice : Utils.callback string (list string) error unit :=
  λ it accumulator w,
    ([Utils.Resolve (accumulator ++ [it]); Utils.Resolve accumulator], w).

(** A database that records every link except those of file 12, which it
    rejects. *)
Definition refuse_12 : Z → Z → list (Z * Z) → outcome unit * list (Z * Z) :=
  λ album file links,
    if file =? 12 then (Thrown (Detail "Already in album."), links)
    else (Returned tt, links ++ [(album, file)]).

(** Albums 5 and 6, each registered as the parent of the other. *)
Definition looped : gmap Z Album.t :=
  list_to_map [(5, album_named "Inside" (Some 6) 1);
               (6, album_named "Outside" (Some 5) 1)].

Definition looped_app : Album.app (list (Z * Z)) :=
  {| Album.objects := looped; Album.database := []; Album.effects := [] |}.

(** The root album 1, its child 2, and album 7, whose parent 99 is not
    registered. *)
Definition mixed : gmap Z Album.t :=
  list_to_map [(1, album_named "Holidays" None 9);
               (2, album_named "2019" (Some 1) 5);
               (7, album_named "Trips" (Some 99) 2)].

Definition mixed_app : Album.app (list (Z * Z)) :=
  {| Album.objects := mixed; Album.database := []; Album.effects := [] |}.

(** Album 8 in album 7, whose parent 99 is not registered. *)
Definition orphaned : gmap Z Album.t :=
  list_to_map [(7, album_named "Trips" (Some 99) 2);
               (8, album_named "Rome" (Some 7) 2)].

Definition orphaned_app : Album.app (list (Z * Z)) :=
  {| Album.objects := orphaned; Album.database := []; Album.effects := [] |}.

End MoreExamples.


(** * Properties *)

(** ** [Array.prototype.slice] on non-negative indices *)

Section SliceFacts.

Context {A : Type}.
Implicit Types (arr : list A) (s e : Z).

Lemma slice_window arr s e :
  (0 ≤ s ≤ e)%Z →
  Js.slice arr s e = take (Z.to_nat (e - s)) (drop (Z.to_nat s) arr).
Proof.
  intros Hse. unfold Js.slice, Js.relative_index.
  destruct (Z.ltb_spec s 0) as [?|_]; [lia|].
  destruct (Z.ltb_spec e 0) as [?|_]; [lia|].
  set (len := Z.of_nat (length arr)).
  destruct (Z.le_gt_cases s len) as [Hs|Hs].
  - rewrite (Z.min_l s len) by lia.
    destruct (Z.le_gt_cases e len) as [He|He].
    + by rewrite (Z.min_l e len) by lia.
    + rewrite (Z.min_r e len) by lia.
      rewrite !take_ge; [done | |]; rewrite length_drop; lia.
  - rewrite (Z.min_r s len), (Z.min_r e len) by lia.
    rewrite (drop_ge arr (Z.to_nat s)) by lia.
    rewrite Z.sub_diag. simpl. by rewrite take_nil.
Qed.

Lemma slice_prefix arr s :
  (0 ≤ s)%Z → Js.slice arr 0 s = take (Z.to_nat s) arr.
Proof.
  intros Hs. rewrite slice_window by lia.
  by rewrite Z.sub_0_r.
Qed.

Lemma slice_from_suffix arr e :
  (0 ≤ e)%Z → Js.slice_from arr e = drop (Z.to_nat e) arr.
Proof.
  intros He. unfold Js.slice_from.
  destruct (Z.le_gt_cases e (Z.of_nat (length arr))) as [Hle|Hgt].
  - rewrite slice_window by lia.
    apply take_ge. rewrite length_drop. lia.
  - unfold Js.slice, Js.relative_index.
    destruct (Z.ltb_spec e 0) as [?|_]; [lia|].
    destruct (Z.ltb_spec (Z.of_nat (length arr)) 0) as [?|_]; [lia|].
    rewrite (Z.min_r e) by lia. rewrite Z.min_id, Z.sub_diag. simpl.
    rewrite take_0. symmetry. apply drop_ge. lia.
Qed.

(** A page spliced into an array: what [slice(0, s).concat(new.concat(
    slice(e)))] holds, on natural indices. *)
Lemma splice_length (old new : list A) (s e : nat) :
  s ≤ e → s ≤ length old →
  length new = Nat.min e (length old) - s →
  length (take s old ++ new ++ drop e old) = length old.
Proof.
  intros Hse Hs Hn. rewrite !length_app, length_take, length_drop. lia.
Qed.

Lemma splice_lookup_outside (old new : list A) (s e i : nat) :
  s ≤ e → s ≤ length old →
  length new = Nat.min e (length old) - s →
  i < s ∨ e ≤ i →
  (take s old ++ new ++ drop e old) !! i = old !! i.
Proof.
  intros Hse Hs Hn [Hi|Hi].
  - rewrite lookup_app_l by (rewrite length_take; lia).
    by rewrite lookup_take_lt.
  - destruct (decide (e ≤ length old)) as [He|He].
    + rewrite lookup_app_r by (rewrite length_take; lia).
      rewrite lookup_app_r by (rewrite length_take; lia).
      rewrite lookup_drop, length_take. f_equal. lia.
    + rewrite (lookup_ge_None_2 old) by lia.
      apply lookup_ge_None_2. rewrite splice_length by done. lia.
Qed.

Lemma splice_lookup_inside (old new : list A) (s e j : nat) :
  s ≤ length old →
  (take s old ++ new ++ drop e old) !! (s + j) = (new ++ drop e old) !! j.
Proof.
  intros Hs. rewrite lookup_app_r by (rewrite length_take; lia).
  rewrite length_take. f_equal. lia.
Qed.

Lemma splice_window (old new : list A) (s e : nat) :
  s ≤ e → s ≤ length old →
  length new = Nat.min e (length old) - s →
  take (e - s) (drop s (take s old ++ new ++ drop e old)) = new.
Proof.
  intros Hse Hs Hn.
  rewrite drop_app_length' by (rewrite length_take; lia).
  destruct (decide (e ≤ length old)) as [He|He].
  - rewrite take_app_length'; [done | lia].
  - rewrite (drop_ge old) by lia. rewrite app_nil_r.
    apply take_ge. lia.
Qed.

End SliceFacts.

(** ** The windowed content cache *)

Module RootModelFacts.

Import RootModel.

Local Open Scope Z_scope.

Section Cache.

Variable meta : rootModelMeta.
Variable loadFiltered : request → outcome loaded.

Local Abbreviation getContentObjects := (getContentObjects meta loadFiltered).
Local Abbreviation getRoots := (getRoots meta loadFiltered).

(** The three ways through [getContentObjects]. *)
Lemma served_from_cache st page pageSize searchQuery existing :
  contents (this st) !! Js.or_null searchQuery = Some existing →
  (0 <? count existing) && (count existing <=? (page - 1) * pageSize) = false →
  Js.every is_known
    (Js.slice (objectIds existing) ((page - 1) * pageSize) (page * pageSize)) = true →
  getContentObjects page pageSize searchQuery st
  = (Returned {| set_count := Some (count existing);
                 set_objectIds := Js.slice (objectIds existing)
                                    ((page - 1) * pageSize) (page * pageSize) |}, st).
Proof.
  intros Hget Hguard Hall. unfold RootModel.getContentObjects.
  unfold mbind, M_bind, get_this. rewrite Hget, Hguard, Hall. done.
Qed.

Lemma throws_when_beyond_count st page pageSize searchQuery existing :
  contents (this st) !! Js.or_null searchQuery = Some existing →
  (0 <? count existing) && (count existing <=? (page - 1) * pageSize) = true →
  getContentObjects page pageSize searchQuery st
  = (Thrown (Detail "Invalid page."), st).
Proof.
  intros Hget Hguard. unfold RootModel.getContentObjects.
  unfold mbind, M_bind, get_this. rewrite Hget, Hguard. done.
Qed.

Lemma goes_to_load st page pageSize searchQuery :
  match contents (this st) !! Js.or_null searchQuery with
  | None => True
  | Some existing =>
      (0 <? count existing) && (count existing <=? (page - 1) * pageSize) = false ∧
      Js.every is_known
        (Js.slice (objectIds existing) ((page - 1) * pageSize) (page * pageSize)) = false
  end →
  getContentObjects page pageSize searchQuery st
  = load_contents meta loadFiltered (this st)
      (contents (this st) !! Js.or_null searchQuery)
      page pageSize (Js.or_null searchQuery) st.
Proof.
  intros Hmiss. unfold RootModel.getContentObjects.
  unfold mbind at 1, M_bind at 1, get_this.
  destruct (contents (this st) !! Js.or_null searchQuery) as [existing|]; [|done].
  destruct Hmiss as [-> ->]. done.
Qed.

(** A successful load: the entry that is stored and the value returned. *)
Lemma load_contents_returned st existing page pageSize k d oldIds :
  loadFiltered (contents_request meta (this st) page pageSize k) = Returned d →
  match existing with
  | Some e => oldIds = objectIds e
  | None => 0 ≤ data_count d < Js.array_length_limit
            ∧ oldIds = replicate (Z.to_nat (data_count d)) None
  end →
  load_contents meta loadFiltered (this st) existing page pageSize k st
  = (Returned {| set_count := Some (data_count d);
                 set_objectIds := ids_of (data_objects d) |},
     stored st (contents_request meta (this st) page pageSize k) k
       {| count := data_count d;
          objectIds := Js.slice oldIds 0 ((page - 1) * pageSize)
                         ++ (ids_of (data_objects d)
                               ++ Js.slice_from oldIds (page * pageSize)) |}).
Proof.
  intros Hload Hold. unfold load_contents.
  unfold mbind at 1, M_bind at 1, await_loadFiltered. rewrite Hload.
  destruct existing as [e|].
  - subst oldIds. reflexivity.
  - destruct Hold as [[H0 Hlim] ->].
    unfold mbind at 1, M_bind at 1, new_Array_fill_null.
    destruct (Z.leb_spec 0 (data_count d)) as [_|?]; [|lia].
    destruct (Z.ltb_spec (data_count d) Js.array_length_limit) as [_|?]; [|lia].
    reflexivity.
Qed.

Lemma every_known_ids_of (objects : list Model) :
  Js.every is_known (ids_of objects) = true.
Proof.
  unfold Js.every, ids_of. induction objects as [|o objects IH]; [done|].
  simpl. exact IH.
Qed.

Lemma page_bounds page pageSize :
  1 ≤ page → 1 ≤ pageSize →
  0 ≤ (page - 1) * pageSize ∧ page * pageSize = (page - 1) * pageSize + pageSize.
Proof. intros. split; [nia | ring]. Qed.

(** Splicing a page that obeys [paged] into an array of the remote
    count's length. *)
Lemma merged_page (oldIds : list (option Z)) page pageSize d :
  paged page pageSize d →
  Z.of_nat (length oldIds) = data_count d →
  let allObjectIds :=
    Js.slice oldIds 0 ((page - 1) * pageSize)
      ++ (ids_of (data_objects d) ++ Js.slice_from oldIds (page * pageSize)) in
  length allObjectIds = length oldIds
  ∧ Js.slice allObjectIds ((page - 1) * pageSize) (page * pageSize)
    = ids_of (data_objects d)
  ∧ (∀ i : nat,
       Z.of_nat i < (page - 1) * pageSize ∨ page * pageSize ≤ Z.of_nat i →
       allObjectIds !! i = oldIds !! i)
  ∧ (∀ j : nat,
       (j < length (data_objects d))%nat →
       allObjectIds !! (Z.to_nat ((page - 1) * pageSize) + j)%nat
       = ids_of (data_objects d) !! j).
Proof.
  intros (Hpage & Hsize & Hcount & Hvalid & Hlen) Hold. unfold page_start in *.
  destruct (page_bounds page pageSize Hpage Hsize) as [Hs He].
  set (s := (page - 1) * pageSize) in *. set (e := page * pageSize) in *.
  assert (Hnew : length (ids_of (data_objects d))
                 = (Nat.min (Z.to_nat e) (length oldIds) - Z.to_nat s)%nat).
  { unfold ids_of. rewrite length_fmap. lia. }
  assert (Hle : (Z.to_nat s ≤ Z.to_nat e)%nat) by lia.
  assert (Hin : (Z.to_nat s ≤ length oldIds)%nat) by lia.
  cbv zeta. rewrite slice_prefix, slice_from_suffix by lia.
  split; [by apply splice_length|].
  split.
  { rewrite slice_window by lia.
    replace (Z.to_nat (e - s)) with (Z.to_nat e - Z.to_nat s)%nat by lia.
    by apply splice_window. }
  split.
  - intros i Hi. apply splice_lookup_outside; [done..|lia].
  - intros j Hj. rewrite splice_lookup_inside by done.
    apply lookup_app_l. unfold ids_of. by rewrite length_fmap.
Qed.

(** After a successful load the same page is served from the cache. *)
Lemma served_after_load st page pageSize searchQuery oldIds d r :
  paged page pageSize d →
  Z.of_nat (length oldIds) = data_count d →
  let k := Js.or_null searchQuery in
  let st1 := stored st r k
    {| count := data_count d;
       objectIds := Js.slice oldIds 0 ((page - 1) * pageSize)
                      ++ (ids_of (data_objects d)
                            ++ Js.slice_from oldIds (page * pageSize)) |} in
  getContentObjects page pageSize searchQuery st1
  = (Returned {| set_count := Some (data_count d);
                 set_objectIds := ids_of (data_objects d) |}, st1).
Proof.
  intros Hpaged Hold k st1.
  destruct (merged_page oldIds page pageSize d Hpaged Hold) as (_ & Hslice & _).
  cbv zeta in Hslice.
  rewrite (served_from_cache st1 page pageSize searchQuery
             {| count := data_count d;
                objectIds := Js.slice oldIds 0 ((page - 1) * pageSize)
                               ++ (ids_of (data_objects d)
                                     ++ Js.slice_from oldIds (page * pageSize)) |}).
  - cbn [count objectIds]. by rewrite Hslice.
  - subst st1 k. cbn [stored this contents]. apply lookup_insert_eq.
  - cbn [count objectIds]. destruct Hpaged as (_ & _ & _ & Hvalid & _). unfold page_start in Hvalid.
    apply andb_false_iff.
    destruct Hvalid as [Hlt|[H0 _]].
    + right. apply Z.leb_gt. exact Hlt.
    + left. rewrite H0. reflexivity.
  - cbn [count objectIds]. rewrite Hslice. apply every_known_ids_of.
Qed.

(** C1 (amended). A cached page is served without a remote call when all
    the slots of its slice are known and the page does not start at or
    beyond a positive cached count. Consequently, when the remote store
    answers the request for a page with that page ([paged]) and the cached
    sequence, if there is one, has the length of the remote count, a second
    call with the same arguments has the outcome of the first call (the
    same result, or the same error) and issues no remote call, and the
    first call issues at most one: exactly one, returning the loaded page,
    when it finds no cached entry or an entry that passes the invalid-page
    guard and has an unknown slot in the range of the page. *)
Theorem getContentObjects_cached_idempotent :
  (∀ st page pageSize searchQuery existing,
     contents (this st) !! Js.or_null searchQuery = Some existing →
     ¬ (0 < count existing ∧ count existing ≤ (page - 1) * pageSize) →
     Js.every is_known
       (Js.slice (objectIds existing) ((page - 1) * pageSize) (page * pageSize)) = true →
     getContentObjects page pageSize searchQuery st
     = (Returned {| set_count := Some (count existing);
                    set_objectIds := Js.slice (objectIds existing)
                                       ((page - 1) * pageSize) (page * pageSize) |}, st))
  ∧
  (∀ st page pageSize searchQuery d,
     let fetch := contents_request meta (this st) page pageSize (Js.or_null searchQuery) in
     loadFiltered fetch = Returned d →
     paged page pageSize d →
     (∀ existing, contents (this st) !! Js.or_null searchQuery = Some existing →
                  Z.of_nat (length (objectIds existing)) = data_count d) →
     ∃ r st1,
       getContentObjects page pageSize searchQuery st = (r, st1)
       ∧ getContentObjects page pageSize searchQuery st1 = (r, st1)
       ∧ (requests st1 = requests st ∨ requests st1 = requests st ++ [fetch])
       ∧ (match contents (this st) !! Js.or_null searchQuery with
          | None => True
          | Some existing =>
              (0 <? count existing) && (count existing <=? (page - 1) * pageSize) = false
              ∧ Js.every is_known
                  (Js.slice (objectIds existing)
                     ((page - 1) * pageSize) (page * pageSize)) = false
          end →
          requests st1 = requests st ++ [fetch]
          ∧ r = Returned {| set_count := Some (data_count d);
                            set_objectIds := ids_of (data_objects d) |})).
Proof.
  split.
  - intros st page pageSize searchQuery existing Hget Hvalid Hknown.
    apply served_from_cache; [done| |done].
    apply andb_false_iff.
    destruct (Z.ltb_spec 0 (count existing)) as [Hpos|_]; [|by left].
    right. apply Z.leb_gt. lia.
  - intros st page pageSize searchQuery d fetch Hload Hpaged Hlen.
    assert (Hmiss : ∀ oldIds,
      match contents (this st) !! Js.or_null searchQuery with
      | Some e => oldIds = objectIds e
      | None => 0 ≤ data_count d < Js.array_length_limit
                ∧ oldIds = replicate (Z.to_nat (data_count d)) None
      end →
      Z.of_nat (length oldIds) = data_count d).
    { intros oldIds Hold.
      destruct (contents (this st) !! Js.or_null searchQuery) as [e|].
      - subst oldIds. by apply Hlen.
      - destruct Hold as [? ->]. rewrite length_replicate. lia. }
    assert (Hfetch : ∃ oldIds,
      match contents (this st) !! Js.or_null searchQuery with
      | Some e => oldIds = objectIds e
      | None => 0 ≤ data_count d < Js.array_length_limit
                ∧ oldIds = replicate (Z.to_nat (data_count d)) None
      end).
    { destruct (contents (this st) !! Js.or_null searchQuery) as [e|]; [by eexists|].
      eexists. split; [|done]. by destruct Hpaged as (_ & _ & ? & _). }
    destruct Hfetch as [oldIds Hold].
    assert (Hafter : match contents (this st) !! Js.or_null searchQuery with
      | None => True
      | Some existing =>
          (0 <? count existing) && (count existing <=? (page - 1) * pageSize) = false
          ∧ Js.every is_known
              (Js.slice (objectIds existing)
                 ((page - 1) * pageSize) (page * pageSize)) = false
      end →
      ∃ st1,
        getContentObjects page pageSize searchQuery st
        = (Returned {| set_count := Some (data_count d);
                       set_objectIds := ids_of (data_objects d) |}, st1)
        ∧ getContentObjects page pageSize searchQuery st1
          = (Returned {| set_count := Some (data_count d);
                         set_objectIds := ids_of (data_objects d) |}, st1)
        ∧ requests st1 = requests st ++ [fetch]).
    { intros Hm. eexists. split; [|split].
      - rewrite goes_to_load by done.
        by apply (load_contents_returned st _ page pageSize _ d oldIds).
      - apply served_after_load; [done|by apply Hmiss].
      - reflexivity. }
    destruct (contents (this st) !! Js.or_null searchQuery) as [existing|] eqn:Hget.
    + destruct ((0 <? count existing) && (count existing <=? (page - 1) * pageSize))
        eqn:Hguard.
      { exists (Thrown (Detail "Invalid page.")), st.
        rewrite (throws_when_beyond_count st _ _ _ existing) by done.
        split; [done|]. split; [done|]. split; [by left|]. by intros [? _]. }
      destruct (Js.every is_known
                  (Js.slice (objectIds existing)
                     ((page - 1) * pageSize) (page * pageSize))) eqn:Hknown.
      { eexists _, st.
        rewrite (served_from_cache st _ _ _ existing) by done.
        split; [done|]. split; [done|]. split; [by left|]. by intros [_ ?]. }
      destruct (Hafter (conj eq_refl eq_refl)) as (st1 & H1 & H2 & Hreq).
      eexists _, st1.
      split; [exact H1|]. split; [exact H2|]. split; [by right|done].
    + destruct (Hafter I) as (st1 & H1 & H2 & Hreq).
      eexists _, st1.
      split; [exact H1|]. split; [exact H2|]. split; [by right|done].
Qed.

(** C2 (amended). With a cached entry whose count is positive, a page that
    starts at or beyond the count makes [getContentObjects] throw
    [{ detail: "Invalid page." }], with no remote call and the cache
    untouched. *)
Theorem getContentObjects_invalid_page st page pageSize searchQuery existing :
  contents (this st) !! Js.or_null searchQuery = Some existing →
  0 < count existing →
  (page - 1) * pageSize >= count existing →
  getContentObjects page pageSize searchQuery st
  = (Thrown (Detail "Invalid page."), st).
Proof.
  intros Hget Hpos Hbeyond. apply (throws_when_beyond_count st _ _ _ existing Hget).
  apply andb_true_iff. split; [by apply Z.ltb_lt | apply Z.leb_le; lia].
Qed.

(** C3. With [count = 25] and all 25 slots known, page 3 of size 10 is the
    five ids of slots 20 to 24, in order, and page 4 is an invalid page. *)
Theorem getContentObjects_pagination_boundary st searchQuery (ids : list Z) :
  length ids = 25%nat →
  contents (this st) !! Js.or_null searchQuery
  = Some {| count := 25; objectIds := Some <$> ids |} →
  getContentObjects 3 10 searchQuery st
  = (Returned {| set_count := Some 25; set_objectIds := Some <$> drop 20 ids |}, st)
  ∧ length (drop 20 ids) = 5%nat
  ∧ getContentObjects 4 10 searchQuery st = (Thrown (Detail "Invalid page."), st).
Proof.
  intros Hlen Hget.
  assert (Hslice : Js.slice (Some <$> ids) ((3 - 1) * 10) (3 * 10) = Some <$> drop 20 ids).
  { rewrite slice_window by lia.
    change (Z.to_nat (3 * 10 - (3 - 1) * 10)) with 10%nat.
    change (Z.to_nat ((3 - 1) * 10)) with 20%nat.
    rewrite <- fmap_drop. apply take_ge.
    rewrite length_fmap, length_drop. lia. }
  split; [|split].
  - rewrite (served_from_cache st 3 10 searchQuery _ Hget); cbn [count objectIds].
    + by rewrite Hslice.
    + reflexivity.
    + rewrite Hslice. unfold Js.every. clear. induction (drop 20 ids); [done|]. done.
  - rewrite length_drop. lia.
  - by apply (throws_when_beyond_count st 4 10 searchQuery _ Hget).
Qed.

(** C4. Against a remote store that answers page requests with pages
    ([paged]): the first load for a search key stores a sequence whose
    length is the count; and on an entry whose length is its count, with
    the remote count unchanged, a call for any page keeps the count and
    the length and leaves every slot outside that page's range as it was,
    while a call that loads writes the loaded ids from the first slot of
    the range on. *)
Theorem getContentObjects_merge_invariant :
  (∀ st page pageSize searchQuery d,
     contents (this st) !! Js.or_null searchQuery = None →
     loadFiltered (contents_request meta (this st) page pageSize (Js.or_null searchQuery))
     = Returned d →
     paged page pageSize d →
     ∃ st1 e,
       getContentObjects page pageSize searchQuery st
       = (Returned {| set_count := Some (data_count d);
                      set_objectIds := ids_of (data_objects d) |}, st1)
       ∧ contents (this st1) !! Js.or_null searchQuery = Some e
       ∧ count e = data_count d
       ∧ Z.of_nat (length (objectIds e)) = count e)
  ∧
  (∀ st page pageSize searchQuery existing d,
     let fetch := contents_request meta (this st) page pageSize (Js.or_null searchQuery) in
     contents (this st) !! Js.or_null searchQuery = Some existing →
     Z.of_nat (length (objectIds existing)) = count existing →
     loadFiltered fetch = Returned d →
     data_count d = count existing →
     paged page pageSize d →
     ∃ r st1 e,
       getContentObjects page pageSize searchQuery st = (r, st1)
       ∧ contents (this st1) !! Js.or_null searchQuery = Some e
       ∧ count e = count existing
       ∧ Z.of_nat (length (objectIds e)) = count e
       ∧ (∀ i : nat,
            Z.of_nat i < (page - 1) * pageSize ∨ page * pageSize ≤ Z.of_nat i →
            objectIds e !! i = objectIds existing !! i)
       ∧ (Js.every is_known
            (Js.slice (objectIds existing) ((page - 1) * pageSize) (page * pageSize))
          = false →
          requests st1 = requests st ++ [fetch]
          ∧ ∀ j : nat,
              (j < length (data_objects d))%nat →
              objectIds e !! (Z.to_nat ((page - 1) * pageSize) + j)%nat
              = ids_of (data_objects d) !! j)).
Proof.
  split.
  - intros st page pageSize searchQuery d Hget Hload Hpaged.
    assert (Hcount : 0 ≤ data_count d < Js.array_length_limit)
      by (by destruct Hpaged as (_ & _ & ? & _)).
    assert (Hold : Z.of_nat (length (replicate (Z.to_nat (data_count d)) (@None Z)))
                   = data_count d) by (rewrite length_replicate; lia).
    destruct (merged_page _ page pageSize d Hpaged Hold) as (Hlen & _).
    cbv zeta in Hlen.
    eexists _, _. split; [|split; [|split]].
    + rewrite goes_to_load by (by rewrite Hget). rewrite Hget.
      by apply (load_contents_returned st None page pageSize _ d
                  (replicate (Z.to_nat (data_count d)) None)).
    + cbn [stored this contents]. apply lookup_insert_eq.
    + reflexivity.
    + cbn [count objectIds]. rewrite Hlen. exact Hold.
  - intros st page pageSize searchQuery existing d fetch Hget Hinv Hload Hsame Hpaged.
    assert (Hold : Z.of_nat (length (objectIds existing)) = data_count d) by lia.
    destruct (merged_page _ page pageSize d Hpaged Hold) as (Hlen & _ & Hout & Hin).
    cbv zeta in Hlen, Hout, Hin.
    assert (Hguard : (0 <? count existing) && (count existing <=? (page - 1) * pageSize)
                     = false).
    { destruct Hpaged as (_ & _ & _ & Hvalid & _). unfold page_start in Hvalid.
      apply andb_false_iff. destruct Hvalid as [Hlt|[H0 _]].
      - right. apply Z.leb_gt. lia.
      - left. apply Z.ltb_ge. lia. }
    destruct (Js.every is_known
                (Js.slice (objectIds existing) ((page - 1) * pageSize) (page * pageSize)))
      eqn:Hknown.
    + eexists _, st, existing.
      rewrite (served_from_cache st _ _ _ existing) by done.
      split; [done|]. split; [done|]. split; [done|]. split; [done|].
      split; [done|]. intros [=].
    + eexists _, _, _. split; [|split; [|split; [|split; [|split]]]].
      * rewrite goes_to_load by (by rewrite Hget). rewrite Hget.
        by apply (load_contents_returned st (Some existing) page pageSize _ d
                    (objectIds existing)).
      * cbn [stored this contents]. apply lookup_insert_eq.
      * cbn [count]. done.
      * cbn [count objectIds]. rewrite Hlen. lia.
      * cbn [objectIds]. exact Hout.
      * intros _. split; [reflexivity|]. cbn [objectIds]. exact Hin.
Qed.

Lemma search_field_or_null (searchQuery : option string) :
  search_field (Js.or_null searchQuery) = Js.or_null searchQuery.
Proof. by destruct searchQuery as [[|c s]|]. Qed.

(** [getContentObjects] only ever writes the entry of its own search key. *)
Lemma other_keys_untouched st page pageSize searchQuery :
  let st1 := (getContentObjects page pageSize searchQuery st).2 in
  roots (this st1) = roots (this st)
  ∧ this_id (this st1) = this_id (this st)
  ∧ ∀ k, k ≠ Js.or_null searchQuery →
         contents (this st1) !! k = contents (this st) !! k.
Proof.
  unfold RootModel.getContentObjects, load_contents.
  unfold mbind, M_bind, get_this, await_loadFiltered, set_contents,
    new_Array_fill_null, mret, M_ret, throw.
  destruct (contents (this st) !! Js.or_null searchQuery) as [existing|].
  - destruct ((0 <? count existing) && (count existing <=? (page - 1) * pageSize));
      [done|].
    destruct (Js.every is_known _); [done|].
    destruct (loadFiltered _) as [d|e]; [|done].
    cbn. split; [done|]. split; [done|]. intros k Hk. by rewrite lookup_insert_ne.
  - destruct (loadFiltered _) as [d|e]; [|done].
    destruct ((0 <=? data_count d) && (data_count d <? Js.array_length_limit)); [|done].
    cbn. split; [done|]. split; [done|]. intros k Hk. by rewrite lookup_insert_ne.
Qed.

(** C7. For a container type that has roots: the first [getRoots] call for
    a search key issues one unpaginated [loadFiltered] call with the roots
    filter parameter, the container's id and the search key, stores the
    ids it gets and returns them; a call for a key that has a stored list
    returns that list with no remote call, so every later call behaves
    so; and neither [getRoots] nor [getContentObjects] changes the roots
    or contents entry of any search key other than the one it is called
    with. *)
Theorem getRoots_cached_per_search_key :
  (∀ st searchQuery d,
     let fetch := {| req_class := ThisClass;
                     req_param := rootsFilterParam meta;
                     req_value := this_id (this st);
                     req_search := Js.or_null searchQuery;
                     req_page := None; req_page_size := None |} in
     let answer := Returned (Some {| set_count := None;
                                     set_objectIds := ids_of (data_objects d) |}) in
     hasRoots meta = true →
     roots (this st) !! Js.or_null searchQuery = None →
     loadFiltered fetch = Returned d →
     ∃ st1,
       getRoots searchQuery st = (answer, st1)
       ∧ requests st1 = requests st ++ [fetch]
       ∧ roots (this st1) = <[Js.or_null searchQuery := ids_of (data_objects d)]> (roots (this st))
       ∧ getRoots searchQuery st1 = (answer, st1))
  ∧
  (∀ st searchQuery ids,
     hasRoots meta = true →
     roots (this st) !! Js.or_null searchQuery = Some ids →
     getRoots searchQuery st
     = (Returned (Some {| set_count := None; set_objectIds := ids |}), st))
  ∧
  (∀ st searchQuery k,
     k ≠ Js.or_null searchQuery →
     let st1 := (getRoots searchQuery st).2 in
     roots (this st1) !! k = roots (this st) !! k
     ∧ contents (this st1) = contents (this st))
  ∧
  (∀ st page pageSize searchQuery k,
     k ≠ Js.or_null searchQuery →
     let st1 := (getContentObjects page pageSize searchQuery st).2 in
     contents (this st1) !! k = contents (this st) !! k
     ∧ roots (this st1) = roots (this st)).
Proof.
  assert (Hcached : ∀ st searchQuery ids,
    hasRoots meta = true →
    roots (this st) !! Js.or_null searchQuery = Some ids →
    getRoots searchQuery st
    = (Returned (Some {| set_count := None; set_objectIds := ids |}), st)).
  { intros st searchQuery ids Hhas Hget. unfold RootModel.getRoots.
    rewrite Hhas. cbn [negb]. unfold mbind, M_bind, get_this. by rewrite Hget. }
  split; [|split; [exact Hcached|split]].
  - intros st searchQuery d fetch answer Hhas Hget Hload.
    assert (Hfirst : getRoots searchQuery st
      = (answer,
         {| this := {| this_id := this_id (this st);
                       roots := <[Js.or_null searchQuery := ids_of (data_objects d)]>
                                  (roots (this st));
                       contents := contents (this st) |};
            requests := requests st ++ [fetch] |})).
    { unfold RootModel.getRoots. rewrite Hhas. cbn [negb].
      unfold mbind at 1, M_bind at 1, get_this. rewrite Hget.
      unfold mbind at 1, M_bind at 1, await_loadFiltered.
      rewrite search_field_or_null. fold fetch. rewrite Hload. reflexivity. }
    eexists. split; [exact Hfirst|]. split; [done|]. split; [done|].
    apply Hcached; [done|]. cbn [this roots]. apply lookup_insert_eq.
  - intros st searchQuery k Hk. unfold RootModel.getRoots.
    destruct (hasRoots meta); cbn [negb]; [|done].
    unfold mbind, M_bind, get_this, await_loadFiltered, set_roots, mret, M_ret.
    destruct (roots (this st) !! Js.or_null searchQuery) as [ids|]; [done|].
    destruct (loadFiltered _) as [d|e]; [|done].
    cbn. split; [|done]. by rewrite lookup_insert_ne.
  - intros st page pageSize searchQuery k Hk.
    destruct (other_keys_untouched st page pageSize searchQuery) as (Hr & _ & Hc).
    cbv zeta. split; [by apply Hc|exact Hr].
Qed.

End Cache.

End RootModelFacts.

(** ** The sequential pipeline *)

Module UtilsFacts.

Import Utils.

Section Pipeline.

Context {item data reason world : Type}.

Implicit Types (h : handlers) (cb : callback item data reason world)
  (st : state item data world) (p : promise data reason).

(** The [reduce] over [then] runs the links one after the other. *)
Lemma chain_run h total cb items first st :
  chain h total cb items first st
  = match first st with
    | (Fulfilled accumulator, st') => run h total cb items accumulator st'
    | (other, st') => (other, st')
    end.
Proof.
  revert first st. induction items as [|it items IH]; intros first st.
  - unfold chain. simpl. by destruct (first st) as [[| |] ?].
  - unfold chain in *. simpl. rewrite IH. unfold then_.
    destruct (first st) as [[|accumulator|r] st']; [done| |done].
    by destruct (link h total cb it accumulator st') as [[| |] ?].
Qed.

Lemma run_app h total cb items1 items2 accumulator st :
  run h total cb (items1 ++ items2) accumulator st
  = match run h total cb items1 accumulator st with
    | (Fulfilled result, st') => run h total cb items2 result st'
    | (other, st') => (other, st')
    end.
Proof.
  revert accumulator st. induction items1 as [|it items1 IH]; intros accumulator st.
  - done.
  - simpl. destruct (link h total cb it accumulator st) as [[|result|r] st']; [done| |done].
    apply IH.
Qed.

Lemma callback_calls_app (tr1 tr2 : list (event item data)) :
  callback_calls (tr1 ++ tr2) = callback_calls tr1 ++ callback_calls tr2.
Proof. apply omap_app. Qed.

Lemma settle_with_settled p (calls : list (settle data reason)) c :
  settle_with (settle_with p (settled [c])) (settled calls)
  = settle_with p (settled (c :: calls)).
Proof. destruct p, c; done. Qed.

(** The calls a callback makes: the first one settles the promise, none
    touches the world, and only "after" events are added. *)
Lemma calls_made h total it (calls : list (settle data reason)) p st :
  let after := fold_left (call h total it) calls (p, st) in
  after.1 = settle_with p (settled calls)
  ∧ env after.2 = env st
  ∧ callback_calls (trace after.2) = callback_calls (trace st).
Proof.
  revert p st. induction calls as [|c calls IH]; intros p st.
  - simpl. by destruct p.
  - cbn [fold_left]. destruct (call h total it (p, st) c) as [p' st'] eqn:Hcall.
    destruct (IH p' st') as (Hp & Henv & Htr). cbv zeta in *.
    rewrite Hp, Henv, Htr. clear IH Hp Henv Htr.
    destruct c as [d|r]; simpl in Hcall; injection Hcall as <- <-; cbn [env trace].
    + split; [by destruct p|]. split; [done|].
      rewrite callback_calls_app. destruct (onafterprogress h); simpl;
        by rewrite app_nil_r.
    + split; [by destruct p|]. done.
Qed.

(** One link: the callback is called once, with the item and the
    accumulator, on the current world. *)
Lemma link_called h total cb it accumulator st :
  let after := link h total cb it accumulator st in
  after.1 = settled (cb it accumulator (env st)).1
  ∧ env after.2 = (cb it accumulator (env st)).2
  ∧ callback_calls (trace after.2) = callback_calls (trace st) ++ [(it, accumulator)].
Proof.
  unfold link, new_Promise. cbn [env done trace].
  destruct (cb it accumulator (env st)) as [calls w].
  match goal with |- context [fold_left _ calls (Pending, ?s)] =>
    destruct (calls_made h total it calls Pending s) as (Hp & Henv & Htr) end.
  cbv zeta in *. rewrite Hp, Henv, Htr. cbn [fst snd env trace].
  split; [done|]. split; [done|].
  rewrite !callback_calls_app. destruct (onbeforeprogress h); simpl;
    by rewrite ?app_nil_r.
Qed.

(** The callback is called on a prefix of the items, in order, and on all
    of them when the chain fulfils. *)
Lemma run_called h total cb items accumulator st :
  let after := run h total cb items accumulator st in
  ∃ n, (callback_calls (trace after.2)).*1
       = (callback_calls (trace st)).*1 ++ take n items
       ∧ ∀ v, after.1 = Fulfilled v → n = length items.
Proof.
  revert accumulator st. induction items as [|it items IH]; intros accumulator st.
  - exists 0%nat. simpl. by rewrite app_nil_r.
  - simpl. destruct (link_called h total cb it accumulator st) as (Hp & _ & Htr).
    cbv zeta in *.
    destruct (link h total cb it accumulator st) as [[|result|r] st'];
      cbn [fst snd] in *.
    + exists 1%nat. rewrite Htr, fmap_app. simpl. rewrite take_0. split; [done|].
      intros v [=].
    + destruct (IH result st') as (n & Hn & Hfull). exists (S n).
      rewrite Hn, Htr, fmap_app. simpl. rewrite <- app_assoc. split; [done|].
      intros v Hv. f_equal. by apply (Hfull v).
    + exists 1%nat. rewrite Htr, fmap_app. simpl. rewrite take_0. split; [done|].
      intros v [=].
Qed.

(** One link of a promise-like callback with both handlers registered. *)
Lemma link_progress total cb it accumulator st :
  promise_like cb →
  link both_handlers total cb it accumulator st
  = (settled (cb it accumulator (env st)).1,
     {| done := match settled (cb it accumulator (env st)).1 with
                | Fulfilled _ => S (done st)
                | _ => done st
                end;
        trace := trace st
          ++ BeforeProgress {| ev_item := it; ev_result := accumulator;
                               doneCount := done st; totalCount := total |}
          :: Callback it accumulator
          :: match settled (cb it accumulator (env st)).1 with
             | Fulfilled result =>
                 [AfterProgress {| ev_item := it; ev_result := result;
                                   doneCount := S (done st); totalCount := total |}]
             | _ => []
             end;
        env := (cb it accumulator (env st)).2 |}).
Proof.
  intros Hlike. specialize (Hlike it accumulator (env st)).
  unfold link, new_Promise. cbn [env done trace both_handlers progress_register
    onbeforeprogress onafterprogress].
  destruct (cb it accumulator (env st)) as [[|[d|r] [|c calls]] w];
    cbn [fst snd length] in *; try lia; cbn; by rewrite <- ?app_assoc.
Qed.

Lemma run_progress total cb items accumulator st :
  promise_like cb →
  let after := run both_handlers total cb items accumulator st in
  let events := progress_events total cb items accumulator (done st) (env st) in
  trace after.2 = trace st ++ events
  ∧ (∀ v, after.1 = Fulfilled v →
          length (after_events events) = length items
          ∧ length (before_events events) = length items)
  ∧ (∀ r, after.1 = Rejected r →
          S (length (after_events events)) = length (before_events events)).
Proof.
  intros Hlike. revert accumulator st.
  induction items as [|it items IH]; intros accumulator st.
  - simpl. rewrite app_nil_r. split; [done|]. split; [done|]. intros r [=].
  - cbn [run progress_events]. rewrite link_progress by done.
    destruct (settled (cb it accumulator (env st)).1) as [|result|r0] eqn:Hstep.
    + cbn. split; [done|]. split; intros ? [=].
    + match goal with |- context [run _ _ _ _ _ ?s] =>
        destruct (IH result s) as (Htr & Hful & Hrej) end.
      cbn [done env trace] in Htr, Hful, Hrej. cbv zeta in *.
      rewrite Htr. rewrite <- app_assoc. cbn.
      split; [done|]. split.
      * intros v Hv. destruct (Hful v Hv) as [Ha Hb].
        split; f_equal; [exact Ha|exact Hb].
      * intros r Hr. f_equal. exact (Hrej r Hr).
    + cbn. split; [done|]. split; [intros ? [=]|]. done.
Qed.

(** The "before" events of a run, by position. *)
Lemma progress_events_before total cb items accumulator d w k e :
  before_events (progress_events total cb items accumulator d w) !! k = Some e →
  items !! k = Some (ev_item e)
  ∧ doneCount e = (d + k)%nat
  ∧ totalCount e = total
  ∧ callback_calls (progress_events total cb items accumulator d w) !! k
    = Some (ev_item e, ev_result e).
Proof.
  revert accumulator d w k. induction items as [|it items IH]; intros accumulator d w k.
  - done.
  - cbn [progress_events]. destruct k as [|k].
    + cbn. intros [= <-]. cbn. repeat split; lia.
    + destruct (settled (cb it accumulator w).1) as [|result|r]; [done| |done].
      cbn. intros He. destruct (IH _ _ _ _ He) as (? & ? & ? & ?).
      repeat split; [done|lia|done|done].
Qed.

(** The "after" events of a run, by position. *)
Lemma progress_events_after total cb items accumulator d w k e :
  after_events (progress_events total cb items accumulator d w) !! k = Some e →
  items !! k = Some (ev_item e)
  ∧ doneCount e = S (d + k)
  ∧ totalCount e = total.
Proof.
  revert accumulator d w k. induction items as [|it items IH]; intros accumulator d w k.
  - done.
  - cbn [progress_events].
    destruct (settled (cb it accumulator w).1) as [|result|r]; [done| |done].
    destruct k as [|k].
    + cbn. intros [= <-]. cbn. repeat split; lia.
    + cbn. intros He. destruct (IH _ _ _ _ He) as (? & ? & ?).
      repeat split; [done|lia|done].
Qed.

End Pipeline.

(** The appending step threads the accumulator through the items. *)
Lemma run_append_step {item reason world : Type} h total (items result : list item)
    (st : Utils.state item (list item) world) :
  let after := @run item (list item) reason world h total append_step items result st in
  after.1 = Fulfilled (result ++ items)
  ∧ callback_calls (trace after.2)
    = callback_calls (trace st) ++ imap (λ k it, (it, result ++ take k items)) items
  ∧ env after.2 = env st.
Proof.
  revert result st. induction items as [|it items IH]; intros result st.
  - simpl. by rewrite !app_nil_r.
  - cbn [run].
    destruct (@link_called item (list item) reason world h total append_step it result st)
      as (Hp & Henv & Htr).
    cbv zeta in *. cbn [append_step fst snd settled] in Hp, Henv.
    destruct (link h total append_step it result st) as [p st']. cbn [fst snd] in *.
    subst p. destruct (IH (result ++ [it]) st') as (Hp & Henv' & Htr').
    cbv zeta in *. rewrite Hp, Htr', Henv', Htr, Henv.
    split; [by rewrite <- app_assoc|]. split; [|done].
    rewrite <- app_assoc. f_equal. cbn [imap take]. rewrite app_nil_r.
    f_equal. apply imap_ext. intros k x _. cbn. by rewrite <- app_assoc.
Qed.

(** C5. [promiseChain] calls the callback on the items in list order, each
    at most once, and on all of them when the returned promise fulfils;
    the chain over [items1 ++ items2] is the chain over [items1] followed,
    only once that has fulfilled and from the accumulator and state it
    left, by the chain over [items2]; with the appending step the returned
    promise fulfils with the initial accumulator extended by the items in
    order, the k-th call receiving the first k items; and when the items
    before [b] have fulfilled and the callback for [b] rejects with [r],
    the returned promise rejects with [r] and the callback has been called
    for the items up to [b] and for no later one. *)
Theorem promiseChain_sequential_fail_fast :
  (∀ (item data reason world : Type) h (items : list item)
     (cb : callback item data reason world) result w,
     let after := promiseChain h items cb result w in
     ∃ n, (callback_calls (trace after.2)).*1 = take n items
          ∧ ∀ v, after.1 = Fulfilled v → n = length items)
  ∧
  (∀ (item data reason world : Type) h total
     (cb : callback item data reason world) items1 items2 result st,
     chain h total cb (items1 ++ items2) (Promise_resolve result) st
     = match chain h total cb items1 (Promise_resolve result) st with
       | (Fulfilled accumulator, st') =>
           chain h total cb items2 (Promise_resolve accumulator) st'
       | (other, st') => (other, st')
       end)
  ∧
  (∀ (item reason world : Type) h (items result : list item) (w : world),
     let after := promiseChain (reason := reason) h items append_step result w in
     after.1 = Fulfilled (result ++ items)
     ∧ callback_calls (trace after.2)
       = imap (λ k it, (it, result ++ take k items)) items
     ∧ env after.2 = w)
  ∧
  (∀ (item data reason world : Type) h (cb : callback item data reason world)
     pre b post result w accumulator st r,
     chain h (length (pre ++ b :: post)) cb pre (Promise_resolve result)
       {| done := 0; trace := []; env := w |}
     = (Fulfilled accumulator, st) →
     settled (cb b accumulator (env st)).1 = Rejected r →
     let after := promiseChain h (pre ++ b :: post) cb result w in
     after.1 = Rejected r
     ∧ (callback_calls (trace after.2)).*1 = pre ++ [b]).
Proof.
  split; [|split; [|split]].
  - intros item data reason world h items cb result w. unfold promiseChain.
    rewrite chain_run. cbn [Promise_resolve].
    apply (run_called h (length items) cb items result).
  - intros item data reason world h total cb items1 items2 result st.
    rewrite !chain_run. cbn [Promise_resolve]. rewrite run_app.
    destruct (run h total cb items1 result st) as [[|accumulator|r] st']; [done| |done].
    by rewrite chain_run.
  - intros item reason world h items result w. unfold promiseChain.
    rewrite chain_run. cbn [Promise_resolve].
    apply (run_append_step h (length items) items result).
  - intros item data reason world h cb pre b post result w accumulator st r Hpre Hrej.
    unfold promiseChain. rewrite chain_run in *. cbn [Promise_resolve] in *.
    rewrite run_app, Hpre. cbn [run].
    destruct (run_called h (length (pre ++ b :: post)) cb pre result
                {| done := 0; trace := []; env := w |}) as (n & Hn & Hfull).
    cbv zeta in *. rewrite Hpre in Hn, Hfull. cbn [fst snd trace] in Hn, Hfull.
    rewrite (Hfull accumulator eq_refl), firstn_all in Hn.
    destruct (link_called h (length (pre ++ b :: post)) cb b accumulator st)
      as (Hp & _ & Htr).
    cbv zeta in *. rewrite Hrej in Hp.
    destruct (link h (length (pre ++ b :: post)) cb b accumulator st) as [p st'].
    cbn [fst snd] in *. subst p. cbn [fst snd]. split; [done|].
    rewrite Htr, fmap_app, Hn. done.
Qed.


(** C10. On an empty list [promiseChain] returns a promise fulfilled with
    the initial accumulator; the callback is not called, no progress
    event fires, and nothing is done. *)
Theorem promiseChain_empty (item data reason world : Type) h
    (cb : callback item data reason world) (result : data) (w : world) :
  promiseChain h [] cb result w
  = (Fulfilled result, {| done := 0; trace := []; env := w |}).
Proof. reflexivity. Qed.

End UtilsFacts.

(** ** Adding files to an album and reloading its parent chain *)

Module AlbumFacts.

Import Album.

Section Albums.

Variable remote : Type.
Variable Database_create : Z → Z → remote → outcome unit * remote.

Local Abbreviation app := (app remote).
Local Abbreviation updateParents_loop := (updateParents_loop remote).
Local Abbreviation updateParents := (updateParents remote).
Local Abbreviation addFiles := (addFiles remote Database_create).
Local Abbreviation addFiles_callback := (addFiles_callback remote Database_create).
Local Abbreviation accepts := (accepts remote Database_create).
Local Abbreviation after_creates := (after_creates remote Database_create).

Lemma cleared_idemp (a : t) : cleared (cleared a) = cleared a.
Proof. done. Qed.

Lemma lookup_reset_all (ids : list Z) (objs : gmap Z t) (i : Z) :
  reset_all ids objs !! i
  = if decide (i ∈ ids) then cleared <$> objs !! i else objs !! i.
Proof.
  revert objs. induction ids as [|id ids IH]; intros objs.
  - rewrite decide_False by apply not_elem_of_nil. done.
  - change (reset_all (id :: ids) objs) with (reset_all ids (alter cleared id objs)).
    rewrite IH.
    destruct (decide (i = id)) as [->|Hne].
    + rewrite lookup_alter_eq.
      rewrite (decide_True (P := id ∈ id :: ids)) by (apply elem_of_cons; by left).
      case_decide; [|done]. destruct (objs !! id); simpl; [|done].
      by rewrite cleared_idemp.
    + rewrite lookup_alter_ne by done.
      case_decide as Hin.
      * rewrite decide_True; [done|]. apply elem_of_cons. by right.
      * rewrite decide_False; [done|]. rewrite elem_of_cons. tauto.
Qed.

(** Clearing the caches of an album leaves every parent chain in place. *)
Lemma parent_chain_alter (objs : gmap Z t) (i cur : Z) (ids : list Z) :
  parent_chain objs cur ids → parent_chain (alter cleared i objs) cur ids.
Proof.
  induction 1 as [id a Hget Hroot|id a p ids Hget Hp _ IH].
  - destruct (decide (i = id)) as [->|Hne].
    + apply (chain_root _ id (cleared a)); [|done].
      by rewrite lookup_alter_eq, Hget.
    + apply (chain_root _ id a); [|done]. by rewrite lookup_alter_ne.
  - destruct (decide (i = id)) as [->|Hne].
    + apply (chain_step _ id (cleared a) p); [|done|done].
      by rewrite lookup_alter_eq, Hget.
    + apply (chain_step _ id a p); [|done|done]. by rewrite lookup_alter_ne.
Qed.

Lemma parent_chain_registered (objs : gmap Z t) (cur : Z) (ids : list Z) :
  parent_chain objs cur ids → is_Some (objs !! cur).
Proof. destruct 1; eauto. Qed.

(** The loop walks the chain, resetting each album on it. *)
Lemma updateParents_loop_chain (chain : list Z) :
  ∀ (fuel : nat) (cur : Z) (ids : list Z) (st : app),
    parent_chain (objects remote st) cur chain →
    length chain ≤ fuel →
    updateParents_loop fuel (Some cur) ids st
    = Some (Returned (ids ++ chain),
            {| objects := reset_all chain (objects remote st);
               database := database remote st;
               effects := effects remote st ++ (ResetData <$> chain) |}).
Proof.
  induction chain as [|id chain IH]; intros fuel cur ids st Hchain Hfuel.
  - inversion Hchain.
  - destruct fuel as [|fuel]; [simpl in Hfuel; lia|].
    cbn [Album.updateParents_loop].
    unfold mbind at 1, M_bind at 1, resetData.
    unfold mbind at 1, M_bind at 1, parent.
    unfold mbind at 1, M_bind at 1, getById. cbn [objects].
    inversion Hchain as [id' a Hget Hroot|id' a p ids' Hget Hp Hrest]; subst.
    + rewrite lookup_alter_eq, Hget. cbn [fmap option_fmap option_map cleared parentID].
      rewrite Hroot. by destruct fuel.
    + rewrite lookup_alter_eq, Hget. cbn [fmap option_fmap option_map cleared parentID].
      rewrite Hp. unfold mbind at 1, M_bind at 1, getById. cbn [objects].
      pose proof (parent_chain_alter _ id _ _ Hrest) as Hrest'.
      destruct (parent_chain_registered _ _ _ Hrest') as [b Hb]. rewrite Hb.
      cbn [mret M_ret].
      rewrite (IH fuel p (ids ++ [id])
                 {| objects := alter cleared id (objects remote st);
                    database := database remote st;
                    effects := effects remote st ++ [ResetData id] |});
        [|exact Hrest'|simpl in Hfuel; lia].
      cbn [objects database effects fmap list_fmap].
      by rewrite <- !app_assoc.
Qed.

Lemma updateParents_chain (fuel : nat) (this : Z) (chain : list Z) (st : app) :
  parent_chain (objects remote st) this chain →
  length chain ≤ fuel →
  updateParents fuel this st
  = Some (Returned tt,
          {| objects := reset_all chain (objects remote st);
             database := database remote st;
             effects := effects remote st ++ (ResetData <$> chain)
                          ++ [LoadIds chain true] |}).
Proof.
  intros Hchain Hfuel. unfold Album.updateParents.
  unfold mbind, M_bind. rewrite (updateParents_loop_chain chain) by done.
  unfold perform. cbn. by rewrite <- app_assoc.
Qed.

(** The pipeline of [addFiles] against a database that accepts each link:
    the promise fulfils and each file has been sent to the database, in
    order. *)
Lemma addFiles_pipeline (fuel total : nat) (this : Z) (files : list Z)
    (ust : Utils.state Z unit app) :
  accepts this files (database remote (Utils.env ust)) →
  let after := Utils.run no_handlers total (addFiles_callback fuel this) files tt ust in
  after.1 = Utils.Fulfilled tt
  ∧ Utils.env after.2
    = {| objects := objects remote (Utils.env ust);
         database := after_creates this files (database remote (Utils.env ust));
         effects := effects remote (Utils.env ust) ++ (DatabaseCreate this <$> files) |}.
Proof.
  revert ust. induction files as [|file files IH]; intros ust Hacc.
  - cbn. rewrite app_nil_r. by destruct (Utils.env ust).
  - destruct Hacc as (db' & Hcreate & Hacc). cbn [Utils.run].
    destruct (UtilsFacts.link_called no_handlers total (addFiles_callback fuel this)
                file tt ust) as (Hp & Henv & _).
    cbv zeta in *.
    assert (Hcb : addFiles_callback fuel this file tt (Utils.env ust)
                  = ([Utils.Resolve tt],
                     {| objects := objects remote (Utils.env ust);
                        database := db';
                        effects := effects remote (Utils.env ust)
                                     ++ [DatabaseCreate this file] |})).
    { unfold Album.addFiles_callback, addFile, await_Database_create.
      unfold mbind, M_bind. rewrite Hcreate. reflexivity. }
    rewrite Hcb in Hp, Henv. cbn [fst snd Utils.settled] in Hp, Henv.
    destruct (Utils.link no_handlers total (addFiles_callback fuel this) file tt ust)
      as [p ust']. cbn [fst snd] in *. subst p.
    destruct (IH ust') as (Hp' & Henv'); [by rewrite Henv|].
    cbv zeta in *. rewrite Hp', Henv', Henv. cbn [objects database effects].
    split; [done|]. cbn [Album.after_creates fmap list_fmap]. rewrite Hcreate.
    cbn [snd]. by rewrite <- app_assoc.
Qed.

(** C8. For an album whose parent chain [chain] (the album, its parent,
    and so on up to a root album) is registered and ends, and with enough
    fuel for the walk: [updateParents] returns, resets the album and each
    of its ancestors, in that order, leaves every other album as it was,
    and asks for a reload of exactly those ids; [addFiles], against a
    database that accepts each link, sends the files to the database one
    after the other in list order through the pipeline, calling the
    callback once per file, and then runs [updateParents] once. *)
Theorem addFiles_updates_parent_chain :
  (∀ (fuel : nat) (this : Z) (chain : list Z) (st : app),
     parent_chain (objects remote st) this chain →
     length chain ≤ fuel →
     ∃ st',
       updateParents fuel this st = Some (Returned tt, st')
       ∧ effects remote st'
         = effects remote st ++ (ResetData <$> chain) ++ [LoadIds chain true]
       ∧ database remote st' = database remote st
       ∧ ∀ i, objects remote st' !! i
              = if decide (i ∈ chain)
                then cleared <$> objects remote st !! i
                else objects remote st !! i)
  ∧
  (∀ (fuel : nat) (this : Z) (files chain : list Z) (st : app),
     parent_chain (objects remote st) this chain →
     length chain ≤ fuel →
     accepts this files (database remote st) →
     ∃ st',
       addFiles fuel this files st = Some (Returned tt, st')
       ∧ effects remote st'
         = effects remote st ++ (DatabaseCreate this <$> files)
             ++ (ResetData <$> chain) ++ [LoadIds chain true]
       ∧ database remote st' = after_creates this files (database remote st)
       ∧ (∀ i, objects remote st' !! i
               = if decide (i ∈ chain)
                 then cleared <$> objects remote st !! i
                 else objects remote st !! i)
       ∧ (Utils.callback_calls
            (Utils.trace
               (Utils.promiseChain no_handlers files (addFiles_callback fuel this)
                  tt st).2)).*1
         = files).
Proof.
  split.
  - intros fuel this chain st Hchain Hfuel. eexists.
    split; [by apply updateParents_chain|].
    cbn [effects database objects]. split; [done|]. split; [done|].
    intros i. apply lookup_reset_all.
  - intros fuel this files chain st Hchain Hfuel Hacc.
    pose proof (addFiles_pipeline fuel (length files) this files
                  {| Utils.done := 0; Utils.trace := []; Utils.env := st |} Hacc)
      as [Hp Henv].
    cbv zeta in Hp, Henv. cbn [Utils.env] in Henv.
    assert (Hrun : Utils.promiseChain no_handlers files (addFiles_callback fuel this) tt st
                   = Utils.run no_handlers (length files) (addFiles_callback fuel this)
                       files tt {| Utils.done := 0; Utils.trace := []; Utils.env := st |}).
    { unfold Utils.promiseChain. by rewrite UtilsFacts.chain_run. }
    eexists. split; [|split; [|split; [|split]]].
    + unfold Album.addFiles. unfold mbind, M_bind, await_promiseChain.
      rewrite Hrun.
      destruct (Utils.run no_handlers (length files) (addFiles_callback fuel this)
                  files tt _) as [p ust]. cbn [fst snd] in *. subst p.
      rewrite Henv. apply updateParents_chain; done.
    + cbn [effects]. by rewrite <- app_assoc.
    + done.
    + intros i. cbn [objects]. apply lookup_reset_all.
    + rewrite Hrun.
      destruct (UtilsFacts.run_called no_handlers (length files)
                  (addFiles_callback fuel this) files tt
                  {| Utils.done := 0; Utils.trace := []; Utils.env := st |})
        as (n & Hn & Hfull).
      cbv zeta in *. rewrite Hn. cbn. rewrite (Hfull tt Hp). apply firstn_all.
Qed.

End Albums.

End AlbumFacts.

(** ** Serialising and deserialising a file's geotag *)

Module FileObjectFacts.

Import FileObject.

Section Geotag.

Variable coord : Type.

Implicit Types (st : store coord) (g : GeoTag coord) (w : wire coord).

(** Serialisation returns a wire object with the geotag's id and no
    modification flags. *)
Lemma serialize_some st g :
  area_loaded st g →
  ∃ w, serialize st (Some g) = Returned (Some w)
       ∧ w_id w = id g
       ∧ w_locationModified coord w = false
       ∧ w_areaModified coord w = false.
Proof.
  intros Hloaded. unfold serialize, FileObject.serialize.
  destruct (areaModified coord g) eqn:Harea.
  - unfold GeoTag_area. destruct (areaID coord g) as [a|] eqn:Ha.
    + destruct (Hloaded Harea a Ha) as [area ->].
      destruct (locationModified coord g); eexists; by repeat split.
    + destruct (locationModified coord g); eexists; by repeat split.
  - destruct (locationModified coord g); eexists; by repeat split.
Qed.

(** Deserialising a wire object without modification flags stores its id. *)
Lemma deserialize_some st w :
  w_locationModified coord w = false →
  w_areaModified coord w = false →
  ∃ st', deserialize st (Some w) = Returned st' ∧ geotagID st' = Some (w_id w).
Proof.
  intros Hloc Harea. unfold deserialize, FileObject.deserialize.
  cbn [addObject]. rewrite Hloc, Harea. eexists. split; [done|].
  cbn [geotagID FileObject.geotagID]. f_equal.
  by destruct (geotags coord st !! w_id w).
Qed.

(** C9. Serialising a geotag whose area, when the serialiser reads it, is
    registered gives a wire object carrying the geotag's id, and
    deserialising that wire object stores that id as the file's geotag
    id; a [null] geotag serialises to [null], and [null] deserialises to
    a [null] stored id. *)
Theorem geotag_round_trip :
  (∀ st g,
     area_loaded st g →
     ∃ w st',
       serialize st (Some g) = Returned (Some w)
       ∧ w_id w = id g
       ∧ deserialize st (Some w) = Returned st'
       ∧ geotagID st' = Some (id g))
  ∧
  (∀ st,
     serialize st None = Returned None
     ∧ ∃ st', deserialize st None = Returned st' ∧ geotagID st' = None).
Proof.
  split.
  - intros st g Hloaded.
    destruct (serialize_some st g Hloaded) as (w & Hser & Hid & Hloc & Harea).
    destruct (deserialize_some st w Hloc Harea) as (st' & Hde & Hstored).
    exists w, st'. by rewrite <- Hid.
  - intros st. split; [done|]. by eexists.
Qed.

End Geotag.

End FileObjectFacts.

(** ** The statements at concrete containers, runs and albums *)

Module Scenarios.

Import Examples.

Local Open Scope Z_scope.

(** The claim that every cached page with known slots is returned fails:
    with 25 known ids under a count of 25, the slice of page 4 is empty,
    so all its slots are known, and the call throws; and in a container
    whose remote listing shrank between loads, the ten slots of page 2 are
    known ids and the call throws all the same. *)
Lemma cached_slice_not_returned :
  (RootModel.contents (RootModel.this (cache_of full25)) !! Js.or_null None
   = Some full25
   ∧ Js.every RootModel.is_known
       (Js.slice (RootModel.objectIds full25) ((4 - 1) * 10) (4 * 10)) = true
   ∧ RootModel.getContentObjects album_meta offline 4 10 None (cache_of full25)
     = (Thrown (Detail "Invalid page."), cache_of full25))
  ∧
  (∃ e,
     RootModel.contents (RootModel.this after_shrink) !! Js.or_null None = Some e
     ∧ Js.slice (RootModel.objectIds e) ((2 - 1) * 10) (2 * 10)
       = Some <$> ids_from 115 10
     ∧ Js.every RootModel.is_known
         (Js.slice (RootModel.objectIds e) ((2 - 1) * 10) (2 * 10)) = true
     ∧ RootModel.getContentObjects album_meta (pages (ids_from 200 5)) 2 10 None
         after_shrink
       = (Thrown (Detail "Invalid page."), after_shrink)).
Proof.
  split.
  - vm_compute. by repeat split.
  - exists {| RootModel.count := 5;
              RootModel.objectIds := Some <$> (ids_from 200 5 ++ ids_from 110 20) |}.
    vm_compute. by repeat split.
Qed.

(** Why the second call is only promised not to load when the first load
    was answered and the cached sequence had the remote count's length:
    a page that the remote store does not answer is requested again, and
    so is a page loaded into a sequence that is longer than the listing
    has become (30 slots, 12 rows left: page 2 brings two ids and keeps
    eight unknown slots in its range). *)
Example page_requested_again :
  (let st1 := (RootModel.getContentObjects album_meta offline 2 10 None fresh).2 in
   let st2 := (RootModel.getContentObjects album_meta offline 2 10 None st1).2 in
   length (RootModel.requests st2) = 2%nat)
  ∧
  (let stale := cache_of {| RootModel.count := 30;
                            RootModel.objectIds :=
                              (Some <$> ids_from 100 10) ++ replicate 20 None |} in
   let st1 := (RootModel.getContentObjects album_meta (pages (ids_from 200 12))
                 2 10 None stale).2 in
   let st2 := (RootModel.getContentObjects album_meta (pages (ids_from 200 12))
                 2 10 None st1).2 in
   length (RootModel.requests st2) = 2%nat).
Proof. split; vm_compute; reflexivity. Qed.

Lemma paged_2_10_of_25 :
  RootModel.paged 2 10
    {| RootModel.data_count := 25;
       RootModel.data_objects := RootModel.Build_Model <$> ids_from 110 10 |}.
Proof.
  unfold RootModel.paged, RootModel.page_start, Js.array_length_limit. cbn.
  repeat split; lia.
Qed.

(** At concrete containers: page 3 of 25 known ids is served from the
    cache, and page 2 of a fresh container is loaded once and then served
    from the cache. *)
Lemma getContentObjects_cached_idempotent_witness :
  RootModel.getContentObjects album_meta offline 3 10 None (cache_of full25)
  = (Returned {| RootModel.set_count := Some 25;
                 RootModel.set_objectIds :=
                   Js.slice (RootModel.objectIds full25) ((3 - 1) * 10) (3 * 10) |},
     cache_of full25)
  ∧
  ∃ r st1,
    RootModel.getContentObjects album_meta (pages (ids_from 100 25)) 2 10 None fresh
    = (r, st1)
    ∧ RootModel.getContentObjects album_meta (pages (ids_from 100 25)) 2 10 None st1
      = (r, st1)
    ∧ RootModel.requests st1
      = [RootModel.contents_request album_meta (RootModel.this fresh) 2 10 None]
    ∧ r = Returned {| RootModel.set_count := Some 25;
                      RootModel.set_objectIds := Some <$> ids_from 110 10 |}.
Proof.
  split.
  - apply (proj1 (RootModelFacts.getContentObjects_cached_idempotent
                    album_meta offline)
             (cache_of full25) 3 10 None full25).
    + reflexivity.
    + cbn. lia.
    + vm_compute. reflexivity.
  - destruct (proj2 (RootModelFacts.getContentObjects_cached_idempotent
                       album_meta (pages (ids_from 100 25)))
                fresh 2 10 None
                {| RootModel.data_count := 25;
                   RootModel.data_objects := RootModel.Build_Model <$> ids_from 110 10 |})
      as (r & st1 & H1 & H2 & _ & Hmiss).
    + vm_compute. reflexivity.
    + exact paged_2_10_of_25.
    + intros existing. vm_compute. discriminate.
    + exists r, st1. split; [exact H1|]. split; [exact H2|].
      destruct (Hmiss I) as [Hreq Hr]. split; [exact Hreq|exact Hr].
Defined.

(** The claim that a page starting at or beyond the cached count is
    invalid for every count fails for a count of 0: page 1 of an empty
    listing is returned, empty, from the cache. *)
Lemma count_zero_page_not_invalid :
  RootModel.contents (RootModel.this (cache_of empty_listing)) !! Js.or_null None
  = Some empty_listing
  ∧ (1 - 1) * 10 >= RootModel.count empty_listing
  ∧ RootModel.getContentObjects album_meta offline 1 10 None (cache_of empty_listing)
    = (Returned {| RootModel.set_count := Some 0; RootModel.set_objectIds := [] |},
       cache_of empty_listing).
Proof.
  split; [reflexivity|]. split; [cbn; lia|]. vm_compute. reflexivity.
Qed.

Lemma getContentObjects_invalid_page_witness :
  RootModel.getContentObjects album_meta offline 4 10 None (cache_of full25)
  = (Thrown (Detail "Invalid page."), cache_of full25).
Proof.
  apply (RootModelFacts.getContentObjects_invalid_page album_meta offline
           (cache_of full25) 4 10 None full25).
  - reflexivity.
  - cbn. lia.
  - cbn. lia.
Defined.

Lemma getContentObjects_pagination_boundary_witness :
  RootModel.getContentObjects album_meta offline 3 10 None (cache_of full25)
  = (Returned {| RootModel.set_count := Some 25;
                 RootModel.set_objectIds := Some <$> drop 20 (ids_from 100 25) |},
     cache_of full25)
  ∧ length (drop 20 (ids_from 100 25)) = 5%nat
  ∧ RootModel.getContentObjects album_meta offline 4 10 None (cache_of full25)
    = (Thrown (Detail "Invalid page."), cache_of full25).
Proof.
  apply (RootModelFacts.getContentObjects_pagination_boundary album_meta offline
           (cache_of full25) None (ids_from 100 25)).
  - reflexivity.
  - reflexivity.
Defined.

Lemma paged_3_10_of_25 :
  RootModel.paged 3 10
    {| RootModel.data_count := 25;
       RootModel.data_objects := RootModel.Build_Model <$> ids_from 120 5 |}.
Proof.
  unfold RootModel.paged, RootModel.page_start, Js.array_length_limit. cbn.
  repeat split; lia.
Qed.

(** A fresh container loads page 2 of 25; a container holding page 1 of
    25 loads page 3. *)
Lemma getContentObjects_merge_invariant_witness :
  (∃ st1 e,
     RootModel.getContentObjects album_meta (pages (ids_from 100 25)) 2 10 None fresh
     = (Returned {| RootModel.set_count := Some 25;
                    RootModel.set_objectIds := Some <$> ids_from 110 10 |}, st1)
     ∧ RootModel.contents (RootModel.this st1) !! Js.or_null None = Some e
     ∧ RootModel.count e = 25
     ∧ Z.of_nat (length (RootModel.objectIds e)) = RootModel.count e)
  ∧
  (∃ r st1 e,
     RootModel.getContentObjects album_meta (pages (ids_from 100 25)) 3 10 None
       (cache_of first_page_of_25)
     = (r, st1)
     ∧ RootModel.contents (RootModel.this st1) !! Js.or_null None = Some e
     ∧ RootModel.count e = 25
     ∧ Z.of_nat (length (RootModel.objectIds e)) = RootModel.count e
     ∧ (∀ i : nat,
          Z.of_nat i < (3 - 1) * 10 ∨ 3 * 10 ≤ Z.of_nat i →
          RootModel.objectIds e !! i = RootModel.objectIds first_page_of_25 !! i)
     ∧ RootModel.requests st1
       = [RootModel.contents_request album_meta
            (RootModel.this (cache_of first_page_of_25)) 3 10 None]
     ∧ ∀ j : nat,
         (j < 5)%nat →
         RootModel.objectIds e !! (20 + j)%nat = (Some <$> ids_from 120 5) !! j).
Proof.
  split.
  - refine (proj1 (RootModelFacts.getContentObjects_merge_invariant
                     album_meta (pages (ids_from 100 25)))
              fresh 2 10 None
              {| RootModel.data_count := 25;
                 RootModel.data_objects := RootModel.Build_Model <$> ids_from 110 10 |}
              _ _ _).
    + reflexivity.
    + vm_compute. reflexivity.
    + exact paged_2_10_of_25.
  - destruct (proj2 (RootModelFacts.getContentObjects_merge_invariant
                       album_meta (pages (ids_from 100 25)))
                (cache_of first_page_of_25) 3 10 None first_page_of_25
                {| RootModel.data_count := 25;
                   RootModel.data_objects := RootModel.Build_Model <$> ids_from 120 5 |})
      as (r & st1 & e & Hrun & Hget & Hcount & Hlen & Hout & Hload).
    + reflexivity.
    + reflexivity.
    + vm_compute. reflexivity.
    + reflexivity.
    + exact paged_3_10_of_25.
    + exists r, st1, e. split; [exact Hrun|]. split; [exact Hget|].
      split; [exact Hcount|]. split; [exact Hlen|]. split; [exact Hout|].
      destruct Hload as [Hreq Hin]; [vm_compute; reflexivity|].
      split; [exact Hreq|exact Hin].
Defined.

Lemma reject_b_promise_like : Utils.promise_like reject_b.
Proof.
  intros it accumulator w. unfold reject_b.
  destruct (String.eqb it "b"); cbn; lia.
Qed.

(** Items a, b, c: with the appending step the accumulator ends as
    [a; b; c]; with a step that rejects on b the promise rejects with b's
    reason after the calls for a and b, c never being reached. *)
Lemma promiseChain_sequential_fail_fast_witness :
  (let after := Utils.promiseChain (reason := error) Utils.both_handlers
                  ["a"; "b"; "c"]%string Utils.append_step [] tt in
   after.1 = Utils.Fulfilled ([] ++ ["a"; "b"; "c"]%string)
   ∧ Utils.callback_calls (Utils.trace after.2)
     = imap (λ k it, (it, [] ++ take k ["a"; "b"; "c"]%string)) ["a"; "b"; "c"]%string
   ∧ Utils.env after.2 = tt)
  ∧
  (let after := Utils.promiseChain Utils.both_handlers
                  (["a"%string] ++ "b"%string :: ["c"%string]) reject_b [] tt in
   after.1 = Utils.Rejected (Detail "b failed")
   ∧ (Utils.callback_calls (Utils.trace after.2)).*1 = ["a"%string] ++ ["b"%string]).
Proof.
  destruct UtilsFacts.promiseChain_sequential_fail_fast as (_ & _ & Happend & Hfail).
  split.
  - exact (Happend string error unit Utils.both_handlers ["a"; "b"; "c"]%string [] tt).
  - eapply (Hfail string (list string) error unit Utils.both_handlers reject_b
              ["a"%string] "b"%string ["c"%string] [] tt).
    + vm_compute. reflexivity.
    + vm_compute. reflexivity.
Defined.



(** The trace of that run, written out. *)
Example reject_b_trace :
  (Utils.promiseChain Utils.both_handlers ["a"; "b"; "c"]%string reject_b [] tt)
  = (Utils.Rejected (Detail "b failed"),
     {| Utils.done := 1;
        Utils.trace :=
          [Utils.BeforeProgress
             {| Utils.ev_item := "a"%string; Utils.ev_result := [];
                Utils.doneCount := 0; Utils.totalCount := 3 |};
           Utils.Callback "a"%string [];
           Utils.AfterProgress
             {| Utils.ev_item := "a"%string; Utils.ev_result := ["a"%string];
                Utils.doneCount := 1; Utils.totalCount := 3 |};
           Utils.BeforeProgress
             {| Utils.ev_item := "b"%string; Utils.ev_result := ["a"%string];
                Utils.doneCount := 1; Utils.totalCount := 3 |};
           Utils.Callback "b"%string ["a"%string]];
        Utils.env := tt |}).
Proof. reflexivity. Qed.

Lemma pages_roots_answer :
  pages (ids_from 30 3)
    {| RootModel.req_class := RootModel.ThisClass;
       RootModel.req_param := RootModel.rootsFilterParam folder_meta;
       RootModel.req_value := RootModel.this_id (RootModel.this fresh);
       RootModel.req_search := Js.or_null (Some "cat"%string);
       RootModel.req_page := None; RootModel.req_page_size := None |}
  = Returned {| RootModel.data_count := 3;
                RootModel.data_objects := RootModel.Build_Model <$> ids_from 30 3 |}.
Proof. reflexivity. Qed.

(** A folder loads its roots for the search "cat" once; the entries of
    the search "dog" are left alone. *)
Lemma getRoots_cached_per_search_key_witness :
  (∃ st1,
     RootModel.getRoots folder_meta (pages (ids_from 30 3)) (Some "cat"%string) fresh
     = (Returned (Some {| RootModel.set_count := None;
                          RootModel.set_objectIds := Some <$> ids_from 30 3 |}), st1)
     ∧ length (RootModel.requests st1) = 1%nat
     ∧ RootModel.roots (RootModel.this st1) !! Some "cat"%string
       = Some (Some <$> ids_from 30 3)
     ∧ RootModel.getRoots folder_meta (pages (ids_from 30 3)) (Some "cat"%string) st1
       = (Returned (Some {| RootModel.set_count := None;
                            RootModel.set_objectIds := Some <$> ids_from 30 3 |}), st1))
  ∧ (let st1 := (RootModel.getRoots folder_meta (pages (ids_from 30 3))
                   (Some "cat"%string) fresh).2 in
     RootModel.roots (RootModel.this st1) !! Some "dog"%string
     = RootModel.roots (RootModel.this fresh) !! Some "dog"%string
     ∧ RootModel.contents (RootModel.this st1) = RootModel.contents (RootModel.this fresh))
  ∧ (let st1 := (RootModel.getContentObjects folder_meta (pages (ids_from 100 25))
                   1 10 (Some "cat"%string) fresh).2 in
     RootModel.contents (RootModel.this st1) !! Some "dog"%string
     = RootModel.contents (RootModel.this fresh) !! Some "dog"%string
     ∧ RootModel.roots (RootModel.this st1) = RootModel.roots (RootModel.this fresh)).
Proof.
  destruct (RootModelFacts.getRoots_cached_per_search_key folder_meta
              (pages (ids_from 30 3))) as (Hfirst & _ & Hroots & _).
  destruct (RootModelFacts.getRoots_cached_per_search_key folder_meta
              (pages (ids_from 100 25))) as (_ & _ & _ & Hcontents).
  split; [|split].
  - destruct (Hfirst fresh (Some "cat"%string)
                {| RootModel.data_count := 3;
                   RootModel.data_objects := RootModel.Build_Model <$> ids_from 30 3 |})
      as (st1 & Hrun & Hreq & Hstored & Hagain).
    + reflexivity.
    + reflexivity.
    + exact pages_roots_answer.
    + exists st1. split; [exact Hrun|]. split; [by rewrite Hreq|].
      split; [by rewrite Hstored|exact Hagain].
  - apply (Hroots fresh (Some "cat"%string) (Some "dog"%string)). discriminate.
  - apply (Hcontents fresh 1 10 (Some "cat"%string) (Some "dog"%string)). discriminate.
Defined.

Lemma family_chain : Album.parent_chain family 3 [3; 2; 1].
Proof.
  eapply Album.chain_step; [reflexivity|reflexivity|].
  eapply Album.chain_step; [reflexivity|reflexivity|].
  eapply Album.chain_root; reflexivity.
Qed.

Lemma accept_link_accepts (album : Z) (files : list Z) (links : list (Z * Z)) :
  Album.accepts (list (Z * Z)) accept_link album files links.
Proof.
  revert links. induction files as [|file files IH]; intros links; [done|].
  simpl. eexists. split; [reflexivity|]. apply IH.
Qed.

(** Files 10 and 11 are added to album 3, whose parent chain is 3, 2, 1:
    two links are created in order, then albums 3, 2 and 1 are reset and
    reloaded, and album 4 keeps its caches. *)
Lemma addFiles_updates_parent_chain_witness :
  (∃ st',
     Album.updateParents (list (Z * Z)) 3 3 family_app = Some (Returned tt, st')
     ∧ Album.effects _ st'
       = [Album.ResetData 3; Album.ResetData 2; Album.ResetData 1;
          Album.LoadIds [3; 2; 1] true]
     ∧ Album.objects _ st' !! 4 = family !! 4
     ∧ Album.objects _ st' !! 1 = Album.cleared <$> family !! 1)
  ∧
  (∃ st',
     Album.addFiles (list (Z * Z)) accept_link 3 3 [10; 11] family_app
     = Some (Returned tt, st')
     ∧ Album.effects _ st'
       = [Album.DatabaseCreate 3 10; Album.DatabaseCreate 3 11;
          Album.ResetData 3; Album.ResetData 2; Album.ResetData 1;
          Album.LoadIds [3; 2; 1] true]
     ∧ Album.database _ st' = [(3, 10); (3, 11)]
     ∧ Album.objects _ st' !! 4 = family !! 4
     ∧ Album.objects _ st' !! 2 = Album.cleared <$> family !! 2).
Proof.
  split.
  - destruct (proj1 (AlbumFacts.addFiles_updates_parent_chain (list (Z * Z)) accept_link)
                3%nat 3 [3; 2; 1] family_app)
      as (st' & Hrun & Heff & _ & Hobjs).
    + exact family_chain.
    + simpl. lia.
    + exists st'. split; [exact Hrun|]. split; [exact Heff|].
      split; [exact (Hobjs 4)|exact (Hobjs 1)].
  - destruct (proj2 (AlbumFacts.addFiles_updates_parent_chain (list (Z * Z)) accept_link)
                3%nat 3 [10; 11] [3; 2; 1] family_app)
      as (st' & Hrun & Heff & Hdb & Hobjs & _).
    + exact family_chain.
    + simpl. lia.
    + apply accept_link_accepts.
    + exists st'. split; [exact Hrun|]. split; [exact Heff|]. split; [exact Hdb|].
      split; [exact (Hobjs 4)|exact (Hobjs 2)].
Defined.

Lemma tagged_area_loaded : FileObject.area_loaded geo_store tagged.
Proof.
  intros _ a [= <-]. eexists. reflexivity.
Qed.

(** The geotag with id 9 goes to the wire and comes back as the stored
    id 9. *)
Lemma geotag_round_trip_witness :
  ∃ w st',
    FileObject.serialize geo_store (Some tagged) = Returned (Some w)
    ∧ FileObject.w_id w = 9
    ∧ FileObject.deserialize geo_store (Some w) = Returned st'
    ∧ FileObject.geotagID st' = Some 9.
Proof.
  exact (proj1 (FileObjectFacts.geotag_round_trip Z) geo_store tagged
           tagged_area_loaded).
Defined.

End Scenarios.

(** ** More on the content cache: failures, coherence, page bounds *)

Module RootListingFacts.

Import RootModel RootListing.

Local Open Scope Z_scope.

Section Cache.

Variable meta : rootModelMeta.
Variable loadFiltered : request → outcome loaded.

Local Abbreviation getContentObjects := (getContentObjects meta loadFiltered).
Local Abbreviation getRoots := (getRoots meta loadFiltered).
Local Abbreviation getContents := (getContents meta loadFiltered).

(** X1. Whatever the cache and the remote store, a page that
    [getContentObjects] returns has no unknown slot. *)
Theorem returned_page_has_no_unknown_slot st page pageSize searchQuery r st' :
  getContentObjects page pageSize searchQuery st = (Returned r, st') →
  Js.every is_known (set_objectIds r) = true.
Proof.
  unfold RootModel.getContentObjects, load_contents.
  unfold mbind, M_bind, get_this, await_loadFiltered, set_contents,
    new_Array_fill_null, mret, M_ret, throw.
  destruct (contents (this st) !! Js.or_null searchQuery) as [existing|].
  - destruct ((0 <? count existing) && (count existing <=? (page - 1) * pageSize));
      [done|].
    destruct (Js.every is_known _) eqn:Hknown; [by intros [= <- _]|].
    destruct (loadFiltered _) as [d|e]; [|done].
    intros [= <- _]. apply RootModelFacts.every_known_ids_of.
  - destruct (loadFiltered _) as [d|e]; [|done].
    destruct ((0 <=? data_count d) && (data_count d <? Js.array_length_limit)); [|done].
    intros [= <- _]. apply RootModelFacts.every_known_ids_of.
Qed.

Lemma getRoots_keeps_contents st searchQuery :
  contents (this (getRoots searchQuery st).2) = contents (this st).
Proof.
  unfold RootModel.getRoots. destruct (hasRoots meta); cbn [negb]; [|done].
  unfold mbind, M_bind, get_this, await_loadFiltered, set_roots, mret, M_ret.
  destruct (roots (this st) !! Js.or_null searchQuery) as [ids|]; [done|].
  by destruct (loadFiltered _) as [d|e0].
Qed.

(** X2. A call of [getContentObjects] or [getRoots] that throws leaves
    both caches as they were; a call of [getContents] that throws leaves
    the contents cache as it was. *)
Theorem failed_call_keeps_cache :
  (∀ st page pageSize searchQuery e st',
     getContentObjects page pageSize searchQuery st = (Thrown e, st') →
     this st' = this st)
  ∧ (∀ st searchQuery e st',
       getRoots searchQuery st = (Thrown e, st') → this st' = this st)
  ∧ (∀ st page pageSize searchQuery e st',
       getContents page pageSize searchQuery st = (Thrown e, st') →
       contents (this st') = contents (this st)).
Proof.
  assert (Hcontents : ∀ st page pageSize searchQuery e st',
    getContentObjects page pageSize searchQuery st = (Thrown e, st') →
    this st' = this st).
  { intros st page pageSize searchQuery e st'.
    unfold RootModel.getContentObjects, load_contents.
    unfold mbind, M_bind, get_this, await_loadFiltered, set_contents,
      new_Array_fill_null, mret, M_ret, throw.
    destruct (contents (this st) !! Js.or_null searchQuery) as [existing|].
    - destruct ((0 <? count existing) && (count existing <=? (page - 1) * pageSize));
        [by intros [= _ <-]|].
      destruct (Js.every is_known _); [done|].
      destruct (loadFiltered _) as [d|e0]; [done|]. by intros [= _ <-].
    - destruct (loadFiltered _) as [d|e0]; [|by intros [= _ <-]].
      destruct ((0 <=? data_count d) && (data_count d <? Js.array_length_limit));
        [done|]. by intros [= _ <-]. }
  split; [exact Hcontents|]. split.
  - intros st searchQuery e st'. unfold RootModel.getRoots.
    destruct (hasRoots meta); cbn [negb]; [|done].
    unfold mbind, M_bind, get_this, await_loadFiltered, set_roots, mret, M_ret.
    destruct (roots (this st) !! Js.or_null searchQuery) as [ids|]; [done|].
    destruct (loadFiltered _) as [d|e0]; [done|]. by intros [= _ <-].
  - intros st page pageSize searchQuery e st'. unfold RootListing.getContents.
    unfold mbind at 1, M_bind at 1.
    destruct (RootModel.getRoots meta loadFiltered searchQuery st) as [[r|e0] st1] eqn:Hroots.
    + unfold mbind at 1, M_bind at 1.
      destruct (RootModel.getContentObjects meta loadFiltered page pageSize searchQuery st1)
        as [[c|e1] st2] eqn:Hc; [done|].
      intros [= _ <-]. rewrite (Hcontents _ _ _ _ _ _ Hc).
      pose proof (getRoots_keeps_contents st searchQuery) as Hkeep.
      by rewrite Hroots in Hkeep.
    + intros [= _ <-].
      pose proof (getRoots_keeps_contents st searchQuery) as Hkeep.
      by rewrite Hroots in Hkeep.
Qed.

(** X3. When the page is not served from the cache and the remote store
    rejects the request, [getContentObjects] throws the remote store's
    reason unchanged, after exactly one request, and stores nothing. *)
Theorem remote_rejection_is_propagated st page pageSize searchQuery e :
  match contents (this st) !! Js.or_null searchQuery with
  | None => True
  | Some existing =>
      (0 <? count existing) && (count existing <=? (page - 1) * pageSize) = false
      ∧ Js.every is_known
          (Js.slice (objectIds existing) ((page - 1) * pageSize) (page * pageSize))
        = false
  end →
  loadFiltered (contents_request meta (this st) page pageSize (Js.or_null searchQuery))
  = Thrown e →
  getContentObjects page pageSize searchQuery st
  = (Thrown e,
     {| this := this st;
        requests := requests st
          ++ [contents_request meta (this st) page pageSize (Js.or_null searchQuery)] |}).
Proof.
  intros Hmiss Hload. rewrite RootModelFacts.goes_to_load by done.
  unfold load_contents. unfold mbind at 1, M_bind at 1, await_loadFiltered.
  by rewrite Hload.
Qed.


(** X6. Page 0 of a container that has a cached entry is an empty page:
    it is returned from the cache, with the cached count, for every page
    size that is not negative; it is neither an invalid page nor loaded. *)
Theorem page_zero_is_empty st pageSize searchQuery existing :
  contents (this st) !! Js.or_null searchQuery = Some existing →
  0 ≤ pageSize →
  getContentObjects 0 pageSize searchQuery st
  = (Returned {| set_count := Some (count existing); set_objectIds := [] |}, st).
Proof.
  intros Hget Hsize.
  assert (Hslice : Js.slice (objectIds existing) ((0 - 1) * pageSize) (0 * pageSize) = []).
  { unfold Js.slice, Js.relative_index. rewrite Z.mul_0_l. cbn [Z.ltb Z.compare].
    rewrite Z.min_l by lia.
    destruct ((0 - 1) * pageSize <? 0) eqn:Hneg.
    - replace (Z.to_nat (0 - _)) with 0%nat by lia. apply take_0.
    - apply Z.ltb_ge in Hneg. rewrite Z.min_l by lia.
      replace (Z.to_nat (0 - _)) with 0%nat by lia. apply take_0. }
  rewrite (RootModelFacts.served_from_cache meta loadFiltered st 0 pageSize
             searchQuery existing Hget).
  - by rewrite Hslice.
  - apply andb_false_iff.
    destruct (Z.ltb_spec 0 (count existing)); [right|by left].
    apply Z.leb_gt. lia.
  - by rewrite Hslice.
Qed.

Lemma slice_lookup {A} (arr : list A) (s e : Z) (j : nat) :
  0 ≤ s ≤ e → (j < Z.to_nat (e - s))%nat →
  Js.slice arr s e !! j = arr !! (Z.to_nat s + j)%nat.
Proof.
  intros Hse Hj. rewrite slice_window by done.
  rewrite lookup_take_lt by done. apply lookup_drop.
Qed.

Lemma slice_length {A} (arr : list A) (s e : Z) :
  0 ≤ s ≤ e →
  Z.of_nat (length (Js.slice arr s e))
  = Z.max 0 (Z.min (e - s) (Z.of_nat (length arr) - s)).
Proof.
  intros Hse. rewrite slice_window by done.
  rewrite length_take, length_drop. lia.
Qed.

Lemma ids_of_rows (rows : list Z) : ids_of (Build_Model <$> rows) = Some <$> rows.
Proof. unfold ids_of. by rewrite <- list_fmap_compose. Qed.

Lemma serves_paged rows page pageSize answer :
  serves rows page pageSize answer →
  paged page pageSize
    {| data_count := Z.of_nat (length rows);
       data_objects :=
         Build_Model <$> Js.slice rows ((page - 1) * pageSize) (page * pageSize) |}.
Proof.
  intros (Hpage & Hsize & Hlim & Hvalid & _).
  destruct (RootModelFacts.page_bounds page pageSize Hpage Hsize) as [Hs He].
  unfold paged, page_start. cbn [data_count data_objects].
  split; [done|]. split; [done|]. split; [lia|]. split.
  - destruct Hvalid as [?|[-> ->]]; [by left|by right].
  - rewrite length_fmap, slice_length by lia.
    destruct Hvalid as [?|[-> ->]]; [lia|]. cbn. lia.
Qed.

(** A page of the listing spliced into a sequence that agrees with the
    listing gives a sequence that agrees with the listing. *)
Lemma merged_agrees rows page pageSize answer (oldIds : list (option Z)) :
  serves rows page pageSize answer →
  length oldIds = length rows →
  (∀ (i : nat) (x : Z), oldIds !! i = Some (Some x) → rows !! i = Some x) →
  let allObjectIds :=
    Js.slice oldIds 0 ((page - 1) * pageSize)
      ++ ((Some <$> Js.slice rows ((page - 1) * pageSize) (page * pageSize))
            ++ Js.slice_from oldIds (page * pageSize)) in
  length allObjectIds = length rows
  ∧ ∀ (i : nat) (x : Z), allObjectIds !! i = Some (Some x) → rows !! i = Some x.
Proof.
  intros Hserves Hlen Hold.
  pose proof (serves_paged _ _ _ _ Hserves) as Hpaged.
  destruct Hserves as (Hpage & Hsize & _ & Hvalid & _).
  destruct (RootModelFacts.page_bounds page pageSize Hpage Hsize) as [Hs He].
  destruct (RootModelFacts.merged_page oldIds page pageSize _ Hpaged)
    as (Hall & _ & Hout & Hin); [cbn; lia|].
  cbn [data_objects] in Hall, Hout, Hin. rewrite ids_of_rows in Hall, Hout, Hin.
  cbv zeta in *. split; [lia|].
  intros i x Hi.
  destruct (decide (Z.of_nat i < (page - 1) * pageSize ∨ page * pageSize ≤ Z.of_nat i))
    as [Hrange|Hrange].
  - rewrite Hout in Hi by done. by apply Hold.
  - assert (Hlt : (i < length rows)%nat).
    { apply lookup_lt_Some in Hi. lia. }
    replace i with (Z.to_nat ((page - 1) * pageSize) + (i - Z.to_nat ((page - 1) * pageSize)))%nat
      in Hi by lia.
    rewrite Hin in Hi.
    2:{ rewrite length_fmap.
        pose proof (slice_length rows ((page - 1) * pageSize) (page * pageSize)). lia. }
    rewrite list_lookup_fmap, slice_lookup in Hi by lia.
    replace (Z.to_nat ((page - 1) * pageSize) + (i - Z.to_nat ((page - 1) * pageSize)))%nat
      with i in Hi by lia.
    destruct (rows !! i) as [y|]; [|done]. by injection Hi as ->.
Qed.

(** A slice whose slots are all known, of a sequence that agrees with the
    listing, is the slice of the listing. *)
Lemma known_slice_agrees rows (ids : list (option Z)) (s e : Z) :
  0 ≤ s ≤ e →
  length ids = length rows →
  (∀ (i : nat) (x : Z), ids !! i = Some (Some x) → rows !! i = Some x) →
  Js.every is_known (Js.slice ids s e) = true →
  Js.slice ids s e = Some <$> Js.slice rows s e.
Proof.
  intros Hse Hlen Hagree Hknown. rewrite !slice_window in * by done.
  apply list_eq. intros j. rewrite list_lookup_fmap.
  destruct (decide (j < Z.to_nat (e - s))%nat) as [Hj|Hj].
  - rewrite !lookup_take_lt, !lookup_drop by done.
    destruct (ids !! (Z.to_nat s + j)%nat) as [[x|]|] eqn:Hslot.
    + by rewrite (Hagree _ _ Hslot).
    + exfalso. unfold Js.every in Hknown. rewrite forallb_forall in Hknown.
      assert (Hin : In (@None Z) (take (Z.to_nat (e - s)) (drop (Z.to_nat s) ids))).
      { apply list_elem_of_In, list_elem_of_lookup. exists j.
        by rewrite lookup_take_lt, lookup_drop. }
      by specialize (Hknown _ Hin).
    + apply lookup_ge_None in Hslot.
      rewrite (lookup_ge_None_2 rows); [done|lia].
  - rewrite !lookup_take_ge by lia. done.
Qed.

(** X4. As long as the remote listing is [rows] and the cached entry (if
    any) agrees with it, [getContentObjects] returns the count and exactly
    the rows of the requested page, whether it serves them from the cache
    or loads them, and the entry it leaves agrees with the listing. *)
Theorem returned_page_is_the_listing_page rows st page pageSize searchQuery :
  serves rows page pageSize
    (loadFiltered (contents_request meta (this st) page pageSize (Js.or_null searchQuery))) →
  (∀ existing, contents (this st) !! Js.or_null searchQuery = Some existing →
               agrees rows existing) →
  ∃ st' e',
    getContentObjects page pageSize searchQuery st
    = (Returned {| set_count := Some (Z.of_nat (length rows));
                   set_objectIds :=
                     Some <$> Js.slice rows ((page - 1) * pageSize) (page * pageSize) |},
       st')
    ∧ contents (this st') !! Js.or_null searchQuery = Some e'
    ∧ agrees rows e'.
Proof.
  intros Hserves Hagrees.
  pose proof Hserves as (Hpage & Hsize & Hlim & Hvalid & Hanswer).
  destruct (RootModelFacts.page_bounds page pageSize Hpage Hsize) as [Hs He].
  assert (Hloaded : ∀ existing oldIds,
    contents (this st) !! Js.or_null searchQuery = existing →
    match existing with
    | Some e => oldIds = objectIds e
    | None => 0 ≤ Z.of_nat (length rows) < Js.array_length_limit
              ∧ oldIds = replicate (Z.to_nat (Z.of_nat (length rows))) None
    end →
    length oldIds = length rows →
    (∀ (i : nat) (x : Z), oldIds !! i = Some (Some x) → rows !! i = Some x) →
    ∃ st' e',
      load_contents meta loadFiltered (this st) existing page pageSize
        (Js.or_null searchQuery) st
      = (Returned {| set_count := Some (Z.of_nat (length rows));
                     set_objectIds :=
                       Some <$> Js.slice rows ((page - 1) * pageSize) (page * pageSize) |},
         st')
      ∧ contents (this st') !! Js.or_null searchQuery = Some e'
      ∧ agrees rows e').
  { intros existing oldIds Hget Hold Hlen Hslots.
    rewrite (RootModelFacts.load_contents_returned meta loadFiltered st existing page
               pageSize _ _ oldIds Hanswer Hold).
    cbn [data_count data_objects]. rewrite ids_of_rows.
    destruct (merged_agrees rows page pageSize _ oldIds Hserves Hlen Hslots)
      as [Hall Hknown].
    eexists _, _. split; [done|]. split.
    - cbn [stored this contents]. apply lookup_insert_eq.
    - split; [done|]. split; [exact Hall|exact Hknown]. }
  destruct (contents (this st) !! Js.or_null searchQuery) as [existing|] eqn:Hget.
  - destruct (Hagrees existing eq_refl) as (Hcount & Hlen & Hslots).
    assert (Hguard : (0 <? count existing) && (count existing <=? (page - 1) * pageSize)
                     = false).
    { apply andb_false_iff. rewrite Hcount.
      destruct Hvalid as [?|[-> _]]; [right; apply Z.leb_gt; lia|by left]. }
    destruct (Js.every is_known
                (Js.slice (objectIds existing) ((page - 1) * pageSize) (page * pageSize)))
      eqn:Hknown.
    + exists st, existing.
      rewrite (RootModelFacts.served_from_cache meta loadFiltered st page pageSize
                 searchQuery existing Hget Hguard Hknown).
      assert (Hse : 0 ≤ (page - 1) * pageSize ≤ page * pageSize) by lia.
      rewrite (known_slice_agrees rows _ _ _ Hse Hlen Hslots Hknown).
      rewrite Hcount. split; [done|]. split; [done|]. by apply Hagrees.
    + rewrite RootModelFacts.goes_to_load by (by rewrite Hget).
      rewrite Hget. by apply (Hloaded (Some existing) (objectIds existing)).
  - rewrite RootModelFacts.goes_to_load by (by rewrite Hget).
    rewrite Hget. apply (Hloaded None (replicate (Z.to_nat (Z.of_nat (length rows))) None)).
    + done.
    + split; [lia|done].
    + rewrite length_replicate. lia.
    + intros i x Hi. apply lookup_replicate in Hi. by destruct Hi.
Qed.

End Cache.

Section BaseRoots.

Variable meta : rootModelMeta.
Variable loadBaseRoots : option string → outcome loaded.

Local Abbreviation getAbsoluteRoots := (getAbsoluteRoots meta loadBaseRoots).

(** X7. The base roots are loaded once: after a first call that the
    remote store answers, every call returns the ids of that answer with
    no remote call, reporting as count the number of those ids (the first
    call reports the count the remote store gave); the contents set is
    always empty; and a first call that the remote store rejects stores
    nothing, so that the next call asks again. *)
Theorem getAbsoluteRoots_loads_once :
  (∀ cls d,
     absoluteRoots cls = None →
     loadBaseRoots (rootsFilterParam meta) = Returned d →
     let ids := (λ root, Some (id root)) <$> data_objects d in
     let empty := {| set_count := Some 0; set_objectIds := [] |} in
     ∃ cls1,
       getAbsoluteRoots cls
       = (Returned ({| set_count := Some (data_count d); set_objectIds := ids |}, empty),
          cls1)
       ∧ base_requests cls1 = S (base_requests cls)
       ∧ getAbsoluteRoots cls1
         = (Returned ({| set_count := Some (Z.of_nat (length (data_objects d)));
                         set_objectIds := ids |}, empty), cls1))
  ∧ (∀ cls e,
       absoluteRoots cls = None →
       loadBaseRoots (rootsFilterParam meta) = Thrown e →
       ∃ cls1,
         getAbsoluteRoots cls = (Thrown e, cls1)
         ∧ absoluteRoots cls1 = None
         ∧ base_requests cls1 = S (base_requests cls)).
Proof.
  split.
  - intros cls d Hnull Hload ids empty. unfold RootListing.getAbsoluteRoots.
    rewrite Hnull, Hload. eexists. split; [done|]. split; [done|].
    cbn. subst ids. by rewrite length_fmap.
  - intros cls e Hnull Hload. unfold RootListing.getAbsoluteRoots.
    rewrite Hnull, Hload. by eexists.
Qed.

End BaseRoots.

End RootListingFacts.

(** ** More on the pipeline: repeated calls, counters, blocked chains *)

Module UtilsMore.

Import Utils Callbacks.

Section Pipeline.

Context {item data reason world : Type}.

Implicit Types (h : handlers) (cb : callback item data reason world)
  (st : state item data world) (p : promise data reason).

Lemma settled_take_1 (calls : list (settle data reason)) :
  settled (take 1 calls) = settled calls.
Proof. by destruct calls as [|[d|r] calls]. Qed.

Lemma run_first_call_only h total cb items accumulator st st' :
  env st = env st' →
  callback_calls (trace st) = callback_calls (trace st') →
  let a := run h total cb items accumulator st in
  let b := run h total (first_call_only cb) items accumulator st' in
  a.1 = b.1
  ∧ callback_calls (trace a.2) = callback_calls (trace b.2)
  ∧ env a.2 = env b.2.
Proof.
  revert accumulator st st'.
  induction items as [|it items IH]; intros accumulator st st' Henv Htr.
  - done.
  - cbn [run].
    destruct (UtilsFacts.link_called h total cb it accumulator st) as (Hp & He & Hc).
    destruct (UtilsFacts.link_called h total (first_call_only cb) it accumulator st')
      as (Hp' & He' & Hc').
    cbv zeta in *.
    assert (Hfst : ∀ w0, (first_call_only cb it accumulator w0).1
                         = take 1 (cb it accumulator w0).1) by done.
    assert (Hsnd : ∀ w0, (first_call_only cb it accumulator w0).2
                         = (cb it accumulator w0).2) by done.
    rewrite Hfst, settled_take_1, <- Henv in Hp'. rewrite Hsnd, <- Henv in He'.
    rewrite <- Htr in Hc'.
    destruct (link h total cb it accumulator st) as [p s1].
    destruct (link h total (first_call_only cb) it accumulator st') as [p' s1'].
    cbn [fst snd] in *. subst p p'.
    destruct (settled (cb it accumulator (env st)).1) as [|result|r].
    + cbn [fst snd]. by rewrite Hc, Hc', He, He'.
    + apply IH; [by rewrite He, He'|by rewrite Hc, Hc'].
    + cbn [fst snd]. by rewrite Hc, Hc', He, He'.
Qed.

(** X8. Only the first call a callback makes to [resolve] or [reject]
    counts: the returned promise, the calls of the callback (items and
    accumulators) and the world at the end are those of the run in which
    each invocation makes its first call only. *)
Theorem first_call_decides h items cb result w :
  let a := promiseChain h items cb result w in
  let b := promiseChain h items (first_call_only cb) result w in
  a.1 = b.1
  ∧ callback_calls (trace a.2) = callback_calls (trace b.2)
  ∧ env a.2 = env b.2.
Proof.
  unfold promiseChain. rewrite !UtilsFacts.chain_run. cbn [Promise_resolve].
  by apply run_first_call_only.
Qed.

Lemma after_events_app (tr1 tr2 : list (event item data)) :
  after_events (tr1 ++ tr2) = after_events tr1 ++ after_events tr2.
Proof. apply omap_app. Qed.

Lemma before_events_app (tr1 tr2 : list (event item data)) :
  before_events (tr1 ++ tr2) = before_events tr1 ++ before_events tr2.
Proof. apply omap_app. Qed.

Lemma calls_counted h total it (calls : list (settle data reason)) p st :
  onafterprogress h = true →
  counted total st →
  counted total (fold_left (call h total it) calls (p, st)).2.
Proof.
  intros Hreg. revert p st. induction calls as [|c calls IH]; intros p st Hst.
  - done.
  - cbn [fold_left]. destruct (call h total it (p, st) c) as [p' st'] eqn:Hcall.
    apply IH. destruct c as [d|r]; simpl in Hcall; injection Hcall as <- <-.
    + rewrite Hreg. destruct Hst as [Hdone Hnum]. split.
      * cbn [done trace]. rewrite after_events_app, length_app. cbn. lia.
      * cbn [trace]. intros k e. rewrite after_events_app. cbn.
        destruct (decide (k < length (after_events (trace st)))) as [Hk|Hk].
        -- rewrite lookup_app_l by done. apply Hnum.
        -- rewrite lookup_app_r by lia.
           destruct (k - length (after_events (trace st))) as [|n] eqn:Hn; [|done].
           intros [= <-]. cbn. split; [lia|done].
    + done.
Qed.

Lemma link_counted h total cb it accumulator st :
  onafterprogress h = true →
  counted total st →
  counted total (link h total cb it accumulator st).2.
Proof.
  intros Hreg Hst. unfold link, new_Promise. cbn [env done trace].
  destruct (cb it accumulator (env st)) as [calls w].
  apply calls_counted; [done|].
  destruct Hst as [Hdone Hnum]. unfold counted. cbn [done trace].
  rewrite !after_events_app.
  replace (after_events (if onbeforeprogress h then _ else _)) with (@nil (progress item data))
    by (by destruct (onbeforeprogress h)).
  cbn. rewrite !app_nil_r. done.
Qed.

Lemma run_counted h total cb items accumulator st :
  onafterprogress h = true →
  counted total st →
  counted total (run h total cb items accumulator st).2.
Proof.
  intros Hreg. revert accumulator st.
  induction items as [|it items IH]; intros accumulator st Hst; [done|].
  cbn [run]. pose proof (link_counted h total cb it accumulator st Hreg Hst) as Hlink.
  destruct (link h total cb it accumulator st) as [[|result|r] st']; [done| |done].
  by apply IH.
Qed.

(** X9. With an "after" handler registered and any callback, every call
    of [resolve] fires one "after" event and adds one to the counter: at
    the end the counter is the number of "after" events, and the k-th of
    them (from 0) carries [doneCount = k + 1] and the length of the list,
    also when a callback calls [resolve] more than once or after
    [reject]. *)
Theorem after_events_are_numbered h items cb result w :
  onafterprogress h = true →
  let after := promiseChain h items cb result w in
  done after.2 = length (after_events (trace after.2))
  ∧ ∀ k e, after_events (trace after.2) !! k = Some e →
           doneCount e = S k ∧ totalCount e = length items.
Proof.
  intros Hreg. unfold promiseChain. rewrite UtilsFacts.chain_run. cbn [Promise_resolve].
  apply run_counted; [done|]. split; [done|]. intros k e. cbn. done.
Qed.

Lemma calls_unregistered h total it (calls : list (settle data reason)) p st :
  let after := fold_left (call h total it) calls (p, st) in
  before_events (trace after.2) = before_events (trace st)
  ∧ (onafterprogress h = false →
     after_events (trace after.2) = after_events (trace st)).
Proof.
  revert p st. induction calls as [|c calls IH]; intros p st; [done|].
  cbn [fold_left]. destruct (call h total it (p, st) c) as [p' st'] eqn:Hcall.
  destruct (IH p' st') as [Hb Ha]. cbv zeta in *. rewrite Hb.
  destruct c as [d|r]; simpl in Hcall; injection Hcall as <- <-; cbn [trace].
  - split.
    + rewrite before_events_app. destruct (onafterprogress h); cbn; by rewrite app_nil_r.
    + intros Hreg. rewrite (Ha Hreg). cbn [trace]. rewrite Hreg. by rewrite app_nil_r.
  - split; [done|]. exact Ha.
Qed.

Lemma run_unregistered h total cb items accumulator st :
  let after := run h total cb items accumulator st in
  (onbeforeprogress h = false →
   before_events (trace after.2) = before_events (trace st))
  ∧ (onafterprogress h = false →
     after_events (trace after.2) = after_events (trace st)).
Proof.
  revert accumulator st. induction items as [|it items IH]; intros accumulator st; [done|].
  cbn [run].
  assert (Hlink :
    (onbeforeprogress h = false →
     before_events (trace (link h total cb it accumulator st).2) = before_events (trace st))
    ∧ (onafterprogress h = false →
       after_events (trace (link h total cb it accumulator st).2)
       = after_events (trace st))).
  { unfold link, new_Promise. cbn [env done trace].
    destruct (cb it accumulator (env st)) as [calls w].
    match goal with |- context [fold_left _ calls (Pending, ?s)] =>
      destruct (calls_unregistered h total it calls Pending s) as [Hb Ha] end.
    cbv zeta in *. rewrite Hb. cbn [trace]. split.
    - intros Hreg. rewrite Hreg, !before_events_app. cbn. by rewrite !app_nil_r.
    - intros Hreg. rewrite (Ha Hreg). cbn [trace]. rewrite !after_events_app. cbn.
      destruct (onbeforeprogress h); cbn; by rewrite !app_nil_r. }
  destruct (link h total cb it accumulator st) as [[|result|r] st']; [done| |done].
  destruct (IH result st') as [Hb Ha]. cbv zeta in *. cbn [snd] in Hlink.
  destruct Hlink as [Hb' Ha']. split.
  - intros Hreg. by rewrite (Hb Hreg), (Hb' Hreg).
  - intros Hreg. by rewrite (Ha Hreg), (Ha' Hreg).
Qed.

(** X10. A handler that is not registered is never called: without a
    "before" handler a run has no "before" event, without an "after"
    handler it has no "after" event, whatever the callback does. *)
Theorem unregistered_handlers_never_fire h items cb result w :
  let after := promiseChain h items cb result w in
  (onbeforeprogress h = false → before_events (trace after.2) = [])
  ∧ (onafterprogress h = false → after_events (trace after.2) = []).
Proof.
  unfold promiseChain. rewrite UtilsFacts.chain_run. cbn [Promise_resolve].
  apply (run_unregistered h (length items) cb items result
           {| done := 0; trace := []; env := w |}).
Qed.

(** X11. A step that does not fulfil blocks the chain and nothing is
    undone: when the items before [b] have fulfilled and the promise of
    the callback for [b] is left rejected or pending, the returned promise
    is left in that state, the callback has been called for the items up
    to [b] only, and the world is the one the callback for [b] left. *)
Theorem unfulfilled_step_blocks_chain h cb pre b post result w accumulator st p :
  chain h (length (pre ++ b :: post)) cb pre (Promise_resolve result)
    {| done := 0; trace := []; env := w |}
  = (Fulfilled accumulator, st) →
  settled (cb b accumulator (env st)).1 = p →
  (∀ v, p ≠ Fulfilled v) →
  let after := promiseChain h (pre ++ b :: post) cb result w in
  after.1 = p
  ∧ (callback_calls (trace after.2)).*1 = pre ++ [b]
  ∧ env after.2 = (cb b accumulator (env st)).2.
Proof.
  intros Hpre Hstep Hnot. unfold promiseChain.
  rewrite UtilsFacts.chain_run in *. cbn [Promise_resolve] in *.
  rewrite UtilsFacts.run_app, Hpre. cbn [run].
  destruct (UtilsFacts.run_called h (length (pre ++ b :: post)) cb pre result
              {| done := 0; trace := []; env := w |}) as (n & Hn & Hfull).
  cbv zeta in *. rewrite Hpre in Hn, Hfull. cbn [fst snd trace] in Hn, Hfull.
  rewrite (Hfull accumulator eq_refl), firstn_all in Hn.
  destruct (UtilsFacts.link_called h (length (pre ++ b :: post)) cb b accumulator st)
    as (Hp & Henv & Htr).
  cbv zeta in *. rewrite Hstep in Hp.
  destruct (link h (length (pre ++ b :: post)) cb b accumulator st) as [p' st'].
  cbn [fst snd] in *. subst p'.
  destruct p as [|v|r]; [|by destruct (Hnot v)|]; cbn [fst snd];
    (split; [done|]; split; [by rewrite Htr, fmap_app, Hn|done]).
Qed.

End Pipeline.

End UtilsMore.

(** ** Strings: cutting and joining *)

Module JsStringFacts.

Import Stdlib.Strings.Ascii JsString.

Local Open Scope string_scope.

Lemma append_cons (c : ascii) (a b : string) : String c a ++ b = String c (a ++ b).
Proof. reflexivity. Qed.

Lemma append_empty (b : string) : "" ++ b = b.
Proof. reflexivity. Qed.

(** [simpl], and the two equations of [++] that it leaves alone. *)
Ltac string_simpl := simpl; rewrite ?append_cons, ?append_empty.

Lemma append_nil_r (s : string) : s ++ "" = s.
Proof. induction s as [|c s IH]; [done|]. string_simpl. by rewrite IH. Qed.

Lemma append_assoc (a b c : string) : (a ++ b) ++ c = a ++ (b ++ c).
Proof. induction a as [|x a IH]; [done|]. string_simpl. by rewrite IH. Qed.

Lemma includes_app (c : ascii) (a b : string) :
  includes c (a ++ b) = includes c a || includes c b.
Proof.
  induction a as [|x a IH]; [done|]. string_simpl. rewrite IH. by rewrite orb_assoc.
Qed.

Lemma endsWith_snoc (c x : ascii) (s : string) :
  endsWith c (s ++ String x "") = Ascii.eqb x c.
Proof.
  induction s as [|y s IH]; [done|].
  string_simpl. destruct (s ++ String x "") eqn:Hs; [by destruct s|]. exact IH.
Qed.

Lemma substr_0_last_snoc (x : ascii) (s : string) :
  substr_0_last (s ++ String x "") = s.
Proof.
  induction s as [|y s IH]; [done|].
  string_simpl. destruct (s ++ String x "") eqn:Hs; [by destruct s|]. by rewrite IH.
Qed.

Lemma endsWith_last (c : ascii) (s : string) :
  endsWith c s = true → s = substr_0_last s ++ String c "".
Proof.
  induction s as [|y s IH]; [done|].
  string_simpl. destruct s as [|z s].
  - intros Heq. apply Ascii.eqb_eq in Heq. by subst.
  - intros Hends. string_simpl. f_equal. by apply IH.
Qed.

Lemma split_not_nil (sep : ascii) (s : string) : split sep s ≠ [].
Proof.
  destruct s as [|c s]; [done|]. string_simpl.
  destruct (Ascii.eqb c sep); [done|]. by destruct (split sep s).
Qed.

Lemma join_cons (sep piece : string) (pieces : list string) :
  pieces ≠ [] → join sep (piece :: pieces) = piece ++ sep ++ join sep pieces.
Proof. by destruct pieces. Qed.

Lemma join_split (sep : ascii) (s : string) :
  join (String sep "") (split sep s) = s.
Proof.
  induction s as [|c s IH]; [done|].
  cbn [split]. destruct (Ascii.eqb_spec c sep) as [->|Hne].
  - rewrite join_cons by apply split_not_nil.
    rewrite append_empty, append_cons, append_empty. by rewrite IH.
  - pose proof (split_not_nil sep s) as Hnil.
    destruct (split sep s) as [|piece pieces]; [done|].
    destruct pieces as [|piece' pieces].
    + change (join (String sep "") [piece]) with piece in IH.
      change (join (String sep "") [String c piece]) with (String c piece).
      by rewrite IH.
    + rewrite join_cons in * by done. rewrite append_cons. by rewrite IH.
Qed.

Lemma split_pieces (sep : ascii) (s : string) :
  Forall (λ piece, includes sep piece = false) (split sep s).
Proof.
  induction s as [|c s IH]; [by repeat constructor|].
  string_simpl. destruct (Ascii.eqb c sep) eqn:Hc.
  - by constructor.
  - pose proof (split_not_nil sep s) as Hnil.
    destruct (split sep s) as [|piece pieces]; [done|].
    inversion IH as [|? ? Hpiece Hpieces]; subst. constructor; [|done].
    string_simpl. by rewrite Hc, Hpiece.
Qed.

Lemma split_without (sep : ascii) (s : string) :
  includes sep s = false → split sep s = [s].
Proof.
  induction s as [|c s IH]; [done|].
  string_simpl. intros Hnone. apply orb_false_iff in Hnone as [Hc Hs].
  rewrite Hc, (IH Hs). done.
Qed.

Lemma split_with (sep : ascii) (s : string) :
  includes sep s = true → (2 ≤ length (split sep s))%nat.
Proof.
  induction s as [|c s IH]; [done|].
  string_simpl. destruct (Ascii.eqb c sep) eqn:Hc.
  - intros _. pose proof (split_not_nil sep s). destruct (split sep s); [done|].
    string_simpl. lia.
  - string_simpl. intros Hs. specialize (IH Hs).
    destruct (split sep s) as [|piece pieces]; [simpl in IH; lia|]. exact IH.
Qed.

Lemma join_snoc (sep piece : string) (pieces : list string) :
  pieces ≠ [] →
  join sep (pieces ++ [piece]) = join sep pieces ++ sep ++ piece.
Proof.
  induction pieces as [|p pieces IH]; [done|]. intros _.
  destruct pieces as [|q pieces]; [done|].
  change ((p :: q :: pieces) ++ [piece])%list with (p :: ((q :: pieces) ++ [piece]))%list.
  rewrite join_cons by done. rewrite IH by done.
  rewrite (join_cons sep p (q :: pieces)) by done.
  by rewrite !append_assoc.
Qed.

Lemma cut_first (c : ascii) (before after : string) :
  includes c before = false →
  cut c (before ++ String c after) = Some (before, after).
Proof.
  induction before as [|x before IH]; intros Hnone.
  - string_simpl. by rewrite Ascii.eqb_refl.
  - simpl in *; rewrite ?append_cons, ?append_empty in *. apply orb_false_iff in Hnone as [Hx Hb].
    by rewrite Hx, (IH Hb).
Qed.

Lemma substitution_plain (matched before after template : string) :
  includes "$" template = false →
  substitution matched before after template = template.
Proof.
  induction template as [|c template IH]; [done|].
  string_simpl. intros Hplain. apply orb_false_iff in Hplain as [Hc Ht].
  rewrite Hc. by rewrite (IH Ht).
Qed.

End JsStringFacts.

(** ** The paths of moved and downloaded files *)

Module PlatformFacts.

Import Stdlib.Strings.Ascii JsString JsStringFacts Platform.

Local Open Scope string_scope.

Lemma snoc_view {A} (l : list A) : l ≠ [] → ∃ init x, l = (init ++ [x])%list.
Proof.
  induction l as [|x l IH] using rev_ind; [done|]. intros _. by exists l, x.
Qed.

Lemma last_piece (sep : ascii) (s : string) :
  ∃ init piece,
    split sep s = (init ++ [piece])%list
    ∧ includes sep piece = false
    ∧ (includes sep s = true → init ≠ [] ∧ s = join (String sep "") init ++ String sep piece)
    ∧ (includes sep s = false → init = [] ∧ piece = s).
Proof.
  pose proof (split_not_nil sep s) as Hnil.
  pose proof (split_pieces sep s) as Hpieces.
  pose proof (join_split sep s) as Hjoin.
  pose proof (split_with sep s) as Hwith.
  pose proof (split_without sep s) as Hwithout.
  destruct (snoc_view _ Hnil) as (init & piece & Hsplit).
  rewrite Hsplit in Hpieces, Hjoin, Hwith, Hwithout.
  exists init, piece. split; [done|].
  apply Forall_app in Hpieces as [_ Hpiece]. inversion Hpiece as [|? ? Hp _].
  split; [done|]. split.
  - intros Hs. specialize (Hwith Hs). rewrite length_app in Hwith. simpl in Hwith.
    assert (Hinit : init ≠ []) by (destruct init; [simpl in Hwith; lia|done]).
    split; [done|]. by rewrite join_snoc in Hjoin.
  - intros Hs. specialize (Hwithout Hs).
    destruct init as [|q init]; [by injection Hwithout as ->|].
    by destruct init.
Qed.

(** X12. [moveFiles] splits the target path at its last slash: the new
    name is the part after it and holds no slash, and the directory
    followed by a slash and the new name is the target path again; for a
    target path with no slash the directory is the empty string and the
    new name is the whole path. *)
Theorem moveFiles_target_splits (to : string) :
  ∃ name,
    newName to = Some name
    ∧ includes "/" name = false
    ∧ (includes "/" to = true → to = dirURL to ++ "/" ++ name)
    ∧ (includes "/" to = false → dirURL to = "" ∧ name = to).
Proof.
  destruct (last_piece "/" to) as (init & name & Hsplit & Hname & Hwith & Hwithout).
  assert (Hdir : dirURL to = join "/" init).
  { unfold dirURL. rewrite Hsplit, rev_unit.
    rewrite slice_from_suffix by lia. change (Z.to_nat 1) with 1%nat.
    cbn [drop]. by rewrite drop_0, rev_involutive. }
  exists name. split; [|split; [done|split]].
  - unfold newName. by rewrite Hsplit, rev_unit.
  - intros Hto. rewrite Hdir. by destruct (Hwith Hto) as [_ ->].
  - intros Hto. destruct (Hwithout Hto) as [-> ->]. by rewrite Hdir.
Qed.

(** X13. [downloadFiles] asks the server for the image named by the last
    segment of the file path up to its first dot: that name holds neither
    a slash nor a dot, and the file path is a directory part (empty or
    ending with a slash), the name, and an extension part (empty or
    starting with a dot, without a slash). *)
Theorem downloadFiles_image_name (serverUrl file : string) :
  ∃ dir name ext,
    download_source serverUrl file = Some (serverUrl ++ "api/images/" ++ name ++ "/")
    ∧ file = dir ++ name ++ ext
    ∧ includes "/" name = false ∧ includes "." name = false
    ∧ (dir = "" ∨ endsWith "/" dir = true)
    ∧ (ext = "" ∨ startsWith "." ext = true)
    ∧ includes "/" ext = false.
Proof.
  destruct (last_piece "/" file) as (init & base & Hsplit & Hbase & Hwith & Hwithout).
  pose proof (split_not_nil "." base) as Hnil.
  pose proof (split_pieces "." base) as Hpieces.
  pose proof (join_split "." base) as Hjoin.
  destruct (split "." base) as [|name rest] eqn:Hdots; [done|].
  inversion Hpieces as [|? ? Hname _].
  set (ext := match rest with [] => "" | _ => "." ++ join "." rest end).
  assert (Hparts : base = name ++ ext).
  { subst ext. destruct rest as [|r rest]; [by rewrite append_nil_r|].
    by rewrite join_cons in Hjoin. }
  assert (Hslash : includes "/" name = false ∧ includes "/" ext = false).
  { rewrite Hparts, includes_app in Hbase. by apply orb_false_iff in Hbase. }
  exists (match init with [] => "" | _ => join "/" init ++ "/" end), name, ext.
  split; [|split; [|split; [|split; [|split; [|split]]]]].
  - unfold download_source. rewrite Hsplit, rev_unit. cbn. by rewrite Hdots.
  - rewrite <- Hparts. destruct (includes "/" file) eqn:Hfile.
    + destruct (Hwith eq_refl) as [Hinit ->]. destruct init; [done|].
      by rewrite append_assoc.
    + by destruct (Hwithout eq_refl) as [-> ->].
  - by destruct Hslash.
  - done.
  - destruct init as [|p init]; [by left|]. right.
    apply (endsWith_snoc "/" "/").
  - subst ext. destruct rest; [by left|by right].
  - by destruct Hslash.
Qed.

End PlatformFacts.

(** ** URLs *)

Module UrlFacts.

Import Stdlib.Strings.Ascii JsString JsStringFacts Urls.

Local Open Scope string_scope.

Lemma startsWith_app (c : ascii) (a b : string) :
  a ≠ "" → startsWith c (a ++ b) = startsWith c a.
Proof. by destruct a. Qed.

(** The URL after [url || ""] and the removal of one leading slash. *)
Lemma trimUrl_cases (url : option string) :
  let s := match url with Some s => s | None => "" end in
  let s1 := if startsWith "/" s then substr_1 s else s in
  (s = s1 ∨ s = "/" ++ s1)
  ∧ trimUrl url
    = if negb (includes "?" s1)
      then (if endsWith "/" s1 then substr_0_last s1 else s1) ++ "/"
      else s1.
Proof.
  cbv zeta. split; [|done].
  destruct url as [[|c s]|]; [by left| |by left].
  cbn [startsWith]. destruct (Ascii.eqb_spec c "/") as [->|_]; [by right|by left].
Qed.

(** X14. [trimUrl] removes at most one leading slash, and then: a URL
    with a query string is left as it is; a URL without one ends with
    exactly the slash that [trimUrl] puts after removing one trailing
    slash, if there was one. In particular the result of a URL without a
    question mark ends with a slash and has no question mark, and
    [trimUrl()] is ["/"]. *)
Theorem trimUrl_shape (url : option string) :
  let s := match url with Some s => s | None => "" end in
  (includes "?" s = true → s = trimUrl url ∨ s = "/" ++ trimUrl url)
  ∧ (includes "?" s = false →
     endsWith "/" (trimUrl url) = true
     ∧ includes "?" (trimUrl url) = false
     ∧ ∃ body, trimUrl url = body ++ "/"
               ∧ (s = body ∨ s = "/" ++ body ∨ s = body ++ "/" ∨ s = "/" ++ body ++ "/"))
  ∧ trimUrl None = "/".
Proof.
  destruct (trimUrl_cases url) as [Hlead ->]. cbv zeta in *.
  generalize dependent (match url with Some s => s | None => "" end). intros s.
  generalize (if startsWith "/" s then substr_1 s else s). intros s1 Hlead.
  assert (Hq : includes "?" s = includes "?" s1).
  { destruct Hlead as [<- | ->]; [done|]. by rewrite includes_app. }
  split; [|split; [|done]].
  - intros Hs. rewrite <- Hq, Hs. exact Hlead.
  - intros Hs. rewrite <- Hq, Hs. cbn [negb].
    assert (Hbody : s1 = (if endsWith "/" s1 then substr_0_last s1 else s1)
                    ∨ s1 = (if endsWith "/" s1 then substr_0_last s1 else s1) ++ "/").
    { destruct (endsWith "/" s1) eqn:Hends; [right|by left].
      by apply endsWith_last. }
    revert Hbody. generalize (if endsWith "/" s1 then substr_0_last s1 else s1).
    intros body Hbody.
    split; [apply (endsWith_snoc "/" "/")|]. split.
    + rewrite includes_app, orb_false_r.
      destruct Hbody as [<-|Hb]; [by rewrite <- Hq|].
      rewrite Hq, Hb, includes_app in Hs. by apply orb_false_iff in Hs as [? _].
    + exists body. split; [done|]. clear Hq Hs.
      destruct Hlead as [-> | ->]; destruct Hbody as [-> | ->]; tauto.
Qed.

(** X15. [trimUrl] is idempotent on every URL that does not start with
    two slashes. *)
Theorem trimUrl_idempotent (url : option string) :
  (∀ s, url = Some s → startsWith "/" s = true → startsWith "/" (substr_1 s) = false) →
  trimUrl (Some (trimUrl url)) = trimUrl url.
Proof.
  intros Hdouble. destruct (trimUrl_cases url) as [_ Hr]. cbv zeta in Hr.
  assert (Hs1 : startsWith "/"
                  (if startsWith "/" (match url with Some s => s | None => "" end)
                   then substr_1 (match url with Some s => s | None => "" end)
                   else match url with Some s => s | None => "" end) = false).
  { destruct (startsWith "/" (match url with Some s => s | None => "" end)) eqn:Hs;
      [|done].
    destruct url as [s'|]; [by apply (Hdouble s')|done]. }
  revert Hr Hs1.
  generalize (if startsWith "/" (match url with Some s => s | None => "" end)
              then substr_1 (match url with Some s => s | None => "" end)
              else match url with Some s => s | None => "" end).
  intros s1 Hr Hs1. rewrite Hr. clear Hr Hdouble url.
  destruct (includes "?" s1) eqn:Hq; cbn [negb].
  - unfold trimUrl. by rewrite Hs1, Hq.
  - assert (Hbody : s1 = (if endsWith "/" s1 then substr_0_last s1 else s1)
                    ∨ s1 = (if endsWith "/" s1 then substr_0_last s1 else s1) ++ "/").
    { destruct (endsWith "/" s1) eqn:Hends; [right|by left].
      by apply endsWith_last. }
    revert Hbody. generalize (if endsWith "/" s1 then substr_0_last s1 else s1).
    intros body Hbody.
    assert (Hbq : includes "?" body = false).
    { destruct Hbody as [<- | Hb]; [done|].
      rewrite Hb, includes_app in Hq. by apply orb_false_iff in Hq as [? _]. }
    unfold trimUrl.
    destruct (decide (body = "")) as [-> | Hne]; [done|].
    assert (Hstart : startsWith "/" (body ++ "/") = false).
    { rewrite startsWith_app by done.
      destruct Hbody as [<- | Hs]; [done|].
      rewrite Hs, startsWith_app in Hs1 by done. done. }
    rewrite Hstart.
    rewrite includes_app, Hbq. cbn [includes orb negb Ascii.eqb Bool.eqb].
    rewrite (endsWith_snoc "/" "/" body). cbn [Ascii.eqb Bool.eqb].
    by rewrite substr_0_last_snoc.
Qed.

(** X16. [addToUrl] puts the appendix at the end of the path: before the
    first question mark of a URL that has a query string, at the end of a
    URL that has none. This holds for an appendix without a dollar sign;
    a dollar sign followed by [$], [&], a backquote or a quote in the
    appendix is taken by [replace] as a replacement pattern. *)
Theorem addToUrl_extends_path (path query appendix : string) :
  includes "?" path = false →
  (includes "$" appendix = false →
   addToUrl (path ++ "?" ++ query) appendix = path ++ appendix ++ "?" ++ query)
  ∧ addToUrl path appendix = path ++ appendix.
Proof.
  intros Hpath. split.
  - intros Hplain. unfold addToUrl.
    change ("?" ++ query) with (String "?" query).
    rewrite includes_app, Hpath. cbn [includes orb negb Ascii.eqb Bool.eqb].
    unfold replace. rewrite cut_first by done.
    rewrite substitution_plain.
    + rewrite append_assoc. reflexivity.
    + rewrite includes_app, Hplain. reflexivity.
  - unfold addToUrl. by rewrite Hpath.
Qed.

(** An appendix with a replacement pattern: [$&] becomes the question
    mark that was matched. *)
Example addToUrl_with_pattern : addToUrl "photos?page=2" "/$&" = "photos/??page=2".
Proof. reflexivity. Qed.

End UrlFacts.

(** ** More on albums: failures, paths, children, walks that do not end *)

Module AlbumMore.

Import Album AlbumTree.

Section Albums.

Variable remote : Type.
Variable Database_create : Z → Z → remote → outcome unit * remote.
Variable lookup_unregistered : Z → unregistered.

Local Abbreviation app := (Album.app remote).
Local Abbreviation updateParents_loop := (Album.updateParents_loop remote).
Local Abbreviation updateParents := (Album.updateParents remote).
Local Abbreviation addFile := (Album.addFile remote Database_create).
Local Abbreviation addFiles := (Album.addFiles remote Database_create).
Local Abbreviation addFiles_callback := (Album.addFiles_callback remote Database_create).
Local Abbreviation accepts := (Album.accepts remote Database_create).
Local Abbreviation after_creates := (Album.after_creates remote Database_create).

(** X17. When the database accepts the links of the files before [file]
    and rejects the link of [file], [addFiles] throws the database's
    reason: the links up to that of [file] have been sent, in order, none
    for a later file, and no album is reset or reloaded. *)
Theorem addFiles_stops_at_rejected_file (fuel : nat) (this : Z)
    (pre post : list Z) (file : Z) (e : error) (db : remote) (st : app) :
  accepts this pre (database remote st) →
  Database_create this file (after_creates this pre (database remote st))
  = (Thrown e, db) →
  addFiles fuel this (pre ++ file :: post) st
  = Some (Thrown e,
          {| objects := objects remote st;
             database := db;
             effects := effects remote st
                          ++ (DatabaseCreate this <$> (pre ++ [file])) |}).
Proof.
  intros Hacc Hrej. unfold Album.addFiles.
  unfold mbind, M_bind, await_promiseChain, Utils.promiseChain.
  rewrite UtilsFacts.chain_run. cbn [Utils.Promise_resolve].
  rewrite UtilsFacts.run_app.
  destruct (AlbumFacts.addFiles_pipeline remote Database_create fuel
              (length (pre ++ file :: post)) this pre
              {| Utils.done := 0; Utils.trace := []; Utils.env := st |} Hacc)
    as [Hp Henv].
  cbv zeta in *. cbn [Utils.env] in Henv.
  destruct (Utils.run no_handlers (length (pre ++ file :: post))
              (addFiles_callback fuel this) pre tt _) as [p ust].
  cbn [fst snd] in *. subst p. cbn [Utils.run].
  destruct (UtilsFacts.link_called no_handlers (length (pre ++ file :: post))
              (addFiles_callback fuel this) file tt ust) as (Hp & Hw & _).
  cbv zeta in *.
  assert (Hcb : addFiles_callback fuel this file tt (Utils.env ust)
                = ([Utils.Reject e],
                   {| objects := objects remote st;
                      database := db;
                      effects := effects remote st
                                   ++ (DatabaseCreate this <$> (pre ++ [file])) |})).
  { unfold Album.addFiles_callback, Album.addFile, await_Database_create.
    unfold mbind, M_bind. rewrite Henv. cbn [objects database effects].
    rewrite Hrej. by rewrite fmap_app, app_assoc. }
  rewrite Hcb in Hp, Hw. cbn [fst snd Utils.settled] in Hp, Hw.
  destruct (Utils.link no_handlers (length (pre ++ file :: post))
              (addFiles_callback fuel this) file tt ust) as [p ust'].
  cbn [fst snd] in *. subst p. by rewrite Hw.
Qed.

(** X18. Adding one file through [addFiles] is adding it through
    [addFile]: the two calls give the same result and leave the same
    state, whatever the database answers and whatever the registry. *)
Theorem addFiles_of_one_file (fuel : nat) (this file : Z) (st : app) :
  addFiles fuel this [file] st = addFile fuel this file false st.
Proof.
  unfold Album.addFiles, Album.addFile.
  unfold mbind, M_bind, await_promiseChain, Utils.promiseChain.
  rewrite UtilsFacts.chain_run. cbn [Utils.Promise_resolve Utils.run].
  unfold Utils.link, Utils.new_Promise, Album.addFiles_callback, Album.addFile.
  unfold await_Database_create, mbind, M_bind. cbn [Utils.env negb].
  destruct (Database_create this file (database remote st)) as [[[]|e] db]; reflexivity.
Qed.

(** X19. The path of an album whose parent chain is registered and ends
    is the names of the albums on the chain, from the root album down to
    the album, joined by slashes. *)
Theorem path_joins_names_from_root (chain : list Z) (fuel : nat) (id : Z) (st : app) :
  parent_chain (objects remote st) id chain →
  length chain ≤ fuel →
  ∃ names,
    Forall2 (λ i n, name <$> objects remote st !! i = Some n) chain names
    ∧ path remote fuel id st
      = Some (Returned (JsString.join "/" (rev names)), st).
Proof.
  intros Hchain. revert fuel.
  induction Hchain as [id a Hget Hroot|id a p ids Hget Hp Hrest IH]; intros fuel Hfuel.
  - destruct fuel as [|fuel]; [simpl in Hfuel; lia|].
    exists [name a]. split; [repeat constructor; by rewrite Hget|].
    cbn [path]. unfold mbind, M_bind, parent, getById. rewrite Hget.
    unfold mbind, M_bind. rewrite Hget, Hroot. reflexivity.
  - destruct fuel as [|fuel]; [simpl in Hfuel; lia|].
    destruct (IH fuel) as (names & Hnames & Hpath); [simpl in Hfuel; lia|].
    exists (name a :: names). split; [constructor; [by rewrite Hget|done]|].
    cbn [path]. unfold mbind at 1, M_bind at 1, getById. rewrite Hget.
    unfold mbind at 1, M_bind at 1, parent.
    unfold mbind at 1, M_bind at 1, getById. rewrite Hget, Hp.
    unfold mbind at 1, M_bind at 1, getById.
    destruct (AlbumFacts.parent_chain_registered _ _ _ Hrest) as [b Hb]. rewrite Hb.
    cbn [mret M_ret]. unfold mbind, M_bind. rewrite Hpath.
    cbn [mret M_ret rev]. f_equal. f_equal. f_equal.
    rewrite JsStringFacts.join_snoc.
    + by rewrite JsStringFacts.append_assoc.
    + inversion Hrest; subst; inversion Hnames; subst; cbn [rev];
        by apply not_eq_sym, app_cons_not_nil.
Qed.

Lemma is_child_of_registered (this id : Z) (st : app) :
  parents_registered (objects remote st) →
  is_Some (objects remote st !! id) →
  is_child_of remote this id st
  = Some (Returned (child_of (objects remote st) this id), st).
Proof.
  intros Hclosed [a Ha]. unfold is_child_of, child_of, parent, getById.
  unfold mbind, M_bind. rewrite Ha.
  destruct (parentID a) as [p|] eqn:Hp; [|done].
  by destruct (Hclosed id a p Ha Hp) as [b ->].
Qed.

Lemma filter_children (this : Z) (albums : list Z) (st : app) :
  parents_registered (objects remote st) →
  Forall (λ id, is_Some (objects remote st !! id)) albums →
  filter_albums remote (is_child_of remote this) albums st
  = Some (Returned (filter (λ id, child_of (objects remote st) this id = true) albums), st).
Proof.
  intros Hclosed Hreg. induction Hreg as [|id albums Hid _ IH]; [done|].
  cbn [filter_albums]. unfold mbind, M_bind.
  rewrite is_child_of_registered by done. rewrite IH. cbn [mret M_ret].
  rewrite filter_cons.
  destruct (child_of (objects remote st) this id);
    [by rewrite decide_True|by rewrite decide_False].
Qed.

(** X20. In a registry where the parent of every album is [null] or
    registered, [children] returns, without changing anything, exactly
    the registered albums whose parent is this album, each once. *)
Theorem children_are_albums_with_this_parent (this : Z) (st : app) :
  parents_registered (objects remote st) →
  ∃ kids,
    children remote this st = Some (Returned kids, st)
    ∧ NoDup kids
    ∧ ∀ id, id ∈ kids ↔ ∃ a, objects remote st !! id = Some a ∧ parentID a = Some this.
Proof.
  intros Hclosed. eexists. split; [|split].
  - unfold children. apply filter_children; [done|].
    apply Forall_forall. intros id Hid. unfold meta_objects in Hid.
    apply list_elem_of_fmap in Hid as [[i a] [-> Hin]].
    apply elem_of_map_to_list in Hin. by exists a.
  - apply NoDup_filter. unfold meta_objects. apply NoDup_fst_map_to_list.
  - intros id. rewrite list_elem_of_filter. unfold meta_objects, child_of. split.
    + intros [Htest _]. destruct (objects remote st !! id) as [a|]; [|done].
      exists a. split; [done|]. destruct (parentID a) as [p|]; [|done].
      apply Z.eqb_eq in Htest. by subst.
    + intros (a & Ha & Hp). rewrite Ha, Hp. split; [apply Z.eqb_refl|].
      apply list_elem_of_fmap. exists (id, a). split; [done|].
      by apply elem_of_map_to_list.
Qed.

Lemma has_undefined_parent_listed (album : Z * t) (st : app) :
  parents_looked_up lookup_unregistered (objects remote st) →
  objects remote st !! album.1 = Some album.2 →
  has_undefined_parent remote lookup_unregistered album st
  = Some (Returned (listed_as_root lookup_unregistered (objects remote st) album.2), st).
Proof.
  intros Hlook Hreg.
  unfold has_undefined_parent, parent_reference, getById_reference, listed_as_root.
  unfold mbind, M_bind.
  destruct (parentID album.2) as [p|] eqn:Hp; [|done].
  destruct (objects remote st !! p) as [b|] eqn:Hq; [done|].
  destruct (lookup_unregistered p) as [e| |] eqn:Hl; [|done|done].
  by destruct (Hlook _ _ _ e Hreg Hp Hq).
Qed.

Lemma filter_listed (albums : list (Z * t)) (st : app) :
  parents_looked_up lookup_unregistered (objects remote st) →
  Forall (λ album, objects remote st !! album.1 = Some album.2) albums →
  filter_instances remote (has_undefined_parent remote lookup_unregistered) albums st
  = Some (Returned
            (filter (λ album, listed_as_root lookup_unregistered (objects remote st)
                                album.2 = true) albums), st).
Proof.
  intros Hlook Hreg. induction Hreg as [|album albums Halbum _ IH]; [done|].
  cbn [filter_instances]. unfold mbind, M_bind.
  rewrite has_undefined_parent_listed by done. rewrite IH. cbn [mret M_ret].
  rewrite filter_cons.
  destruct (listed_as_root lookup_unregistered (objects remote st) album.2);
    [by rewrite decide_True|by rewrite decide_False].
Qed.

(** X21. [rootAlbums] keeps the albums whose getter [parent] gives
    [undefined]. The getter gives [null] for an album whose parent id is
    [null] and the result of the lookup otherwise, so whatever a lookup
    does with an unregistered id, as long as none that the getter makes
    throws: [rootAlbums] returns and changes nothing; it lists, each once,
    exactly the albums whose parent id is not registered and is looked up
    as [undefined]; and it never lists a root-level album (one whose
    parent id is [null]). *)
Theorem rootAlbums_lists_no_root_album (st : app) :
  parents_looked_up lookup_unregistered (objects remote st) →
  ∃ kept,
    rootAlbums remote lookup_unregistered st = Some (Returned kept, st)
    ∧ NoDup kept
    ∧ (∀ id, id ∈ kept
             ↔ ∃ a p, objects remote st !! id = Some a
                      ∧ parentID a = Some p
                      ∧ objects remote st !! p = None
                      ∧ lookup_unregistered p = Gives_undefined)
    ∧ (∀ id a, objects remote st !! id = Some a → parentID a = None → id ∉ kept).
Proof.
  intros Hlook.
  set (listed := λ album : Z * t,
         listed_as_root lookup_unregistered (objects remote st) album.2 = true).
  assert (Hmem : ∀ id, id ∈ (filter listed (map_to_list (objects remote st))).*1
                       ↔ ∃ a, objects remote st !! id = Some a
                              ∧ listed_as_root lookup_unregistered
                                  (objects remote st) a = true).
  { intros id. rewrite list_elem_of_fmap. split.
    - intros [[i a] [-> Hin]]. apply list_elem_of_filter in Hin as [Hlisted Hin].
      apply elem_of_map_to_list in Hin. by exists a.
    - intros (a & Ha & Hlisted). exists (id, a). split; [done|].
      apply list_elem_of_filter. split; [done|]. by apply elem_of_map_to_list. }
  exists (filter listed (map_to_list (objects remote st))).*1.
  split; [|split; [|split]].
  - unfold rootAlbums. unfold mbind, M_bind.
    rewrite filter_listed; [done|done|].
    apply Forall_forall. intros [i a] Hin. by apply elem_of_map_to_list in Hin.
  - apply (sublist_NoDup _ (map_to_list (objects remote st)).*1);
      [apply NoDup_fst_map_to_list|].
    apply fmap_sublist, sublist_filter.
  - intros id. rewrite Hmem. unfold listed_as_root. split.
    + intros (a & Ha & Hlisted). exists a.
      destruct (parentID a) as [p|]; [|done]. exists p.
      destruct (objects remote st !! p); [done|].
      by destruct (lookup_unregistered p).
    + intros (a & p & Ha & Hp & Hq & Hl). exists a. by rewrite Hp, Hq, Hl.
  - intros id a Ha Hp Hin. apply Hmem in Hin as (a' & Ha' & Hlisted).
    assert (a' = a) as -> by congruence.
    unfold listed_as_root in Hlisted. by rewrite Hp in Hlisted.
Qed.

Lemma never_end_alter (objs : gmap Z t) (inside : Z → Prop) (i : Z) :
  parents_never_end objs inside → parents_never_end (alter cleared i objs) inside.
Proof.
  intros Hnever id Hid. destruct (Hnever id Hid) as (a & p & Ha & Hp & Hin).
  destruct (decide (i = id)) as [->|Hne].
  - exists (cleared a), p. by rewrite lookup_alter_eq, Ha.
  - exists a, p. by rewrite lookup_alter_ne.
Qed.

(** Within the limit the loop is the loop of [Album.updateParents_loop]:
    a walk of at most [fuel] steps from [ids] cannot fill the array. *)
Lemma updateParents_loop_within_limit (limit fuel : nat) :
  ∀ (current : option Z) (ids : list Z) (st : app),
    fuel + length ids ≤ limit →
    updateParents_loop_within remote limit fuel current ids st
    = updateParents_loop fuel current ids st.
Proof.
  induction fuel as [|fuel IH]; intros [cur|] ids st Hlimit; [done..| |done].
  cbn [updateParents_loop_within Album.updateParents_loop].
  assert ((limit <=? length ids)%nat = false) as -> by (apply Nat.leb_gt; lia).
  unfold mbind, M_bind, resetData.
  destruct (parent remote cur _) as [[[next|e] st1]|]; [|done..].
  apply IH. rewrite length_app. simpl. lia.
Qed.

Lemma updateParents_loop_within_cycle (inside : Z → Prop) (limit fuel : nat) :
  ∀ (cur : Z) (ids : list Z) (st : app),
    parents_never_end (objects remote st) inside →
    inside cur →
    length ids ≤ limit →
    (fuel + length ids ≤ limit →
     updateParents_loop_within remote limit fuel (Some cur) ids st = None)
    ∧ (limit < fuel + length ids →
       ∃ more,
         updateParents_loop_within remote limit fuel (Some cur) ids st
         = Some (Thrown RangeError,
                 {| objects := reset_all more (objects remote st);
                    database := database remote st;
                    effects := effects remote st ++ (ResetData <$> more) |})
         ∧ length ids + length more = limit
         ∧ Forall inside more).
Proof.
  induction fuel as [|fuel IH]; intros cur ids st Hnever Hcur Hids.
  { split; [done|]. simpl. lia. }
  destruct (limit <=? length ids)%nat eqn:Hfull.
  - assert (Hstep : updateParents_loop_within remote limit (S fuel) (Some cur) ids st
                    = Some (Thrown RangeError, st)).
    { cbn [updateParents_loop_within]. by rewrite Hfull. }
    rewrite Hstep. apply Nat.leb_le in Hfull. split; [lia|]. intros _. exists [].
    split; [|split; [simpl; lia|constructor]].
    unfold reset_all. cbn [fold_left fmap list_fmap]. rewrite app_nil_r.
    by destruct st.
  - pose proof (never_end_alter _ _ cur Hnever) as Hnever'.
    destruct (Hnever' cur Hcur) as (a & p & Ha & Hp & Hin).
    destruct (Hnever' p Hin) as (b & _ & Hb & _).
    assert (Hstep : updateParents_loop_within remote limit (S fuel) (Some cur) ids st
                    = updateParents_loop_within remote limit fuel (Some p) (ids ++ [cur])
                        {| objects := alter cleared cur (objects remote st);
                           database := database remote st;
                           effects := effects remote st ++ [ResetData cur] |}).
    { cbn [updateParents_loop_within]. rewrite Hfull.
      unfold mbind at 1, M_bind at 1, resetData.
      unfold mbind at 1, M_bind at 1, parent.
      unfold mbind at 1, M_bind at 1, getById. cbn [objects].
      rewrite Ha, Hp. unfold mbind at 1, M_bind at 1, getById. cbn [objects].
      by rewrite Hb. }
    rewrite Hstep. apply Nat.leb_gt in Hfull.
    destruct (IH p (ids ++ [cur])
                {| objects := alter cleared cur (objects remote st);
                   database := database remote st;
                   effects := effects remote st ++ [ResetData cur] |})
      as [Hrunning Hthrows]; [exact Hnever'|exact Hin|rewrite length_app; simpl; lia|].
    rewrite length_app in Hrunning, Hthrows. simpl in Hrunning, Hthrows.
    split.
    + intros Hfuel. apply Hrunning. lia.
    + intros Hfuel. destruct Hthrows as (more & Hrun & Hlen & Hmore); [lia|].
      exists (cur :: more). split; [|split; [simpl; lia|by constructor]].
      rewrite Hrun. cbn [objects database effects fmap list_fmap]. unfold reset_all.
      cbn [fold_left]. by rewrite <- !app_assoc.
Qed.

(** X22. When following parents from an album never ends (the parent
    chain runs into a cycle of registered albums), [updateParents] never
    returns and never asks for a reload: the loop goes on resetting albums
    of the cycle until [ids.push] throws a RangeError. With the array
    holding at most [limit] ids, the loop is still running after [limit]
    turns or fewer, and once it is given more turns than that it has
    thrown RangeError after exactly [limit] resets, all of albums the
    walk visits, and nothing else. *)
Theorem updateParents_ends_in_RangeError_on_cycle (inside : Z → Prop)
    (limit fuel : nat) (this : Z) (st : app) :
  parents_never_end (objects remote st) inside →
  inside this →
  (fuel ≤ limit → updateParents_within remote limit fuel this st = None)
  ∧ (limit < fuel →
     ∃ ids,
       updateParents_within remote limit fuel this st
       = Some (Thrown RangeError,
               {| objects := reset_all ids (objects remote st);
                  database := database remote st;
                  effects := effects remote st ++ (ResetData <$> ids) |})
       ∧ length ids = limit
       ∧ Forall inside ids).
Proof.
  intros Hnever Hthis.
  destruct (updateParents_loop_within_cycle inside limit fuel this [] st Hnever Hthis)
    as [Hrunning Hthrows]; [simpl; lia|].
  simpl in Hrunning, Hthrows. rewrite Nat.add_0_r in Hrunning, Hthrows.
  unfold updateParents_within. unfold mbind, M_bind. split.
  - intros Hfuel. by rewrite Hrunning.
  - intros Hfuel. destruct (Hthrows Hfuel) as (ids & Hrun & Hlen & Hids).
    exists ids. by rewrite Hrun.
Qed.

Lemma broken_chain_alter (objs : gmap Z t) (missing i cur : Z) (ids : list Z) :
  broken_chain objs missing cur ids →
  broken_chain (alter cleared i objs) missing cur ids.
Proof.
  induction 1 as [id a Hget Hp Hnone|id a p ids Hget Hp _ IH].
  - assert (Hnone' : alter cleared i objs !! missing = None).
    { destruct (decide (i = missing)) as [->|Hne].
      - by rewrite lookup_alter_eq, Hnone.
      - by rewrite lookup_alter_ne. }
    destruct (decide (i = id)) as [->|Hne].
    + apply (broken_here _ _ id (cleared a)); [|done|done].
      by rewrite lookup_alter_eq, Hget.
    + apply (broken_here _ _ id a); [|done|done]. by rewrite lookup_alter_ne.
  - destruct (decide (i = id)) as [->|Hne].
    + apply (broken_above _ _ id (cleared a) p); [|done|done].
      by rewrite lookup_alter_eq, Hget.
    + apply (broken_above _ _ id a p); [|done|done]. by rewrite lookup_alter_ne.
Qed.

Lemma broken_chain_registered (objs : gmap Z t) (missing cur : Z) (ids : list Z) :
  broken_chain objs missing cur ids → is_Some (objs !! cur).
Proof. destruct 1; eauto. Qed.

Lemma updateParents_loop_broken (missing : Z) (chain : list Z) :
  ∀ (fuel : nat) (cur : Z) (ids : list Z) (st : app),
    broken_chain (objects remote st) missing cur chain →
    length chain ≤ fuel →
    updateParents_loop fuel (Some cur) ids st
    = Some (Thrown (NotFound missing),
            {| objects := reset_all chain (objects remote st);
               database := database remote st;
               effects := effects remote st ++ (ResetData <$> chain) |}).
Proof.
  induction chain as [|id chain IH]; intros fuel cur ids st Hchain Hfuel.
  - inversion Hchain.
  - destruct fuel as [|fuel]; [simpl in Hfuel; lia|].
    cbn [Album.updateParents_loop].
    unfold mbind at 1, M_bind at 1, resetData.
    unfold mbind at 1, M_bind at 1, parent.
    unfold mbind at 1, M_bind at 1, getById. cbn [objects].
    inversion Hchain as [id' a Hget Hp Hnone|id' a p ids' Hget Hp Hrest]; subst.
    + rewrite lookup_alter_eq, Hget. cbn [fmap option_fmap option_map cleared parentID].
      rewrite Hp. unfold mbind at 1, M_bind at 1, getById. cbn [objects].
      assert (Hnone' : alter cleared id (objects remote st) !! missing = None).
      { destruct (decide (id = missing)) as [->|Hne].
        - by rewrite lookup_alter_eq, Hnone.
        - by rewrite lookup_alter_ne. }
      rewrite Hnone'. reflexivity.
    + rewrite lookup_alter_eq, Hget. cbn [fmap option_fmap option_map cleared parentID].
      rewrite Hp. unfold mbind at 1, M_bind at 1, getById. cbn [objects].
      pose proof (broken_chain_alter _ _ id _ _ Hrest) as Hrest'.
      destruct (broken_chain_registered _ _ _ _ Hrest') as [b Hb]. rewrite Hb.
      cbn [mret M_ret].
      rewrite (IH fuel p (ids ++ [id])
                 {| objects := alter cleared id (objects remote st);
                    database := database remote st;
                    effects := effects remote st ++ [ResetData id] |});
        [|exact Hrest'|simpl in Hfuel; lia].
      cbn [objects database effects fmap list_fmap].
      by rewrite <- !app_assoc.
Qed.

(** X23. When the parent chain of an album leads to a parent id that is
    not registered, [updateParents] throws NotFound for that id after
    having reset the album and its registered ancestors, and it does not
    ask for any reload. *)
Theorem updateParents_stops_at_missing_parent (missing : Z) (chain : list Z)
    (fuel : nat) (this : Z) (st : app) :
  broken_chain (objects remote st) missing this chain →
  length chain ≤ fuel →
  updateParents fuel this st
  = Some (Thrown (NotFound missing),
          {| objects := reset_all chain (objects remote st);
             database := database remote st;
             effects := effects remote st ++ (ResetData <$> chain) |}).
Proof.
  intros Hchain Hfuel. unfold Album.updateParents. unfold mbind, M_bind.
  by rewrite (updateParents_loop_broken missing chain).
Qed.

End Albums.

End AlbumMore.

(** ** Rotating a file, and deserialising any geotag *)

Module FileObjectMore.

Import FileObject Rotation.

Local Open Scope Z_scope.

Lemma indexOf_orientations (orientation : Z) :
  (orientation = 1 ∧ indexOf orientation orientations = 0)
  ∨ (orientation = 6 ∧ indexOf orientation orientations = 1)
  ∨ (orientation = 3 ∧ indexOf orientation orientations = 2)
  ∨ (orientation = 8 ∧ indexOf orientation orientations = 3)
  ∨ ((orientation ∉ orientations) ∧ indexOf orientation orientations = -1).
Proof.
  unfold indexOf, orientations. cbn [indexOf_from].
  destruct (Z.eqb_spec 1 orientation) as [<-|H1]; [by left|].
  destruct (Z.eqb_spec 6 orientation) as [<-|H6]; [right; left; done|].
  destruct (Z.eqb_spec 3 orientation) as [<-|H3]; [right; right; left; done|].
  destruct (Z.eqb_spec 8 orientation) as [<-|H8]; [right; right; right; left; done|].
  right; right; right; right. split; [|done].
  rewrite !elem_of_cons, elem_of_nil. intros [?|[?|[?|[?|[]]]]]; congruence.
Qed.

(** X24. Whatever the current orientation and the direction, the new
    orientation of [rotate] is defined and is one of 1, 6, 3, 8; from an
    orientation that is not one of these, a clockwise rotation gives 1
    and an anticlockwise rotation gives 3. *)
Theorem newOrientation_is_an_orientation (orientation : Z) (direction : RotateDirection) :
  ∃ o, newOrientation orientation direction = Some o
       ∧ o ∈ orientations
       ∧ (orientation ∉ orientations →
          o = match direction with Clockwise => 1 | Anticlockwise => 3 end).
Proof.
  assert (Hin : ∀ o, o = 1 ∨ o = 6 ∨ o = 3 ∨ o = 8 → o ∈ orientations).
  { intros o. unfold orientations. rewrite !elem_of_cons. tauto. }
  unfold newOrientation.
  destruct (indexOf_orientations orientation)
    as [[-> ->]|[[-> ->]|[[-> ->]|[[-> ->]|[Hout ->]]]]];
    destruct direction; cbn; eexists; (split; [reflexivity|]);
    (split; [apply Hin; tauto|]); try done;
    intros Hno; exfalso; apply Hno, Hin; tauto.
Qed.

(** X25. On the orientations 1, 6, 3, 8 a clockwise rotation and an
    anticlockwise rotation undo each other, in either order, and four
    clockwise rotations give the orientation back. *)
Theorem rotations_undo_each_other (orientation : Z) :
  orientation ∈ orientations →
  (o ← newOrientation orientation Clockwise; newOrientation o Anticlockwise)
  = Some orientation
  ∧ (o ← newOrientation orientation Anticlockwise; newOrientation o Clockwise)
    = Some orientation
  ∧ (o1 ← newOrientation orientation Clockwise;
     o2 ← newOrientation o1 Clockwise;
     o3 ← newOrientation o2 Clockwise;
     newOrientation o3 Clockwise)
    = Some orientation.
Proof.
  intros Hin. unfold orientations in Hin.
  repeat (apply elem_of_cons in Hin as [->|Hin]; [by vm_compute|]).
  by apply elem_of_nil in Hin.
Qed.

Section Geotag.

Variable coord : Type.

(** X26. Deserialising never fails: for every wire value and every
    store, [deserialize] returns; [null] stores a [null] geotag id, and a
    geotag object stores its id, leaves a geotag registered under that id
    that carries the id and every modification flag the object had set,
    and leaves the registered areas alone. *)
Theorem deserialize_always_returns (st : store coord) (prop : option (wire coord)) :
  ∃ st',
    deserialize st prop = Returned st'
    ∧ areas coord st' = areas coord st
    ∧ match prop with
      | None => geotagID st' = None ∧ geotags coord st' = geotags coord st
      | Some w =>
          geotagID st' = Some (w_id w)
          ∧ ∃ g, geotags coord st' !! w_id w = Some g
                 ∧ id g = w_id w
                 ∧ (w_locationModified coord w = true → locationModified coord g = true)
                 ∧ (w_areaModified coord w = true → areaModified coord g = true)
      end.
Proof.
  destruct prop as [w|]; [|by eexists].
  unfold deserialize, FileObject.deserialize. cbn [addObject].
  set (merged := match geotags coord st !! w_id w with Some _ => _ | None => _ end).
  assert (Hid : id merged = w_id w).
  { subst merged. by destruct (geotags coord st !! w_id w). }
  rewrite Hid.
  destruct (w_locationModified coord w) eqn:Hloc;
    destruct (w_areaModified coord w) eqn:Harea;
    unfold set_flag; cbn [geotagID FileObject.geotagID geotags areas];
    rewrite ?lookup_insert_eq; cbn [geotagID FileObject.geotagID geotags areas];
    rewrite ?lookup_insert_eq;
    (eexists; split; [reflexivity|]);
    cbn [geotagID FileObject.geotagID geotags areas];
    (split; [done|]); (split; [done|]);
    rewrite lookup_insert_eq; eexists; (split; [reflexivity|]);
    cbn [id FileObject.id locationModified areaModified]; by rewrite ?Hid.
Qed.

End Geotag.

End FileObjectMore.


(** ** The further properties on concrete containers, runs and registries *)

Module MoreScenarios.

Import Examples MoreExamples.

Local Open Scope Z_scope.

(** A fresh container loads page 2 of 25: the ten ids it returns are all
    known. *)
Lemma returned_page_has_no_unknown_slot_witness :
  ∃ r st',
    RootModel.getContentObjects album_meta (pages (ids_from 100 25)) 2 10 None fresh
    = (Returned r, st')
    ∧ length (RootModel.set_objectIds r) = 10%nat
    ∧ Js.every RootModel.is_known (RootModel.set_objectIds r) = true.
Proof.
  eexists _, _. split; [vm_compute; reflexivity|]. split; [reflexivity|].
  apply (RootListingFacts.returned_page_has_no_unknown_slot
           album_meta (pages (ids_from 100 25)) fresh 2 10 None _
           (RootModel.getContentObjects album_meta (pages (ids_from 100 25))
              2 10 None fresh).2).
  vm_compute. reflexivity.
Defined.

(** A call that the unreachable remote store fails leaves the container
    with its cached page. *)
Lemma failed_call_keeps_cache_witness :
  ∃ e st',
    RootModel.getContentObjects album_meta offline 2 10 None (cache_of first_page_of_25)
    = (Thrown e, st')
    ∧ RootModel.this st' = RootModel.this (cache_of first_page_of_25).
Proof.
  eexists _, _. split; [vm_compute; reflexivity|].
  apply (proj1 (RootListingFacts.failed_call_keeps_cache album_meta offline)
           (cache_of first_page_of_25) 2 10 None (Detail "Network Error")).
  vm_compute. reflexivity.
Defined.

(** The second page of a container that holds the first one is asked of
    a remote store that cannot be reached. *)
Lemma remote_rejection_is_propagated_witness :
  RootModel.getContentObjects album_meta offline 2 10 None (cache_of first_page_of_25)
  = (Thrown (Detail "Network Error"),
     {| RootModel.this := RootModel.this (cache_of first_page_of_25);
        RootModel.requests :=
          RootModel.requests (cache_of first_page_of_25)
          ++ [RootModel.contents_request album_meta
                (RootModel.this (cache_of first_page_of_25)) 2 10 (Js.or_null None)] |}).
Proof.
  apply (RootListingFacts.remote_rejection_is_propagated album_meta offline
           (cache_of first_page_of_25) 2 10 None (Detail "Network Error")).
  - vm_compute. split; reflexivity.
  - reflexivity.
Defined.

Lemma first_of_three_agrees : RootListing.agrees three_rows first_of_three.
Proof.
  split; [reflexivity|]. split; [reflexivity|].
  intros i x Hi.
  destruct i as [|[|[|i]]]; simpl in Hi; [by inversion Hi|done|done|done].
Qed.

Lemma pages_serves_second_of_three :
  RootListing.serves three_rows 2 1
    (pages three_rows
       (RootModel.contents_request album_meta
          (RootModel.this (cache_of first_of_three)) 2 1 (Js.or_null None))).
Proof.
  unfold RootListing.serves.
  split; [lia|]. split; [lia|]. split; [reflexivity|]. split; [left; simpl; lia|].
  vm_compute. reflexivity.
Qed.

(** The second row of a listing of three, of which the first is cached,
    is loaded as page 2 of size 1. *)
Lemma returned_page_is_the_listing_page_witness :
  ∃ st' e',
    RootModel.getContentObjects album_meta (pages three_rows) 2 1 None
      (cache_of first_of_three)
    = (Returned {| RootModel.set_count := Some 3;
                   RootModel.set_objectIds := [Some 101] |}, st')
    ∧ RootModel.contents (RootModel.this st') !! Js.or_null None = Some e'
    ∧ RootListing.agrees three_rows e'.
Proof.
  apply (RootListingFacts.returned_page_is_the_listing_page album_meta (pages three_rows)
           three_rows (cache_of first_of_three) 2 1 None).
  - exact pages_serves_second_of_three.
  - intros existing Hexisting.
    vm_compute in Hexisting. injection Hexisting as <-.
    exact first_of_three_agrees.
Defined.


(** Page 0 of a container that holds 25 ids. *)
Lemma page_zero_is_empty_witness :
  RootModel.getContentObjects album_meta offline 0 10 None (cache_of full25)
  = (Returned {| RootModel.set_count := Some 25; RootModel.set_objectIds := [] |},
     cache_of full25).
Proof.
  apply (RootListingFacts.page_zero_is_empty album_meta offline
           (cache_of full25) 10 None full25).
  - reflexivity.
  - lia.
Defined.

(** The base roots 1 and 2 are loaded by the first call and served by
    the second; an unreachable remote store leaves nothing stored. *)
Lemma getAbsoluteRoots_loads_once_witness :
  (∃ cls1,
     RootListing.getAbsoluteRoots folder_meta (base_roots_of [1; 2]) unloaded
     = (Returned ({| RootModel.set_count := Some 2;
                     RootModel.set_objectIds := [Some 1; Some 2] |},
                  {| RootModel.set_count := Some 0; RootModel.set_objectIds := [] |}),
        cls1)
     ∧ RootListing.base_requests cls1 = 1%nat
     ∧ RootListing.getAbsoluteRoots folder_meta (base_roots_of [1; 2]) cls1
       = (Returned ({| RootModel.set_count := Some 2;
                       RootModel.set_objectIds := [Some 1; Some 2] |},
                    {| RootModel.set_count := Some 0; RootModel.set_objectIds := [] |}),
          cls1))
  ∧ (∃ cls1,
       RootListing.getAbsoluteRoots folder_meta base_offline unloaded
       = (Thrown (Detail "Network Error"), cls1)
       ∧ RootListing.absoluteRoots cls1 = None
       ∧ RootListing.base_requests cls1 = 1%nat).
Proof.
  split.
  - exact (proj1 (RootListingFacts.getAbsoluteRoots_loads_once folder_meta
                    (base_roots_of [1; 2]))
             unloaded _ eq_refl eq_refl).
  - exact (proj2 (RootListingFacts.getAbsoluteRoots_loads_once folder_meta base_offline)
             unloaded _ eq_refl eq_refl).
Defined.

(** A step that calls [resolve] twice, on two items: the counter and the
    "after" events go up to 4, past the length of the list. *)
Lemma after_events_are_numbered_witness :
  Utils.done (Utils.promiseChain after_only ["a"; "b"]%string resolve_twice [] tt).2
  = length (Utils.after_events
              (Utils.trace
                 (Utils.promiseChain after_only ["a"; "b"]%string resolve_twice [] tt).2))
  ∧ Utils.done (Utils.promiseChain after_only ["a"; "b"]%string resolve_twice [] tt).2
    = 4%nat
  ∧ ∀ k e,
      Utils.after_events
        (Utils.trace
           (Utils.promiseChain after_only ["a"; "b"]%string resolve_twice [] tt).2)
      !! k = Some e →
      Utils.doneCount e = S k ∧ Utils.totalCount e = 2%nat.
Proof.
  destruct (UtilsMore.after_events_are_numbered after_only ["a"; "b"]%string
              resolve_twice [] tt eq_refl) as [Hdone Hevents].
  split; [exact Hdone|]. split; [reflexivity|exact Hevents].
Defined.

(** With no handler registered, a run of three items fires no event. *)
Lemma unregistered_handlers_never_fire_witness :
  Utils.before_events
    (Utils.trace
       (Utils.promiseChain Album.no_handlers ["a"; "b"; "c"]%string reject_b [] tt).2)
  = []
  ∧ Utils.after_events
      (Utils.trace
         (Utils.promiseChain Album.no_handlers ["a"; "b"; "c"]%string reject_b [] tt).2)
    = [].
Proof.
  destruct (UtilsMore.unregistered_handlers_never_fire Album.no_handlers
              ["a"; "b"; "c"]%string reject_b [] tt) as [Hbefore Hafter].
  split; [exact (Hbefore eq_refl)|exact (Hafter eq_refl)].
Defined.

(** The step rejects on "b": the chain is left rejected, "c" is never
    visited. *)
Lemma unfulfilled_step_blocks_chain_witness :
  (Utils.promiseChain Utils.both_handlers ["a"; "b"; "c"]%string reject_b [] tt).1
  = Utils.Rejected (Detail "b failed")
  ∧ (Utils.callback_calls
       (Utils.trace
          (Utils.promiseChain Utils.both_handlers ["a"; "b"; "c"]%string
             reject_b [] tt).2)).*1
    = ["a"; "b"]%string
  ∧ Utils.env
      (Utils.promiseChain Utils.both_handlers ["a"; "b"; "c"]%string reject_b [] tt).2
    = tt.
Proof.
  refine (UtilsMore.unfulfilled_step_blocks_chain Utils.both_handlers reject_b
            ["a"%string] "b"%string ["c"%string] [] tt ["a"%string]
            (Utils.chain Utils.both_handlers 3 reject_b ["a"%string]
               (Utils.Promise_resolve [])
               {| Utils.done := 0; Utils.trace := []; Utils.env := tt |}).2
            (Utils.Rejected (Detail "b failed")) _ _ _).
  - reflexivity.
  - reflexivity.
  - intros v Hv. discriminate Hv.
Defined.

(** A path with a leading and a trailing slash is trimmed to its body and
    one slash, and trimming again changes nothing. *)
Lemma trimUrl_idempotent_witness :
  Urls.trimUrl (Some "/albums/3/"%string) = "albums/3/"%string
  ∧ Urls.trimUrl (Some (Urls.trimUrl (Some "/albums/3/"%string)))
    = Urls.trimUrl (Some "/albums/3/"%string).
Proof.
  split; [reflexivity|].
  apply (UrlFacts.trimUrl_idempotent (Some "/albums/3/"%string)).
  intros s Hs _. injection Hs as <-. reflexivity.
Defined.

(** [files/] is added before the query string, or at the end. *)
Lemma addToUrl_extends_path_witness :
  Urls.addToUrl "folders/3/?page=2" "files/" = "folders/3/files/?page=2"%string
  ∧ Urls.addToUrl "folders/3/" "files/" = "folders/3/files/"%string.
Proof.
  destruct (UrlFacts.addToUrl_extends_path "folders/3/" "page=2" "files/" eq_refl)
    as [Hquery Hplain].
  split; [exact (Hquery eq_refl)|exact Hplain].
Defined.

(** Files 10, 12 and 13 are added to album 3 and the database rejects
    file 12: the links of 10 and 12 were sent, that of 13 was not, and no
    album was reset. *)
Lemma addFiles_stops_at_rejected_file_witness :
  Album.addFiles (list (Z * Z)) refuse_12 3 3 [10; 12; 13] family_app
  = Some (Thrown (Detail "Already in album."),
          {| Album.objects := family;
             Album.database := [(3, 10)];
             Album.effects := [Album.DatabaseCreate 3 10; Album.DatabaseCreate 3 12] |}).
Proof.
  refine (AlbumMore.addFiles_stops_at_rejected_file (list (Z * Z)) refuse_12
            3%nat 3 [10] [13] 12 (Detail "Already in album.") [(3, 10)] family_app _ _).
  - simpl. eexists. split; [reflexivity|exact I].
  - reflexivity.
Defined.

(** The path of album 3, under 2, under the root album 1. *)
Lemma path_joins_names_from_root_witness :
  ∃ names,
    Forall2 (λ i n, Album.name <$> family !! i = Some n) [3; 2; 1] names
    ∧ AlbumTree.path (list (Z * Z)) 3 3 family_app
      = Some (Returned (JsString.join "/" (rev names)), family_app).
Proof.
  refine (AlbumMore.path_joins_names_from_root (list (Z * Z)) [3; 2; 1] 3%nat 3
            family_app Scenarios.family_chain _).
  simpl. lia.
Defined.

Lemma family_parents_registered : AlbumTree.parents_registered family.
Proof.
  intros id a p Hid Hp. unfold family in Hid. cbn [list_to_map foldr fst snd] in Hid.
  repeat (apply lookup_insert_Some in Hid as [[<- <-]|[_ Hid]];
          [simpl in Hp; first [discriminate Hp | injection Hp as <-; by eexists]|]).
  by rewrite lookup_empty in Hid.
Qed.

(** The children of album 1 are the albums 2 and 4. *)
Lemma children_are_albums_with_this_parent_witness :
  ∃ kids,
    AlbumTree.children (list (Z * Z)) 1 family_app = Some (Returned kids, family_app)
    ∧ NoDup kids
    ∧ ∀ id, id ∈ kids
            ↔ ∃ a, family !! id = Some a ∧ Album.parentID a = Some 1.
Proof.
  exact (AlbumMore.children_are_albums_with_this_parent (list (Z * Z)) 1 family_app
           family_parents_registered).
Defined.

Lemma mixed_parents_looked_up :
  AlbumTree.parents_looked_up (λ _, AlbumTree.Gives_undefined) mixed.
Proof. intros id a p e _ _ _ He. discriminate He. Qed.

(** With a lookup that gives [undefined] for an unregistered id, album 7,
    whose parent 99 is not registered, is the one album that [rootAlbums]
    lists; the root-level album 1 is not listed. *)
Lemma rootAlbums_lists_no_root_album_witness :
  AlbumTree.rootAlbums (list (Z * Z)) (λ _, AlbumTree.Gives_undefined) mixed_app
  = Some (Returned [7], mixed_app)
  ∧ Album.parentID <$> mixed !! 1 = Some None
  ∧ ∃ kept,
      AlbumTree.rootAlbums (list (Z * Z)) (λ _, AlbumTree.Gives_undefined) mixed_app
      = Some (Returned kept, mixed_app)
      ∧ NoDup kept
      ∧ (∀ id, id ∈ kept
               ↔ ∃ a p, mixed !! id = Some a
                        ∧ Album.parentID a = Some p
                        ∧ mixed !! p = None
                        ∧ AlbumTree.Gives_undefined = AlbumTree.Gives_undefined)
      ∧ (∀ id a, mixed !! id = Some a → Album.parentID a = None → id ∉ kept).
Proof.
  split; [vm_compute; reflexivity|]. split; [reflexivity|].
  exact (AlbumMore.rootAlbums_lists_no_root_album (list (Z * Z))
           (λ _, AlbumTree.Gives_undefined) mixed_app mixed_parents_looked_up).
Defined.

Lemma looped_never_ends :
  AlbumTree.parents_never_end looped (λ id, id = 5 ∨ id = 6).
Proof.
  intros id [-> | ->].
  - eexists _, 6. split; [reflexivity|]. split; [reflexivity|]. by right.
  - eexists _, 5. split; [reflexivity|]. split; [reflexivity|]. by left.
Qed.

(** Albums 5 and 6 are each other's parent. With an array that holds at
    most three ids, three turns of the loop on album 5 leave it running,
    and any further turn ends it with a RangeError, after the resets of
    5, 6 and 5 and without a reload. *)
Lemma updateParents_ends_in_RangeError_on_cycle_witness :
  AlbumTree.updateParents_within (list (Z * Z)) 3 3 5 looped_app = None
  ∧ AlbumTree.updateParents_within (list (Z * Z)) 3 1000 5 looped_app
    = Some (Thrown RangeError,
            {| Album.objects := Album.reset_all [5; 6; 5] looped;
               Album.database := [];
               Album.effects :=
                 [Album.ResetData 5; Album.ResetData 6; Album.ResetData 5] |})
  ∧ ∃ ids,
      AlbumTree.updateParents_within (list (Z * Z)) 3 1000 5 looped_app
      = Some (Thrown RangeError,
              {| Album.objects := Album.reset_all ids looped;
                 Album.database := [];
                 Album.effects := [] ++ (Album.ResetData <$> ids) |})
      ∧ length ids = 3%nat
      ∧ Forall (λ id, id = 5 ∨ id = 6) ids.
Proof.
  assert (Hthis : (λ id : Z, id = 5 ∨ id = 6) 5) by (left; reflexivity).
  split.
  - refine (proj1 (AlbumMore.updateParents_ends_in_RangeError_on_cycle (list (Z * Z))
                     (λ id, id = 5 ∨ id = 6) 3 3 5 looped_app looped_never_ends Hthis) _).
    lia.
  - split; [vm_compute; reflexivity|].
    refine (proj2 (AlbumMore.updateParents_ends_in_RangeError_on_cycle (list (Z * Z))
                     (λ id, id = 5 ∨ id = 6) 3 1000 5 looped_app looped_never_ends Hthis) _).
    lia.
Defined.

Lemma orphaned_chain : AlbumTree.broken_chain orphaned 99 8 [8; 7].
Proof.
  eapply AlbumTree.broken_above; [reflexivity|reflexivity|].
  eapply AlbumTree.broken_here; reflexivity.
Qed.

(** Album 8 is in album 7, whose parent 99 is not registered: albums 8
    and 7 are reset, NotFound is thrown for 99 and nothing is reloaded. *)
Lemma updateParents_stops_at_missing_parent_witness :
  Album.updateParents (list (Z * Z)) 2 8 orphaned_app
  = Some (Thrown (NotFound 99),
          {| Album.objects := Album.reset_all [8; 7] orphaned;
             Album.database := [];
             Album.effects := [Album.ResetData 8; Album.ResetData 7] |}).
Proof.
  refine (AlbumMore.updateParents_stops_at_missing_parent (list (Z * Z)) 99 [8; 7]
            2%nat 8 orphaned_app orphaned_chain _).
  simpl. lia.
Defined.

Lemma six_is_an_orientation : 6 ∈ Rotation.orientations.
Proof. unfold Rotation.orientations. rewrite !elem_of_cons. tauto. Qed.

(** From orientation 6: clockwise gives 3 and back, anticlockwise gives 1
    and back, and four clockwise rotations give 6 again. *)
Lemma rotations_undo_each_other_witness :
  Rotation.newOrientation 6 Rotation.Clockwise = Some 3
  ∧ Rotation.newOrientation 6 Rotation.Anticlockwise = Some 1
  ∧ (o ← Rotation.newOrientation 6 Rotation.Clockwise;
     Rotation.newOrientation o Rotation.Anticlockwise) = Some 6
  ∧ (o ← Rotation.newOrientation 6 Rotation.Anticlockwise;
     Rotation.newOrientation o Rotation.Clockwise) = Some 6
  ∧ (o1 ← Rotation.newOrientation 6 Rotation.Clockwise;
     o2 ← Rotation.newOrientation o1 Rotation.Clockwise;
     o3 ← Rotation.newOrientation o2 Rotation.Clockwise;
     Rotation.newOrientation o3 Rotation.Clockwise) = Some 6.
Proof.
  split; [reflexivity|]. split; [reflexivity|].
  exact (FileObjectMore.rotations_undo_each_other 6 six_is_an_orientation).
Defined.

End MoreScenarios.
